(** * Objectives of PTUnifier: a shallow embedding of
      [ptunifier/models/objectives.py]

    Tensors are nested lists.  A floating-point entry is an exact rational
    ([Qc]): rounding is not modelled, and a scalar loss is such a value or
    NaN ([scalar]).  A call that raises has no result ([None]).  The encoder,
    the task heads, the tokenizer and the decoder are collaborators that the
    source only calls; they are Section variables or parameters here, and the
    metric accumulators and the logger, which no objective reads back, are
    left out. *)

From Stdlib Require Import Ascii QArith Qcanon.
From stdpp Require Import gmap strings list numbers pretty sorting.

Local Open Scope Qc_scope.

(** ** Tensor helpers shared by the objectives *)

(** [x[idx]] for an index tensor [idx]: every index must be in range. *)
Definition index_select {A} (x : list A) (idx : list nat) : option (list A) :=
  mapM (λ j, x !! j) idx.

(** [torch.stack] refuses an empty list of tensors. *)
Definition torch_stack {A} (xs : list A) : option (list A) :=
  match xs with
  | [] => None
  | _ => Some xs
  end.

(** [enumerate(xs)] *)
Definition enumerate {A} (xs : list A) : list (nat * A) := imap pair xs.

(** Tensor shapes of nested lists. *)
Definition shape2 {A} (n l : nat) (t : list (list A)) : Prop :=
  length t = n ∧ Forall (λ r, length r = l) t.
Definition shape3 {A} (n l d : nat) (t : list (list (list A))) : Prop :=
  length t = n ∧ Forall (shape2 l d) t.

(** Entry [(i, j)] of a matrix. *)
Definition entry {A} (t : list (list A)) (i j : nat) : option A :=
  t !! i ≫= λ r, r !! j.

(** Number of entries of [ls] equal to [v]. *)
Definition count_label (v : Qc) (ls : list Qc) : nat :=
  length (filter (λ x, x = v) ls).

(** Floating-point scalars: a finite value, or the NaN that [0/0] and the
    mean of an empty tensor produce.  NaN is absorbing. *)
Inductive scalar :=
| Num (q : Qc)
| NaN.

Definition scalar_add (a b : scalar) : scalar :=
  match a, b with
  | Num x, Num y => Num (x + y)
  | _, _ => NaN
  end.

Definition scalar_mul (a b : scalar) : scalar :=
  match a, b with
  | Num x, Num y => Num (x * y)
  | _, _ => NaN
  end.

(** A quotient with denominator zero is not a finite number. *)
Definition scalar_div (a b : scalar) : scalar :=
  match a, b with
  | Num x, Num y => if decide (y = 0) then NaN else Num (x / y)
  | _, _ => NaN
  end.

Definition sum_Qc (xs : list Qc) : Qc := foldr Qcplus 0 xs.
Definition sum_scalar (xs : list scalar) : scalar := foldr scalar_add (Num 0) xs.

Definition Qc_of_nat (n : nat) : Qc := Qc_of_Z (Z.of_nat n).

(** [x.mean()] of a flat tensor. *)
Definition tensor_mean (xs : list Qc) : scalar :=
  scalar_div (Num (sum_Qc xs)) (Num (Qc_of_nat (length xs))).

(** [zip] of two tensors that must agree on the zipped axis. *)
Definition zip_same {A B} (a : list A) (b : list B) : option (list (A * B)) :=
  if decide (length a = length b) then Some (zip a b) else None.

(** [x.long()]: truncation towards zero. *)
Definition to_long (q : Qc) : Z := (Qnum q `quot` Zpos (Qden q))%Z.

(** [F.cross_entropy(logits, targets, ignore_index=...)] with the default
    mean reduction: the mean of the per-row negative log-likelihoods over the
    rows whose target is not [ignore_index].  [nll row y] stands for
    [-log_softmax(row)[y]].  A row count different from the target count
    raises, and so does a target that is neither [ignore_index] nor one of
    the classes [0 .. C-1] of its row of [C] logits. *)
Section cross_entropy.
Variable nll : list Qc → Z → Qc.

Definition ce_kept (ignore_index : Z) (rows : list (list Qc * Z)) : list (list Qc * Z) :=
  filter (λ p, p.2 ≠ ignore_index) rows.

Definition ce_valid (ignore_index : Z) (rows : list (list Qc * Z)) : Prop :=
  Forall (λ p, p.2 = ignore_index ∨ (0 ≤ p.2 < Z.of_nat (length p.1))%Z) rows.

Definition cross_entropy (ignore_index : Z) (logits : list (list Qc))
    (targets : list Z) : option scalar :=
  rows ← zip_same logits targets;
  if decide (ce_valid ignore_index rows)
  then Some (tensor_mean (map (λ p, nll p.1 p.2) (ce_kept ignore_index rows)))
  else None.
End cross_entropy.

(** The phase of a call: [test] overrides, else the module's training flag. *)
Inductive phase := Train | Val | Test.

Definition phase_of (test training : bool) : phase :=
  if test then Test else if training then Train else Val.

(** ** Image-text matching (lines 142-178) *)

Module ITM.

(** [torch.cat([torch.ones(pos_len), torch.zeros(neg_len)])] with
    [pos_len = N // 2] and [neg_len = N - pos_len]. *)
Definition pos_len (n : nat) : nat := n `div` 2.
Definition neg_len (n : nat) : nat := n - pos_len n.

Definition itm_labels_ordered (n : nat) : list Qc :=
  replicate (pos_len n) 1 ++ replicate (neg_len n) 0.

(** [itm_labels[torch.randperm(itm_labels.size(0))]]: [perm] is the value
    drawn by [randperm]. *)
Definition itm_labels (n : nat) (perm : list nat) : option (list Qc) :=
  index_select (itm_labels_ordered n) perm.

(** [ceil(n/2)] *)
Definition ceil_half (n : nat) : nat := (n + 1) `div` 2.

(** What [torch.randperm n] can return. *)
Definition is_randperm (n : nat) (perm : list nat) : Prop :=
  perm ≡ₚ seq 0 n.

Section images.
Context {Image : Type}.

(** [ti if itm_labels[i] == 1 else fi] *)
Definition pick (labels : list Qc) (e : nat * (Image * Image)) : option Image :=
  l ← labels !! e.1;
  Some (if decide (l = 1) then e.2.1 else e.2.2).

(** One view: [torch.stack([... for i, (ti, fi) in enumerate(zip(bti, bfi))])] *)
Definition select_view (labels : list Qc) (bti bfi : list Image) : option (list Image) :=
  picked ← mapM (pick labels) (enumerate (zip bti bfi));
  torch_stack picked.

(** [[... for bti, bfi in zip(batch["image"], batch["false_image_0"])]] *)
Definition itm_images (labels : list Qc) (image false_image : list (list Image))
    : option (list (list Image)) :=
  mapM (λ v, select_view labels v.1 v.2) (zip image false_image).
End images.

(** *** The store: the batch is a dictionary object shared with the caller *)

Inductive obj {Image : Type} :=
| OTexts (ts : list string)
| OViews (vs : list (list Image))
| ODict (d : gmap string nat).
Arguments obj : clear implicits.

Section compute_itm.
Context {Image : Type}.

(** Computations on the store that may raise: the store is kept when they
    do, as the caller sees it afterwards. *)
Definition M (A : Type) : Type :=
  gmap nat (obj Image) → option A * gmap nat (obj Image).

Definition ret {A} (a : A) : M A := λ h, (Some a, h).
Definition bind {A B} (m : M A) (k : A → M B) : M B :=
  λ h, match m h with
       | (Some a, h') => k a h'
       | (None, h') => (None, h')
       end.
Definition lift {A} (o : option A) : M A := λ h, (o, h).

#[local] Instance M_bind : MBind M := λ A B k m, bind m k.

Definition alloc (o : obj Image) : M nat :=
  λ h, let l := fresh (dom h) in (Some l, <[l := o]> h).

Definition read (l : nat) : M (obj Image) := λ h, (h !! l, h).

(** A computation that only reads the store. *)
Definition readonly {A} (m : M A) : Prop := ∀ h, (m h).2 = h.

(** [d[k]] *)
Definition getitem (l : nat) (k : string) : M nat :=
  bind (read l) (λ o, match o with
                      | ODict d => lift (d !! k)
                      | _ => lift None
                      end).

(** [d[k] = v] *)
Definition setitem (l : nat) (k : string) (v : nat) : M unit :=
  bind (read l) (λ o, match o with
                      | ODict d => λ h, (Some (), <[l := ODict (<[k := v]> d)]> h)
                      | _ => lift None
                      end).

(** [{k: v for k, v in batch.items()}] *)
Definition copy_dict (l : nat) : M nat :=
  bind (read l) (λ o, match o with
                      | ODict d => alloc (ODict (list_to_map (map_to_list d)))
                      | _ => lift None
                      end).

Definition read_texts (l : nat) : M (list string) :=
  bind (read l) (λ o, match o with OTexts ts => ret ts | _ => lift None end).
Definition read_views (l : nat) : M (list (list Image)) :=
  bind (read l) (λ o, match o with OViews vs => ret vs | _ => lift None end).

Record itm_ret := {
  itm_loss : scalar;
  itm_logits : list (list Qc);
  itm_labels_out : list Qc
}.

(** Lines 143-159: the labels, the selected images and the batch that the
    encoder is given. *)
Definition itm_batch (perm : list nat) (batch : nat) : M (list Qc * nat) :=
  ltext ← getitem batch "text";
  texts ← read_texts ltext;
  labels ← lift (itm_labels (length texts) perm);
  limage ← getitem batch "image";
  image ← read_views limage;
  lfalse ← getitem batch "false_image_0";
  false_image ← read_views lfalse;
  images ← lift (itm_images labels image false_image);
  limages ← alloc (OViews images);
  batch' ← copy_dict batch;
  _ ← setitem batch' "image" limages;
  ret (labels, batch').

(** The collaborators: the encoder receives the batch object and may write to
    the store; the head and the log-likelihood are pure. *)
Variable infer : nat → bool → bool → M (gmap string (list (list Qc))).
Variable itm_head : list (list Qc) → list (list Qc).
Variable nll : list Qc → Z → Qc.

Definition compute_itm (perm : list nat) (batch : nat) : M itm_ret :=
  lb ← itm_batch perm batch;
  out ← infer lb.2 false false;
  feats ← lift (out !! "multi_modal_cls_feats");
  let logits := itm_head feats in
  loss ← lift (cross_entropy nll (-100) logits (to_long <$> lb.1));
  ret {| itm_loss := loss; itm_logits := logits; itm_labels_out := lb.1 |}.
End compute_itm.

(** An encoder for the examples: it marks the batch it receives and answers
    with fixed features. *)
Definition marking_infer {Image : Type} (b : nat) (mask_text mask_image : bool)
    : M (Image := Image) (gmap string (list (list Qc))) :=
  λ h, match h !! b with
       | Some (ODict d) =>
           (Some {["multi_modal_cls_feats" := [[1; 0]; [0; 1]]]},
            <[b := ODict (<["seen" := b]> d)]> h)
       | _ => (None, h)
       end.

(** A store with one batch of two examples, at location 3. *)
Definition sample_store : gmap nat (obj nat) :=
  <[3%nat := ODict (<["text" := 0%nat]> (<["image" := 1%nat]>
                    (<["false_image_0" := 2%nat]> ∅)))]>
  (<[2%nat := OViews [[20; 21]%nat]]>
  (<[1%nat := OViews [[10; 11]%nat]]>
  (<[0%nat := OTexts ["a chest x-ray"; "no acute findings"]]> ∅))).

(** The labels that the permutation [[2; 0; 1]] gives a batch of three, and
    logits for the three pairs. *)
Definition sample_labels : list Qc := [0; 1; 0].
Definition sample_logits : list (list Qc) := [[1; 0]; [0; 1]; [1; 0]].

End ITM.

(** ** Masked image modelling (lines 66-139) *)

Module MIM.

Definition sq_err (x y : Qc) : Qc := (x - y) ^ 2.

(** [((logits - labels) ** 2).mean(dim=-1)], patch by patch; the two
    tensors must have one shape. *)
Definition patch_loss (p : list Qc * list Qc) : option scalar :=
  es ← zip_same p.1 p.2;
  Some (tensor_mean (map (λ e, sq_err e.1 e.2) es)).

Definition row_loss (r : list (list Qc) * list (list Qc)) : option (list scalar) :=
  ps ← zip_same r.1 r.2;
  mapM patch_loss ps.

Definition per_patch_loss (logits labels : list (list (list Qc)))
    : option (list (list scalar)) :=
  rows ← zip_same logits labels;
  mapM row_loss rows.

(** [mim_loss * mask] *)
Definition mask_row (r : list scalar * list Qc) : option (list scalar) :=
  ps ← zip_same r.1 r.2;
  Some (map (λ e, scalar_mul e.1 (Num e.2)) ps).

Definition apply_mask (loss : list (list scalar)) (mask : list (list Qc))
    : option (list (list scalar)) :=
  rows ← zip_same loss mask;
  mapM mask_row rows.

(** Lines 85-87: [(mim_loss * mask).sum() / mask.sum()]. *)
Definition mim_loss (logits labels : list (list (list Qc))) (mask : list (list Qc))
    : option scalar :=
  per ← per_patch_loss logits labels;
  weighted ← apply_mask per mask;
  Some (scalar_div (sum_scalar (concat weighted)) (Num (sum_Qc (concat mask)))).

(** Lines 123-125 are the same three statements on the [umim] names. *)
Definition umim_loss (logits labels : list (list (list Qc))) (mask : list (list Qc))
    : option scalar :=
  per ← per_patch_loss logits labels;
  weighted ← apply_mask per mask;
  Some (scalar_div (sum_scalar (concat weighted)) (Num (sum_Qc (concat mask)))).

Record config := {
  mim_layer : Z;
  norm_pix_loss : bool
}.

Record infer_out {Feats Restore : Type} := {
  multi_modal_image_feats : Feats;
  multi_modal_image_feats_at : Z → option Feats;
  mim_ids_restore : Restore;
  patched_images : list (list (list Qc));
  mim_masks : list (list Qc)
}.
Arguments infer_out : clear implicits.

Record mim_ret := {
  mim_loss_out : scalar;
  mim_logits : list (list (list Qc));
  mim_labels : list (list (list Qc))
}.

Section compute.
Context {Batch Feats Restore : Type}.
(** [infer(batch, mask_text=, mask_image=, pseudo_vision=, pseudo_language=)];
    a flag that the call site leaves out is [None]. *)
Variable infer :
  Batch → option bool → option bool → option bool → option bool →
  infer_out Feats Restore.
Variable mim_head : Feats → Restore → list (list (list Qc)).
(** [(target - mean) / (var + 1.e-6) ** .5] on one patch: it takes a
    square root, so it stays a parameter. *)
Variable normalize_patch : list Qc → list Qc.

Definition select_feats (cfg : config) (out : infer_out Feats Restore) : option Feats :=
  if decide (mim_layer cfg = (-1)%Z) then Some (multi_modal_image_feats out)
  else multi_modal_image_feats_at out (mim_layer cfg).

Definition mim_target (cfg : config) (target : list (list (list Qc)))
    : list (list (list Qc)) :=
  if norm_pix_loss cfg then map (map normalize_patch) target else target.

Definition compute_mim (cfg : config) (batch : Batch) : option mim_ret :=
  let out := infer batch (Some false) (Some true) None None in
  feats ← select_feats cfg out;
  let logits := mim_head feats (mim_ids_restore out) in
  let labels := mim_target cfg (patched_images out) in
  loss ← mim_loss logits labels (mim_masks out);
  Some {| mim_loss_out := loss; mim_logits := logits; mim_labels := labels |}.

Definition compute_umim (cfg : config) (batch : Batch) : option mim_ret :=
  let out := infer batch (Some false) (Some true) None (Some true) in
  feats ← select_feats cfg out;
  let logits := mim_head feats (mim_ids_restore out) in
  let labels := mim_target cfg (patched_images out) in
  loss ← umim_loss logits labels (mim_masks out);
  Some {| mim_loss_out := loss; mim_logits := logits; mim_labels := labels |}.
End compute.

(** The loss as the specification words it: the per-patch mean squared
    errors of the removed patches (mask 1), averaged. *)
Definition removed_losses (per : list (list scalar)) (mask : list (list Qc)) : list scalar :=
  (filter (λ e, e.2 = 1) (zip (concat per) (concat mask))).*1.

Definition mean_scalar (xs : list scalar) : scalar :=
  scalar_div (sum_scalar xs) (Num (Qc_of_nat (length xs))).

Definition masked_mse (logits labels : list (list (list Qc))) (mask : list (list Qc))
    : option scalar :=
  per ← per_patch_loss logits labels;
  _ ← apply_mask per mask;
  Some (mean_scalar (removed_losses per mask)).

Definition binary_mask (mask : list (list Qc)) : Prop :=
  Forall (Forall (λ m, m = 0 ∨ m = 1)) mask.

(** The mean squared error of one patch over its features. *)
Definition patch_mse (a b : list Qc) : Qc :=
  sum_Qc (map (λ e, sq_err e.1 e.2) (zip a b)) / Qc_of_nat (length (zip a b)).

(** The matrix of these errors, one entry per patch. *)
Definition patch_mses (logits labels : list (list (list Qc))) : list (list Qc) :=
  (λ r, (λ p, patch_mse p.1 p.2) <$> zip r.1 r.2) <$> zip logits labels.

(** The values of [q] at the removed positions of a flat mask. *)
Definition selected (q m : list Qc) : list Qc :=
  (filter (λ e, e.2 = 1) (zip q m)).*1.

(** The mean of a matrix over the positions that the mask removes. *)
Definition masked_mean (qs mask : list (list Qc)) : Qc :=
  sum_Qc (selected (concat qs) (concat mask))
  / Qc_of_nat (length (selected (concat qs) (concat mask))).

(** Two tensors agree on the patches that the mask removes. *)
Definition agree_on_removed {A} (mask : list (list Qc)) (a b : list (list A)) : Prop :=
  ∀ i j, entry mask i j = Some 1 → entry a i j = entry b i j.

End MIM.

(** ** Image-text contrastive (lines 181-206) *)

Module ITC.

Record itc_ret := {
  itc_loss : scalar;
  itc_logits_image : list (list Qc);
  itc_logits_text : list (list Qc);
  itc_labels : list Z
}.

(** [torch.arange(n)] *)
Definition arange (n : nat) : list Z := Z.of_nat <$> seq 0 n.

Section compute.
Context {Batch Feats : Type}.
(** [infer(batch, ...)["multi_modal_cls_feats"]] *)
Variable infer_cls :
  Batch → option bool → option bool → option bool → option bool → option Feats.
Variable itc_head : Feats → Feats → list (list Qc) * list (list Qc).
Variable nll : list Qc → Z → Qc.

Definition compute_itc (batch : Batch) : option itc_ret :=
  image_feats ← infer_cls batch None None None (Some true);
  text_feats ← infer_cls batch None None (Some true) None;
  let logits := itc_head image_feats text_feats in
  let labels := arange (length logits.1) in
  loss_image ← cross_entropy nll (-100) logits.1 labels;
  loss_text ← cross_entropy nll (-100) logits.2 labels;
  let loss := scalar_div (scalar_add loss_image loss_text) (Num 2) in
  Some {| itc_loss := loss; itc_logits_image := logits.1;
          itc_logits_text := logits.2; itc_labels := labels |}.
End compute.

(** Collaborators for the examples: features that depend on the pseudo
    flags only, a head that passes them through, and a log-likelihood that
    reads the target's logit. *)
Definition sample_infer_cls (batch : unit) (mask_text mask_image pseudo_vision
    pseudo_language : option bool) : option (list (list Qc)) :=
  match pseudo_vision with
  | Some true => Some [[1; 1]; [0; 0]]
  | _ => Some [[1; 0]; [0; 1]]
  end.
Definition sample_head (image_feats text_feats : list (list Qc))
    : list (list Qc) * list (list Qc) :=
  (image_feats, text_feats).
Definition sample_nll (row : list Qc) (y : Z) : Qc :=
  1 - default 0 (row !! Z.to_nat y).

End ITC.

(** ** Visual question answering (lines 209-243) *)

Module VQA.

(** A Python index into an axis of [size] entries: negative indices count
    from the end, anything else out of range raises. *)
Definition norm_index (size : nat) (l : Z) : option nat :=
  if decide (0 ≤ l < Z.of_nat size)%Z then Some (Z.to_nat l)
  else if decide (- Z.of_nat size ≤ l < 0)%Z then Some (Z.to_nat (l + Z.of_nat size))
  else None.

(** [vqa_targets[i, l] = s] *)
Definition assign (t : list (list Qc)) (i : nat) (l : Z) (s : Qc)
    : option (list (list Qc)) :=
  row ← t !! i;
  c ← norm_index (length row) l;
  Some (<[i := <[c := s]> row]> t).

(** [for l, s in zip(_label, _score): ...] *)
Fixpoint scatter_pairs (t : list (list Qc)) (i : nat) (pairs : list (Z * Qc))
    : option (list (list Qc)) :=
  match pairs with
  | [] => Some t
  | (l, s) :: rest => t' ← assign t i l s; scatter_pairs t' i rest
  end.

(** [for i, (_label, _score) in enumerate(zip(vqa_labels, vqa_scores)): ...] *)
Fixpoint scatter_from (t : list (list Qc)) (i : nat)
    (examples : list (list Z * list Qc)) : option (list (list Qc)) :=
  match examples with
  | [] => Some t
  | (ls, ss) :: rest =>
      t' ← scatter_pairs t i (zip ls ss); scatter_from t' (S i) rest
  end.

Definition zeros (rows cols : nat) : list (list Qc) := replicate rows (replicate cols 0).

Definition vqa_targets (rows label_size : nat) (vqa_labels : list (list Z))
    (vqa_scores : list (list Qc)) : option (list (list Qc)) :=
  scatter_from (zeros rows label_size) 0 (zip vqa_labels vqa_scores).

Record vqa_batch {Payload : Type} := {
  payload : Payload;
  vqa_labels : list (list Z);
  vqa_scores : list (list Qc);
  answer_types : list Z
}.
Arguments vqa_batch : clear implicits.

Record vqa_ret := {
  vqa_loss : scalar;
  vqa_logits : list (list Qc);
  vqa_targets_out : list (list Qc);
  vqa_labels_out : list (list Z);
  vqa_scores_out : list (list Qc);
  vqa_answer_types : list Z
}.

Section compute.
Context {Payload Feats : Type}.
Variable infer_cls :
  vqa_batch Payload → option bool → option bool → option bool → option bool →
  option Feats.
Variable vqa_head : Feats → list (list Qc).
(** [F.binary_cross_entropy_with_logits]; it raises on a shape mismatch. *)
Variable bce_with_logits : list (list Qc) → list (list Qc) → option scalar.

Definition compute_vqa (label_size : nat) (batch : vqa_batch Payload) : option vqa_ret :=
  feats ← infer_cls batch (Some false) (Some false) None None;
  let logits := vqa_head feats in
  targets ← vqa_targets (length logits) label_size (vqa_labels batch) (vqa_scores batch);
  bce ← bce_with_logits logits targets;
  let loss := scalar_mul bce (Num (Qc_of_nat label_size)) in
  Some {| vqa_loss := loss; vqa_logits := logits; vqa_targets_out := targets;
          vqa_labels_out := vqa_labels batch; vqa_scores_out := vqa_scores batch;
          vqa_answer_types := answer_types batch |}.
End compute.

(** The score of the last pair of [pairs] that addresses column [c] of a
    row of [size] entries. *)
Definition last_score (size c : nat) (pairs : list (Z * Qc)) : option Qc :=
  last (filter (λ p, norm_index size p.1 = Some c) pairs).*2.

(** The pairs of example [i]. *)
Definition example_pairs (vqa_labels : list (list Z)) (vqa_scores : list (list Qc))
    (i : nat) : list (Z * Qc) :=
  match zip vqa_labels vqa_scores !! i with
  | Some (ls, ss) => zip ls ss
  | None => []
  end.

(** One example whose first two pairs address cell 0 and whose third pair
    addresses the last cell through a negative index. *)
Definition sample_labels : list (list Z) := [[0; 0; -1]%Z].
Definition sample_scores : list (list Qc) := [[1; Q2Qc (1 # 2); 1]].

(** The additive reading: the sum of the scores of these pairs. *)
Definition summed_score (size c : nat) (pairs : list (Z * Qc)) : Qc :=
  sum_Qc (filter (λ p, norm_index size p.1 = Some c) pairs).*2.

End VQA.

(** ** Conditional language modelling (lines 308-386) *)

Module CLM.

(** [x[:-1]] along one axis *)
Definition drop_last {A} (l : list A) : list A := take (length l - 1) l.

(** [clm_logits[:, :-1, :]] and [input_ids[:, 1:]] *)
Definition shift_logits (logits : list (list (list Qc))) : list (list (list Qc)) :=
  drop_last <$> logits.
Definition shift_labels (input_ids : list (list Z)) : list (list Z) :=
  drop 1 <$> input_ids.

(** Lines 336-338: both tensors are flattened over batch and position;
    [view(-1, clm_logits.size(-1))] needs a last axis that is not empty. *)
Definition clm_loss_of (nll : list Qc → Z → Qc) (pad_token_id : Z)
    (clm_logits : list (list (list Qc))) (clm_labels : list (list Z)) : option scalar :=
  let rows := concat clm_logits in
  if decide (Forall (λ row, 0 < length row)%nat rows)
  then cross_entropy nll pad_token_id rows (concat clm_labels)
  else None.

Definition fallback : string := "there is no evidence of pulmonary.".

(** Line 369: [text if len(text) > 0 else "..."] *)
Definition fix_empty (text : string) : string :=
  if decide (0 < String.length text)%nat then text else fallback.

(** Lines 355-358: [arange(bs).view(-1, 1).repeat(1, num_beams).view(-1)] *)
Definition expanded_idx (bs num_beams : nat) : list nat :=
  concat ((λ b, replicate num_beams b) <$> seq 0 bs).

(** All vectors of a list have the width of the first one. *)
Definition same_width {A} (vs : list (list A)) : Prop :=
  Forall (λ v, length v = length (default [] (head vs))) vs.

(** [torch.cat([a, b], dim=1)] on tensors of three axes: the batch axes must
    agree, and so must the feature axes; the token axes are joined. *)
Definition cat_dim1 {A} (a b : list (list (list A))) : option (list (list (list A))) :=
  rows ← zip_same a b;
  if decide (same_width (concat (a ++ b)))
  then Some (map (λ r, r.1 ++ r.2) rows)
  else None.

Record config := {
  language_only : bool;
  vision_only : bool;
  clm_max_text_len : nat;
  clm_num_beams : nat;
  clm_do_sample : bool
}.

Record clm_batch {Payload : Type} := {
  payload : Payload;
  findings : option (list string);
  impression : option (list string)
}.
Arguments clm_batch : clear implicits.

Record infer_out := {
  multi_modal_image_feats : list (list (list Qc));
  multi_modal_text_feats : list (list (list Qc))
}.

Record tokenized := {
  input_ids : list (list Z);
  attention_mask : list (list Z)
}.

Record clm_ret := {
  clm_loss : scalar;
  clm_logits : list (list (list Qc));
  clm_labels : list (list Z);
  gen_texts : option (list string);
  gt_texts : option (list string)
}.

Section compute.
Context {Payload : Type}.
(** [str.lower] *)
Variable lower : string → string.
Variable infer :
  clm_batch Payload → option bool → option bool → option bool → option bool →
  infer_out.
Variable clm_proj : list (list (list Qc)) → list (list (list Qc)).
(** The tokenizer with [truncation], [padding] and a maximal length. *)
Variable clm_tokenizer : list string → nat → tokenized.
Variable pad_token_id cls_token_id : Z.
Variable clm_head : list (list Z) → list (list Z) → list (list (list Qc)) →
  list (list (list Qc)).
(** [clm_head.generate(input_ids, encoder_hidden_states, max_length,
    do_sample, num_beams)] *)
Variable generate : list (list Z) → list (list (list Qc)) → nat → bool → nat →
  list (list Z).
(** [clm_tokenizer.batch_decode(..., skip_special_tokens=True)] *)
Variable batch_decode : list (list Z) → list string.
Variable nll : list Qc → Z → Qc.

(** Lines 350-369. *)
Definition generate_texts (cfg : config) (encoder_hidden_states : list (list (list Qc)))
    : option (list string) :=
  let bs := length encoder_hidden_states in
  let ids := replicate bs [cls_token_id] in
  expanded ← index_select encoder_hidden_states (expanded_idx (length ids) (clm_num_beams cfg));
  let gen := generate ids expanded (clm_max_text_len cfg) (clm_do_sample cfg)
                      (clm_num_beams cfg) in
  Some (fix_empty <$> batch_decode gen).

Definition compute_clm (cfg : config) (training test : bool)
    (batch : clm_batch Payload) : option clm_ret :=
  let ph := phase_of test training in
  let out := infer batch None None (Some (language_only cfg)) (Some (vision_only cfg)) in
  enc ← cat_dim1 (multi_modal_image_feats out) (multi_modal_text_feats out);
  let encoder_hidden_states := clm_proj enc in
  texts ← (if vision_only cfg then findings batch else impression batch);
  let texts := lower <$> texts in
  let texts_inputs := clm_tokenizer texts (clm_max_text_len cfg) in
  let logits := clm_head (input_ids texts_inputs) (attention_mask texts_inputs)
                         encoder_hidden_states in
  let logits := shift_logits logits in
  let labels := shift_labels (input_ids texts_inputs) in
  loss ← clm_loss_of nll pad_token_id logits labels;
  match ph with
  | Train =>
      Some {| clm_loss := loss; clm_logits := logits; clm_labels := labels;
              gen_texts := None; gt_texts := None |}
  | _ =>
      gen ← generate_texts cfg encoder_hidden_states;
      Some {| clm_loss := loss; clm_logits := logits; clm_labels := labels;
              gen_texts := Some gen; gt_texts := Some texts |}
  end.
End compute.

(** The pairs the loss is meant to run over: for every sequence [b] and
    every position [t] with [t + 1 < L], the logits at [t] with the input id
    at [t + 1], unless that id is the padding id. *)
Definition shifted_pairs_of (logits : list (list Qc)) (ids : list Z)
    : list (list Qc * Z) :=
  omap (λ t, row ← logits !! t; y ← ids !! S t; Some (row, y)) (seq 0 (length ids - 1)).

Definition shifted_pairs (logits : list (list (list Qc))) (ids : list (list Z))
    : list (list Qc * Z) :=
  concat ((λ r, shifted_pairs_of r.1 r.2) <$> zip logits ids).

(** Every input id that serves as a label, at a position from 1 on, is the
    padding id or a class of the logits one position before it. *)
Definition labels_in_vocab (pad_token_id : Z) (logits : list (list (list Qc)))
    (ids : list (list Z)) : Prop :=
  ∀ b t lg id row y,
    logits !! b = Some lg → ids !! b = Some id →
    lg !! t = Some row → id !! S t = Some y →
    y = pad_token_id ∨ (0 ≤ y < Z.of_nat (length row))%Z.

(** [str.lower] on the ASCII letters, for the examples. *)
Definition lower_ascii (c : ascii) : ascii :=
  let n := nat_of_ascii c in
  if decide (65 ≤ n ≤ 90)%nat then ascii_of_nat (n + 32) else c.

Fixpoint sample_lower (s : string) : string :=
  match s with
  | EmptyString => EmptyString
  | String c r => String (lower_ascii c) (sample_lower r)
  end.

(** One sequence of three tokens over a vocabulary of three, ending in the
    padding id 0, with the decoder logits of its three positions. *)
Definition sample_ids : list (list Z) := [[1; 2; 0]%Z].
Definition sample_logits : list (list (list Qc)) :=
  [[[1; 0; 0]; [0; 1; 0]; [0; 0; 1]]].

(** Collaborators for the examples: one report, fixed encoder features, a
    tokenizer and a decoder head that answer with the sample above, and a
    generator whose first beam result decodes to the empty string. *)
Definition sample_cfg : config :=
  {| language_only := false; vision_only := false; clm_max_text_len := 8;
     clm_num_beams := 2; clm_do_sample := false |}.
Definition sample_batch : clm_batch unit :=
  {| payload := (); findings := None; impression := Some ["No Acute Findings"] |}.
Definition sample_infer (batch : clm_batch unit)
    (mask_text mask_image pseudo_vision pseudo_language : option bool) : infer_out :=
  {| multi_modal_image_feats := [[[1]]]; multi_modal_text_feats := [[[0]]] |}.
Definition sample_tokenizer (texts : list string) (max_length : nat) : tokenized :=
  {| input_ids := sample_ids; attention_mask := [[1; 1; 0]%Z] |}.
Definition sample_clm_head (ids mask : list (list Z))
    (encoder_hidden_states : list (list (list Qc))) : list (list (list Qc)) :=
  sample_logits.
Definition sample_generate (ids : list (list Z))
    (encoder_hidden_states : list (list (list Qc))) (max_length : nat)
    (do_sample : bool) (num_beams : nat) : list (list Z) :=
  [[]; [1; 2]%Z].
Definition sample_decode (gen : list (list Z)) : list string :=
  (λ g, match g with [] => "" | _ => "heart size is normal." end) <$> gen.

End CLM.

(** ** Image-text retrieval: training loss (lines 389-426) *)

Module IRTR.

Inductive value {Image : Type} :=
| VViews (views : list (list Image))
| VTokens (t : list (list Z)).
Arguments value : clear implicits.

(** [f"false_text_{i}_ids"] and its siblings *)
Definition false_key (i : nat) (field : string) : string :=
  "false_text_" +:+ pretty i +:+ "_" +:+ field.

Definition same_shape (a b : list (list Z)) : bool :=
  bool_decide (length <$> a = length <$> b).

(** [torch.stack(ts, dim=1)]: at least one tensor, all of one shape;
    entry [b] of the result lists entry [b] of every tensor. *)
Definition stack_dim1 (ts : list (list (list Z))) : option (list (list (list Z))) :=
  match ts with
  | [] => None
  | t0 :: rest =>
      if forallb (same_shape t0) rest
      then mapM (λ b, mapM (λ t : list (list Z), t !! b) ts) (seq 0 (length t0))
      else None
  end.

(** [torch.cat([x.unsqueeze(1), ys], dim=1)]: batch and token axes agree. *)
Definition cat_first (x : list (list Z)) (ys : list (list (list Z)))
    : option (list (list (list Z))) :=
  rows ← zip_same x ys;
  if forallb (λ r : list Z * list (list Z),
                forallb (λ c, bool_decide (length c = length r.1)) r.2) rows
  then Some (map (λ r, r.1 :: r.2) rows)
  else None.

(** [rearrange(score, "(bs fs) -> bs fs", bs=, fs=)] *)
Definition unflatten {A} (bs fs : nat) (l : list A) : option (list (list A)) :=
  if decide (length l = bs * fs)%nat
  then Some ((λ b, take fs (drop (b * fs)%nat l)) <$> seq 0 bs)
  else None.

Record batch_infer {Image : Type} := {
  image : list (list Image);
  text_ids : list (list Z);
  text_masks : list (list Z);
  text_labels : list (list Z)
}.
Arguments batch_infer : clear implicits.

Section compute.
Context {Image Feats : Type}.

Definition get_tokens (batch : gmap string (value Image)) (k : string)
    : option (list (list Z)) :=
  match batch !! k with
  | Some (VTokens t) => Some t
  | _ => None
  end.

Definition get_views (batch : gmap string (value Image)) (k : string)
    : option (list (list Image)) :=
  match batch !! k with
  | Some (VViews v) => Some v
  | _ => None
  end.

(** Lines 393-399 for one of the fields [ids], [masks], [labels]. *)
Definition candidates (batch : gmap string (value Image)) (false_len : nat)
    (field : string) : option (list (list (list Z))) :=
  falses ← mapM (λ i, get_tokens batch (false_key i field)) (seq 0 false_len);
  stacked ← stack_dim1 falses;
  true_field ← get_tokens batch ("text_" +:+ field);
  cat_first true_field stacked.

(** Line 400: [batch["image"][0].unsqueeze(1).expand(_bs, false_len + 1, ...)] *)
Definition expand_images (image0 : list Image) (false_len : nat) : list (list Image) :=
  (λ im, replicate (false_len + 1) im) <$> image0.

(** Lines 391-407. *)
Definition make_batch_infer (batch : gmap string (value Image)) (false_len : nat)
    : option (nat * batch_infer Image) :=
  views ← get_views batch "image";
  image0 ← views !! 0%nat;
  let bs := length image0 in
  ids ← candidates batch false_len "ids";
  masks ← candidates batch false_len "masks";
  labels ← candidates batch false_len "labels";
  let images := expand_images image0 false_len in
  Some (bs, {| image := [concat images]; text_ids := concat ids;
               text_masks := concat masks; text_labels := concat labels |}).

(** Line 413: [torch.zeros(_bs).long()] *)
Definition answer (bs : nat) : list Z := replicate bs 0%Z.

Variable infer_cls : batch_infer Image → option Feats.
Variable irtr_head : Feats → list (list Qc).
Variable nll : list Qc → Z → Qc.

Definition compute_irtr (batch : gmap string (value Image)) (false_len : nat)
    : option scalar :=
  bi ← make_batch_infer batch false_len;
  feats ← infer_cls bi.2;
  score ← mapM (λ row : list Qc, row !! 0%nat) (irtr_head feats);
  score ← unflatten bi.1 (false_len + 1) score;
  cross_entropy nll (-100) score (answer bi.1).
End compute.

(** The true entry comes first: in a flattened candidate tensor with
    [false_len + 1] candidates per anchor, anchor [b] starts with its true
    entry and continues with entry [b] of the negatives 0, 1, ... *)
Definition true_first (flat : list (list Z)) (false_len : nat)
    (true_field : list (list Z)) (false_field : nat → list (list Z)) : Prop :=
  ∀ b x, true_field !! b = Some x →
    flat !! (b * (false_len + 1))%nat = Some x ∧
    ∀ j, (j < false_len)%nat →
      flat !! (b * (false_len + 1) + S j)%nat = false_field j !! b.

(** A batch of two anchors with two negative captions each. *)
Definition sample_tokens (base : Z) : value nat :=
  VTokens [[base; base + 1]%Z; [base + 2; base + 3]%Z].

Definition sample_batch : gmap string (value nat) :=
  <["image" := VViews [[7; 8]%nat]]>
  (<["text_ids" := sample_tokens 10]>
  (<["text_masks" := sample_tokens 20]>
  (<["text_labels" := sample_tokens 30]>
  (<["false_text_0_ids" := sample_tokens 110]>
  (<["false_text_0_masks" := sample_tokens 120]>
  (<["false_text_0_labels" := sample_tokens 130]>
  (<["false_text_1_ids" := sample_tokens 210]>
  (<["false_text_1_masks" := sample_tokens 220]>
  (<["false_text_1_labels" := sample_tokens 230]> ∅))))))))).

Definition sample_true (field : string) : list (list Z) :=
  default [] (get_tokens sample_batch ("text_" +:+ field)).
Definition sample_false (j : nat) (field : string) : list (list Z) :=
  default [] (get_tokens sample_batch (false_key j field)).

(** Collaborators for the examples: the features are the candidate token
    rows, and the head scores a candidate by its first token. *)
Definition sample_infer_cls (bi : batch_infer nat) : option (list (list Z)) :=
  Some (text_ids bi).
Definition sample_irtr_head (feats : list (list Z)) : list (list Qc) :=
  (λ t : list Z, [Qc_of_Z (default 0%Z (t !! 0%nat))]) <$> feats.

End IRTR.

(** ** Retrieval recall (lines 506-533)

    The inputs are the values the prefetch and rank loops leave behind:
    [tiids], the source-image index of every text, and the gathered
    per-process lists [gather_rank_scores] and [gather_rank_iids]. *)

Module Recall.

(** [torch.tensor(nested)] accepts rectangular nestings only. *)
Definition rectangular {A} (t : list (list A)) : bool :=
  match t with
  | [] => true
  | r :: rest => forallb (λ r', bool_decide (length r' = length r)) rest
  end.

(** [torch.tensor(gather_rank_iids).view(-1)] *)
Definition make_iids (gather_rank_iids : list (list Z)) : option (list Z) :=
  if rectangular gather_rank_iids then Some (concat gather_rank_iids) else None.

(** [torch.tensor(gather_rank_scores).view(n, -1)]: the entries in row-major
    order, cut into [n] rows; [n] must be positive and divide their number. *)
Definition make_scores (gather_rank_scores : list (list (list Qc))) (n : nat)
    : option (list (list Qc)) :=
  if rectangular gather_rank_scores
     && forallb rectangular gather_rank_scores
     && rectangular (concat gather_rank_scores)
  then
    let flat := concat (concat gather_rank_scores) in
    if decide (n ≠ 0 ∧ length flat `mod` n = 0)%nat
    then Some ((λ r, take (length flat `div` n) (drop (r * (length flat `div` n))%nat flat))
                 <$> seq 0 n)
    else None
  else None.

(** What [x.topk(k).indices] promises for a vector [x]: [k] distinct
    positions of [x], and no position left out scores higher than one that
    is returned.  Which of several equal scores are returned is left open. *)
Definition is_topk (k : nat) (x : list Qc) (idx : list nat) : Prop :=
  length idx = k ∧ NoDup idx ∧
  (∀ j, j ∈ idx → (j < length x)%nat) ∧
  (∀ j j' v v', j ∈ idx → j' ∉ idx → x !! j = Some v → x !! j' = Some v' → v' ≤ v).

(** [topk] returns such positions, and raises when [k] is beyond the length
    of the vector. *)
Definition topk_contract (topk : nat → list Qc → option (list nat)) : Prop :=
  ∀ k x, if decide (k ≤ length x)%nat
         then ∃ idx, topk k x = Some idx ∧ is_topk k x idx
         else topk k x = None.

(** The columns of a matrix with [cols] columns. *)
Definition transpose {A} (cols : nat) (m : list (list A)) : list (list A) :=
  (λ j, omap (λ row : list A, row !! j) m) <$> seq 0 cols.

Definition Qc_max (a b : Qc) : Qc := if decide (a ≤ b) then b else a.

(** [x.max(dim)[0]] along an axis, which must not be empty. *)
Definition max_of (xs : list Qc) : option Qc :=
  match xs with
  | [] => None
  | x :: rest => Some (foldr Qc_max x rest)
  end.

(** [(a == b).float()] entrywise, [a] broadcast over the list [bs]. *)
Definition eq_float (a : Z) (bs : list Z) : list Qc :=
  (λ b, if decide (a = b) then 1 else 0) <$> bs.

Section recall.
(** [x.topk(k).indices] along one row or column [x] of the score matrix.
    The choice among equal scores is torch's, so [topk] is a parameter; each
    of the six calls of lines 511-524 makes its own choice. *)
Variable topk : nat → list Qc → option (list nat).

(** One query: the ids of its [k] best candidates are compared with its
    own id, and the maximum of the comparison is its hit. *)
Definition hit (k : nat) (ids : list Z) (q : Z * list Qc) : option Qc :=
  idx ← topk k q.2;
  best ← index_select ids idx;
  max_of (eq_float q.1 best).

(** Lines 511-520 for one [k]: queries are the image rows, candidates the
    texts. *)
Definition tr_recall (k : nat) (iids tiids : list Z) (scores : list (list Qc))
    : option scalar :=
  rows ← zip_same iids scores;
  hits ← mapM (hit k tiids) rows;
  Some (tensor_mean hits).

(** Lines 522-531 for one [k]: queries are the text columns, candidates the
    images; the comparison needs one column per text. *)
Definition ir_recall (k : nat) (iids tiids : list Z) (scores : list (list Qc))
    : option scalar :=
  row0 ← scores !! 0%nat;
  cols ← zip_same tiids (transpose (length row0) scores);
  hits ← mapM (hit k iids) cols;
  Some (tensor_mean hits).

Definition compute_irtr_recall (tiids : list Z)
    (gather_rank_scores : list (list (list Qc))) (gather_rank_iids : list (list Z))
    : option (scalar * scalar * scalar * scalar * scalar * scalar) :=
  iids ← make_iids gather_rank_iids;
  scores ← make_scores gather_rank_scores (length iids);
  tr_r10 ← tr_recall 10 iids tiids scores;
  tr_r5 ← tr_recall 5 iids tiids scores;
  tr_r1 ← tr_recall 1 iids tiids scores;
  ir_r10 ← ir_recall 10 iids tiids scores;
  ir_r5 ← ir_recall 5 iids tiids scores;
  ir_r1 ← ir_recall 1 iids tiids scores;
  Some (ir_r1, ir_r5, ir_r10, tr_r1, tr_r5, tr_r10).

(** Recall as the specification words it: the fraction of the queries that
    have, among the [k] candidates [topk] returns for them, one whose id is
    the query's. *)
Definition found (k : nat) (ids : list Z) (q : Z * list Qc) : Prop :=
  match topk k q.2 with
  | Some idx => Exists (λ j, ids !! j = Some q.1) idx
  | None => False
  end.

#[global] Instance found_dec k ids q : Decision (found k ids q).
Proof. unfold found. destruct (topk k q.2); apply _. Defined.

Definition fraction (hits total : nat) : scalar :=
  scalar_div (Num (Qc_of_nat hits)) (Num (Qc_of_nat total)).

Definition recall_of (k : nat) (ids : list Z) (queries : list (Z * list Qc)) : scalar :=
  fraction (length (filter (found k ids) queries)) (length queries).
End recall.

(** A query whose best candidate is a match: some candidate carries the
    query's id and scores strictly higher than every other candidate. *)
Definition strict_best (ids : list Z) (q : Z * list Qc) : Prop :=
  ∃ j v, q.2 !! j = Some v ∧ ids !! j = Some q.1 ∧
         ∀ j' v', j' ≠ j → q.2 !! j' = Some v' → v' < v.

(** One [topk] for the examples: a higher score first, and among equal
    scores the smaller index first. *)
Definition before (a b : nat * Qc) : Prop :=
  b.2 < a.2 ∨ (a.2 = b.2 ∧ (a.1 ≤ b.1)%nat).

#[global] Instance before_dec : RelDecision before.
Proof. intros a b. unfold before. apply _. Defined.

Definition sorted_topk (k : nat) (x : list Qc) : option (list nat) :=
  if decide (k ≤ length x)%nat
  then Some (take k (merge_sort before (enumerate x)).*1)
  else None.

(** A second one: among equal scores the larger index first. *)
Definition before_last (a b : nat * Qc) : Prop :=
  b.2 < a.2 ∨ (a.2 = b.2 ∧ (b.1 ≤ a.1)%nat).

#[global] Instance before_last_dec : RelDecision before_last.
Proof. intros a b. unfold before_last. apply _. Defined.

Definition last_topk (k : nat) (x : list Qc) : option (list nat) :=
  if decide (k ≤ length x)%nat
  then Some (take k (merge_sort before_last (enumerate x)).*1)
  else None.

(** A third one, which settles equal scores one way for [k = 1] and the
    other way for every other [k]. *)
Definition mixed_topk (k : nat) (x : list Qc) : option (list nat) :=
  if decide (k = 1)%nat then sorted_topk k x else last_topk k x.

(** A corpus of ten images with one caption each, gathered from two
    processes; image [i] scores 1 with its own caption and 0 with the others. *)
Definition sample_scores_row (i : nat) : list Qc :=
  (λ j, if decide (i = j) then 1 else 0) <$> seq 0 10.
Definition sample_gather_scores : list (list (list Qc)) :=
  [sample_scores_row <$> seq 0 5; sample_scores_row <$> seq 5 5].
Definition sample_gather_iids : list (list Z) :=
  [[100; 101; 102; 103; 104]%Z; [105; 106; 107; 108; 109]%Z].
Definition sample_tiids : list Z :=
  [100; 101; 102; 103; 104; 105; 106; 107; 108; 109]%Z.

(** The same corpus gathered from one process, with scores that differ
    within every row and every column: image [i] scores 200 with its own
    caption and [10 * i + j] with caption [j]. *)
Definition distinct_scores_row (i : nat) : list Qc :=
  (λ j, Qc_of_nat (if decide (i = j) then 200 else 10 * i + j)) <$> seq 0 10.
Definition distinct_scores : list (list Qc) := distinct_scores_row <$> seq 0 10.

(** Scores with ties.  Each of the first five images scores its own caption
    and the last five captions alike; each of the last five images scores
    its own caption above all others. *)
Definition tied_scores_row (i : nat) : list Qc :=
  (λ j, if decide (i = j) then (if decide (i < 5)%nat then 1 else 1 + 1)
        else if decide (i < 5 ∧ 5 ≤ j)%nat then 1 else 0) <$> seq 0 10.
Definition tied_scores : list (list Qc) := tied_scores_row <$> seq 0 10.

(** The sample scores with one tie: image 0 scores caption 1 as high as its
    own. *)
Definition pair_tie_scores : list (list Qc) :=
  (λ i, (λ j, if decide (i = j ∨ (i = 0 ∧ j = 1))%nat then 1 else 0) <$> seq 0 10)
    <$> seq 0 10.

End Recall.

(** ** Retrieval recall: the prefetch and rank loops (lines 453-500) *)

Module Rank.

(** One entry of [text_preload]. *)
Record text_batch := {
  text_ids : list (list Z);
  text_masks : list (list Z);
  text_labels : list (list Z);
  img_index : list Z
}.

(** Lines 466-468: [tiids += pre["img_index"]] over the prefetched batches. *)
Definition collect_tiids (text_preload : list text_batch) : list Z :=
  foldl (λ tiids pre, tiids ++ img_index pre) [] text_preload.

(** [torch.cat] refuses an empty list of tensors. *)
Definition torch_cat {A} (xs : list (list A)) : option (list A) :=
  match xs with
  | [] => None
  | _ => Some (concat xs)
  end.

Section rank_loop.
Context {Image Feats : Type}.

(** [infer(batch_infer, img=im)["multi_modal_cls_feats"]], for the three
    token tensors of a text batch and the repeated image. *)
Variable infer_img :
  list (list Z) * list (list Z) * list (list Z) → list Image → option Feats.
Variable irtr_head : Feats → list (list Qc).

(** Lines 483-493: the scores of one image with the texts of one batch. *)
Definition batch_score (im : Image) (txt_batch : text_batch) : option (list Qc) :=
  let fblen := length (text_ids txt_batch) in
  let ims := replicate fblen im in
  feats ← infer_img (text_ids txt_batch, text_masks txt_batch,
                     text_labels txt_batch) ims;
  mapM (λ row : list Qc, row !! 0%nat) (irtr_head feats).

(** Lines 481-498: the scores of one image with every text. *)
Definition image_scores (text_preload : list text_batch) (im : Image)
    : option (list Qc) :=
  img_batch_score ← mapM (batch_score im) text_preload;
  torch_cat img_batch_score.

(** Lines 475-500: one row of scores and one id for every local image. *)
Definition rank_loop (image_preload : list (Image * Z))
    (text_preload : list text_batch) : option (list (list Qc) * list Z) :=
  rank_scores ← mapM (λ img_batch : Image * Z,
                        image_scores text_preload img_batch.1) image_preload;
  Some (rank_scores, image_preload.*2).
End rank_loop.

(** Ten images with one caption each; the captions come in two prefetched
    batches of five. *)
Definition sample_text_batch (start : nat) : text_batch :=
  {| text_ids := (λ i : nat, [Z.of_nat i]) <$> seq start 5;
     text_masks := (λ _ : nat, [1%Z]) <$> seq start 5;
     text_labels := (λ _ : nat, [0%Z]) <$> seq start 5;
     img_index := (λ i : nat, (100 + Z.of_nat i)%Z) <$> seq start 5 |}.

Definition sample_text_preload : list text_batch :=
  [sample_text_batch 0; sample_text_batch 5].

Definition sample_image_preload : list (nat * Z) :=
  (λ i : nat, (i, (100 + Z.of_nat i)%Z)) <$> seq 0 10.

(** An encoder that pairs every repeated image with the first token of its
    text, and a head that scores a pair 1 when the two agree. *)
Definition sample_infer_img
    (b : list (list Z) * list (list Z) * list (list Z)) (ims : list nat)
    : option (list (nat * Z)) :=
  Some (imap (λ j im, (im, default 0%Z (b.1.1 !! j ≫= λ t : list Z, t !! 0%nat)))
          ims).
Definition sample_irtr_head (feats : list (nat * Z)) : list (list Qc) :=
  (λ p : nat * Z, [if decide (Z.of_nat p.1 = p.2) then 1 else 0]) <$> feats.

End Rank.

(** ** Masked language modelling (lines 12-63) *)

Module MLM.

(** [x.view(-1, cols)] of a tensor whose entries are [flat] in row-major
    order: [cols] must be positive and divide their number. *)
Definition view_rows {A} (cols : nat) (flat : list A) : option (list (list A)) :=
  if decide (cols ≠ 0 ∧ length flat `mod` cols = 0)%nat
  then Some ((λ r, take cols (drop (r * cols)%nat flat))
               <$> seq 0 (length flat `div` cols))
  else None.

Record infer_out {Feats : Type} := {
  multi_modal_text_feats : Feats;
  text_labels : list (list Z);
  text_ids : list (list Z)
}.
Arguments infer_out : clear implicits.

Record mlm_ret := {
  mlm_loss : scalar;
  mlm_logits : list (list (list Qc));
  mlm_labels : list (list Z);
  mlm_ids : list (list Z)
}.

Section compute.
Context {Batch Feats : Type}.
Variable infer :
  Batch → option bool → option bool → option bool → option bool →
  infer_out Feats.
Variable mlm_head : Feats → list (list (list Qc)).
Variable nll : list Qc → Z → Qc.

(** Lines 16-20, and again lines 43-47 on the [umlm] names. *)
Definition masked_lm_loss (vocab_size : nat) (logits : list (list (list Qc)))
    (labels : list (list Z)) : option scalar :=
  rows ← view_rows vocab_size (concat (concat logits));
  cross_entropy nll (-100) rows (concat labels).

Definition compute_mlm (vocab_size : nat) (batch : Batch) : option mlm_ret :=
  let out := infer batch (Some true) (Some false) None None in
  let logits := mlm_head (multi_modal_text_feats out) in
  let labels := text_labels out in
  loss ← masked_lm_loss vocab_size logits labels;
  Some {| mlm_loss := loss; mlm_logits := logits; mlm_labels := labels;
          mlm_ids := text_ids out |}.

Definition compute_umlm (vocab_size : nat) (batch : Batch) : option mlm_ret :=
  let out := infer batch (Some true) (Some false) (Some true) None in
  let logits := mlm_head (multi_modal_text_feats out) in
  let labels := text_labels out in
  loss ← masked_lm_loss vocab_size logits labels;
  Some {| mlm_loss := loss; mlm_logits := logits; mlm_labels := labels;
          mlm_ids := text_ids out |}.
End compute.

(** The labels that [F.cross_entropy] accepts for [classes] classes. *)
Definition valid_labels (classes : nat) (labels : list (list Z)) : Prop :=
  Forall (Forall (λ y, y = (-100)%Z ∨ (0 ≤ y < Z.of_nat classes)%Z)) labels.

(** One sequence of three tokens over a vocabulary of two; only the middle
    token is masked. *)
Definition sample_logits : list (list (list Qc)) := [[[1; 0]; [0; 1]; [1; 1]]].
Definition sample_labels : list (list Z) := [[-100; 1; -100]%Z].
Definition sample_infer (batch : unit) (mask_text mask_image pseudo_vision
    pseudo_language : option bool) : infer_out (list (list (list Qc))) :=
  {| multi_modal_text_feats := sample_logits; text_labels := sample_labels;
     text_ids := [[4; 103; 6]%Z] |}.
Definition sample_unmasked_infer (batch : unit) (mask_text mask_image pseudo_vision
    pseudo_language : option bool) : infer_out (list (list (list Qc))) :=
  {| multi_modal_text_feats := sample_logits;
     text_labels := [[-100; -100; -100]%Z]; text_ids := [[4; 5; 6]%Z] |}.
Definition sample_nll (row : list Qc) (y : Z) : Qc :=
  1 - default 0 (row !! Z.to_nat y).

End MLM.

(** ** Single-label classification (lines 246-271) *)

Module CLS.

Record config := {
  language_only : bool;
  vision_only : bool
}.

Record cls_batch {Payload : Type} := {
  payload : Payload;
  cls_labels : list Z
}.
Arguments cls_batch : clear implicits.

Record cls_ret := {
  cls_loss : scalar;
  cls_logits : list (list Qc);
  cls_labels_out : list Z
}.

Section compute.
Context {Payload Feats : Type}.
(** [infer(batch, ...)["multi_modal_cls_feats"]] *)
Variable infer_cls :
  cls_batch Payload → option bool → option bool → option bool → option bool →
  option Feats.
Variable cls_head : Feats → list (list Qc).
Variable nll : list Qc → Z → Qc.

Definition compute_cls (cfg : config) (batch : cls_batch Payload) : option cls_ret :=
  feats ← infer_cls batch (Some false) (Some false) (Some (language_only cfg))
             (Some (vision_only cfg));
  let logits := cls_head feats in
  let labels := cls_labels batch in
  loss ← cross_entropy nll (-100) logits labels;
  Some {| cls_loss := loss; cls_logits := logits; cls_labels_out := labels |}.
End compute.

(** Two examples over three classes; the encoder returns the logits and the
    head passes them through. *)
Definition sample_batch : cls_batch unit := {| payload := (); cls_labels := [2; 0]%Z |}.
Definition sample_infer_cls (batch : cls_batch unit) (mask_text mask_image
    pseudo_vision pseudo_language : option bool) : option (list (list Qc)) :=
  Some [[0; 0; 1]; [1; 0; 0]].
Definition sample_cfg : config := {| language_only := false; vision_only := false |}.

End CLS.

(** The order of two scalars; NaN compares with nothing. *)
Definition scalar_le (a b : scalar) : Prop :=
  match a, b with
  | Num x, Num y => x ≤ y
  | _, _ => False
  end.

(** ** Lemmas on the helpers *)

Lemma index_select_seq {A} (x : list A) :
  index_select x (seq 0 (length x)) = Some x.
Proof.
  unfold index_select. apply mapM_Some_2. apply Forall2_same_length_lookup_2.
  - by rewrite length_seq.
  - intros i j y Hj Hy. apply lookup_seq in Hj as [-> _]. done.
Qed.

Lemma mapM_Permutation {A B} (f : A → option B) (l l' : list A) (k : list B) :
  l ≡ₚ l' → mapM f l = Some k → ∃ k', mapM f l' = Some k' ∧ k ≡ₚ k'.
Proof.
  intros Hp. revert k. induction Hp as [|a l l' Hp IH|a b l|l l' l'' H1 IH1 H2 IH2];
    intros k Hk.
  - exists k. done.
  - simpl in Hk. destruct (f a) as [y|] eqn:Hy; [|done].
    simpl in Hk. destruct (mapM f l) as [ys|] eqn:Hys; [|done].
    injection Hk as <-. destruct (IH ys eq_refl) as (k' & Hk' & Hpk).
    exists (y :: k'). simpl. rewrite Hy. simpl. rewrite Hk'. simpl.
    split; [done|]. by apply perm_skip.
  - simpl in Hk. destruct (f b) as [yb|] eqn:Hb; [|done].
    simpl in Hk. destruct (f a) as [ya|] eqn:Ha; [|done].
    simpl in Hk. destruct (mapM f l) as [ys|] eqn:Hys; [|done].
    injection Hk as <-. exists (ya :: yb :: ys). simpl.
    rewrite Ha, Hb. simpl. rewrite Hys. simpl. split; [done|]. apply perm_swap.
  - destruct (IH1 k Hk) as (k1 & Hk1 & Hp1).
    destruct (IH2 k1 Hk1) as (k2 & Hk2 & Hp2).
    exists k2. split; [done|]. by etrans.
Qed.

Lemma index_select_perm {A} (x : list A) (perm : list nat) :
  perm ≡ₚ seq 0 (length x) →
  ∃ y, index_select x perm = Some y ∧ y ≡ₚ x.
Proof.
  intros Hp. symmetry in Hp.
  destruct (mapM_Permutation _ _ _ _ Hp (index_select_seq x)) as (y & Hy & Hxy).
  exists y. split; [exact Hy|]. by symmetry.
Qed.

Lemma count_label_Permutation v (l l' : list Qc) :
  l ≡ₚ l' → count_label v l = count_label v l'.
Proof. intros Hp. unfold count_label. by rewrite Hp. Qed.

Lemma count_label_app v (l l' : list Qc) :
  count_label v (l ++ l') = (count_label v l + count_label v l')%nat.
Proof. unfold count_label. by rewrite filter_app, length_app. Qed.

Lemma count_label_replicate_eq v n : count_label v (replicate n v) = n.
Proof.
  unfold count_label. induction n as [|n IH]; [done|].
  simpl. rewrite filter_cons_True by done. simpl. by rewrite IH.
Qed.

Lemma count_label_replicate_ne v w n : w ≠ v → count_label v (replicate n w) = 0%nat.
Proof.
  intros Hne. unfold count_label. induction n as [|n IH]; [done|].
  simpl. by rewrite filter_cons_False.
Qed.

Lemma Qc_one_ne_zero : (1 : Qc) ≠ 0.
Proof. discriminate. Qed.

Lemma neg_len_ceil n : ITM.neg_len n = ((n + 1) `div` 2)%nat.
Proof.
  unfold ITM.neg_len, ITM.pos_len.
  pose proof (Nat.div_mod_eq n 2). pose proof (Nat.mod_upper_bound n 2).
  pose proof (Nat.div_mod_eq (n + 1) 2). pose proof (Nat.mod_upper_bound (n + 1) 2).
  lia.
Qed.

(** ** Image-text matching: the labels *)

Lemma itm_labels_ordered_length n : length (ITM.itm_labels_ordered n) = n.
Proof.
  unfold ITM.itm_labels_ordered, ITM.neg_len, ITM.pos_len.
  rewrite length_app, !length_replicate.
  pose proof (Nat.div_mod_eq n 2). pose proof (Nat.mod_upper_bound n 2). lia.
Qed.

Lemma itm_labels_ordered_ones n :
  count_label 1 (ITM.itm_labels_ordered n) = ITM.pos_len n.
Proof.
  unfold ITM.itm_labels_ordered. rewrite count_label_app, count_label_replicate_eq.
  rewrite count_label_replicate_ne; [lia | by intros ?].
Qed.

Lemma itm_labels_ordered_zeros n :
  count_label 0 (ITM.itm_labels_ordered n) = ITM.neg_len n.
Proof.
  unfold ITM.itm_labels_ordered. rewrite count_label_app, count_label_replicate_eq.
  rewrite count_label_replicate_ne; [lia | apply Qc_one_ne_zero].
Qed.

Lemma itm_labels_perm n perm :
  ITM.is_randperm n perm →
  ∃ ls, ITM.itm_labels n perm = Some ls ∧ ls ≡ₚ ITM.itm_labels_ordered n.
Proof.
  intros Hp. unfold ITM.itm_labels. apply index_select_perm.
  by rewrite itm_labels_ordered_length.
Qed.

(** C1, as stated, fails on a batch of one example: the only label is 0,
    while [ceil(1/2)] ones are claimed. *)
Lemma itm_ones_not_ceil :
  ITM.is_randperm 1 [0%nat] ∧
  ITM.itm_labels 1 [0%nat] = Some [0] ∧
  count_label 1 [0] ≠ ITM.ceil_half 1.
Proof.
  split; [unfold ITM.is_randperm; reflexivity|].
  split; [reflexivity|]. vm_compute. discriminate.
Qed.

(** C1, amended: for a batch of [n] examples and every value of the random
    permutation, [compute_itm]'s label vector has [n] entries, of which
    exactly [floor(n/2)] are one and [ceil(n/2)] are zero; the permutation
    keeps the counts of the vector built before it. *)
Theorem itm_label_counts n perm :
  ITM.is_randperm n perm →
  ∃ ls, ITM.itm_labels n perm = Some ls ∧
        length ls = n ∧
        count_label 1 ls = (n `div` 2)%nat ∧
        count_label 0 ls = ITM.ceil_half n ∧
        count_label 1 ls = count_label 1 (ITM.itm_labels_ordered n) ∧
        count_label 0 ls = count_label 0 (ITM.itm_labels_ordered n).
Proof.
  intros Hp. destruct (itm_labels_perm n perm Hp) as (ls & Hls & Hperm).
  exists ls. split; [done|].
  rewrite (count_label_Permutation 1 _ _ Hperm), (count_label_Permutation 0 _ _ Hperm).
  rewrite Hperm, itm_labels_ordered_length, itm_labels_ordered_ones,
    itm_labels_ordered_zeros.
  unfold ITM.ceil_half. by rewrite neg_len_ceil.
Qed.

Lemma itm_label_counts_witness :
  ITM.is_randperm 3 [2; 0; 1]%nat ∧
  ∃ ls, ITM.itm_labels 3 [2; 0; 1]%nat = Some ls ∧
        length ls = 3%nat ∧
        count_label 1 ls = (3 `div` 2)%nat ∧
        count_label 0 ls = ITM.ceil_half 3 ∧
        count_label 1 ls = count_label 1 (ITM.itm_labels_ordered 3) ∧
        count_label 0 ls = count_label 0 (ITM.itm_labels_ordered 3).
Proof.
  assert (ITM.is_randperm 3 [2; 0; 1]%nat) as Hp.
  { unfold ITM.is_randperm. simpl.
    change [2; 0; 1]%nat with ([2]%nat ++ [0; 1]%nat).
    change [0; 1; 2]%nat with ([0; 1]%nat ++ [2]%nat).
    apply Permutation_app_comm. }
  split; [exact Hp|]. exact (itm_label_counts 3 [2; 0; 1]%nat Hp).
Defined.

(** ** Image-text matching: the selected images *)

Section itm_images.
Context {Image : Type}.
Implicit Types (labels : list Qc) (bti bfi : list Image).

Lemma enumerate_lookup {A} (xs : list A) i x :
  enumerate xs !! i = Some x ↔ ∃ y, xs !! i = Some y ∧ x = (i, y).
Proof. unfold enumerate. apply list_lookup_imap_Some. Qed.

Lemma enumerate_length {A} (xs : list A) : length (enumerate xs) = length xs.
Proof. unfold enumerate. apply length_imap. Qed.

Lemma select_view_spec labels bti bfi out :
  ITM.select_view labels bti bfi = Some out →
  length out = (length bti `min` length bfi)%nat ∧
  ∀ i ti fi, bti !! i = Some ti → bfi !! i = Some fi →
    ∃ l, labels !! i = Some l ∧
         out !! i = Some (if decide (l = 1) then ti else fi).
Proof.
  unfold ITM.select_view. intros Hsel.
  destruct (mapM (ITM.pick labels) (enumerate (zip bti bfi))) as [picked|] eqn:Hm;
    [|done].
  simpl in Hsel. assert (picked = out) as ->.
  { destruct picked; simpl in Hsel; congruence. }
  apply mapM_Some_1 in Hm. split.
  - rewrite <-(Forall2_length _ _ _ Hm), enumerate_length, length_zip. done.
  - intros i ti fi Hti Hfi.
    assert (enumerate (zip bti bfi) !! i = Some (i, (ti, fi))) as He.
    { apply enumerate_lookup. exists (ti, fi). split; [|done].
      apply lookup_zip_with_Some. eauto. }
    destruct (Forall2_lookup_l _ _ _ _ _ Hm He) as (y & Hy & Hp).
    unfold ITM.pick in Hp. simpl in Hp.
    destruct (labels !! i) as [l|]; [|done]. simpl in Hp.
    exists l. split; [done|]. congruence.
Qed.

Lemma select_view_total labels bti bfi :
  (0 < length bti `min` length bfi ≤ length labels)%nat →
  is_Some (ITM.select_view labels bti bfi).
Proof.
  intros Hn. unfold ITM.select_view.
  assert (is_Some (mapM (ITM.pick labels) (enumerate (zip bti bfi)))) as [picked Hm].
  { apply mapM_is_Some. apply Forall_lookup. intros i [j [ti fi]] He.
    apply enumerate_lookup in He as (y & Hy & Heq). simplify_eq.
    apply lookup_lt_Some in Hy. rewrite length_zip in Hy.
    unfold ITM.pick. simpl.
    destruct (lookup_lt_is_Some_2 labels i) as [l Hl]; [lia|].
    rewrite Hl. by eexists. }
  rewrite Hm. simpl.
  apply mapM_Some_1, Forall2_length in Hm.
  rewrite enumerate_length, length_zip in Hm.
  destruct picked; simpl in *; [lia | by eexists].
Qed.

Lemma itm_images_spec labels (image false_image : list (list Image)) out :
  ITM.itm_images labels image false_image = Some out →
  length out = (length image `min` length false_image)%nat ∧
  ∀ v bti bfi, image !! v = Some bti → false_image !! v = Some bfi →
    ∃ sel, out !! v = Some sel ∧ ITM.select_view labels bti bfi = Some sel.
Proof.
  unfold ITM.itm_images. intros Hm. apply mapM_Some_1 in Hm. split.
  - by rewrite <-(Forall2_length _ _ _ Hm), length_zip.
  - intros v bti bfi Hti Hfi.
    assert (zip image false_image !! v = Some (bti, bfi)) as Hz.
    { apply lookup_zip_with_Some. eauto. }
    destruct (Forall2_lookup_l _ _ _ _ _ Hm Hz) as (sel & Hsel & Hp). eauto.
Qed.

Lemma itm_images_total labels (image false_image : list (list Image)) :
  Forall (λ v, 0 < length v ≤ length labels)%nat image →
  Forall (λ v, 0 < length v ≤ length labels)%nat false_image →
  is_Some (ITM.itm_images labels image false_image).
Proof.
  intros Hi Hf. unfold ITM.itm_images. apply mapM_is_Some, Forall_lookup.
  intros v [bti bfi] Hz. apply lookup_zip_with_Some in Hz as (a & b & Heq & Ha & Hb).
  simplify_eq. simpl. apply select_view_total.
  rewrite Forall_lookup in Hi, Hf. specialize (Hi _ _ Ha). specialize (Hf _ _ Hb).
  simpl in *. lia.
Qed.

End itm_images.

(** C4, as stated, fails when the negative image drawn for an example is the
    true image itself: with label 0 the selected image equals the true image
    although the label is not 1. *)
Lemma itm_selection_not_iff :
  ITM.itm_labels 1 [0%nat] = Some [0] ∧
  ITM.itm_images [0] [[7%nat]] [[7%nat]] = Some [[7%nat]] ∧
  ¬ (7%nat = 7%nat ↔ (0 : Qc) = 1).
Proof.
  split; [reflexivity|]. split; [reflexivity|].
  intros [H _]. specialize (H eq_refl). discriminate.
Qed.

(** C4, amended: the permutation rearranges the label vector only; the images
    keep their positions, and at each index [i] of each view the selected
    image is the true image if the permuted label at [i] is 1 and the entry of
    [false_image_0] otherwise.  Hence, where the two images differ, the
    selected image is the true one if and only if the label is 1. *)
Theorem itm_selection {Image : Type} n perm (image false_image : list (list Image)) :
  ITM.is_randperm n perm →
  (0 < n)%nat →
  Forall (λ v, length v = n) image →
  Forall (λ v, length v = n) false_image →
  ∃ labels out,
    ITM.itm_labels n perm = Some labels ∧
    labels ≡ₚ ITM.itm_labels_ordered n ∧
    ITM.itm_images labels image false_image = Some out ∧
    ∀ v i bti bfi ti fi,
      image !! v = Some bti → false_image !! v = Some bfi →
      bti !! i = Some ti → bfi !! i = Some fi →
      ∃ l sel,
        labels !! i = Some l ∧
        out !! v ≫= (λ view, view !! i) = Some sel ∧
        sel = (if decide (l = 1) then ti else fi) ∧
        (ti ≠ fi → (sel = ti ↔ l = 1)).
Proof.
  intros Hp Hn Hi Hf.
  destruct (itm_labels_perm n perm Hp) as (labels & Hl & Hperm).
  assert (length labels = n) as Hlen.
  { by rewrite Hperm, itm_labels_ordered_length. }
  destruct (itm_images_total labels image false_image) as [out Hout].
  { eapply Forall_impl; [exact Hi|]. simpl. intros; lia. }
  { eapply Forall_impl; [exact Hf|]. simpl. intros; lia. }
  exists labels, out. do 3 (split; [done|]).
  intros v i bti bfi ti fi Hv Hv' Hti Hfi.
  destruct (itm_images_spec _ _ _ _ Hout) as [_ Hviews].
  destruct (Hviews v bti bfi Hv Hv') as (sel & Hsel & Hview).
  destruct (select_view_spec _ _ _ _ Hview) as [_ Hpick].
  destruct (Hpick i ti fi Hti Hfi) as (l & Hl' & Hi').
  exists l, (if decide (l = 1) then ti else fi).
  split; [done|]. split; [by rewrite Hsel|]. split; [done|].
  intros Hne. destruct (decide (l = 1)); split; congruence.
Qed.

Lemma itm_selection_witness :
  ITM.is_randperm 2 [1; 0]%nat ∧
  ∃ labels out,
    ITM.itm_labels 2 [1; 0]%nat = Some labels ∧
    labels ≡ₚ ITM.itm_labels_ordered 2 ∧
    ITM.itm_images labels [[10; 11]%nat] [[20; 21]%nat] = Some out ∧
    ∀ v i bti bfi ti fi,
      [[10; 11]%nat] !! v = Some bti → [[20; 21]%nat] !! v = Some bfi →
      bti !! i = Some ti → bfi !! i = Some fi →
      ∃ l sel,
        labels !! i = Some l ∧
        out !! v ≫= (λ view, view !! i) = Some sel ∧
        sel = (if decide (l = 1) then ti else fi) ∧
        (ti ≠ fi → (sel = ti ↔ l = 1)).
Proof.
  assert (ITM.is_randperm 2 [1; 0]%nat) as Hp.
  { unfold ITM.is_randperm. simpl. apply perm_swap. }
  split; [exact Hp|].
  apply (itm_selection 2 [1; 0]%nat [[10; 11]%nat] [[20; 21]%nat] Hp).
  - lia.
  - repeat constructor.
  - repeat constructor.
Defined.

(** ** Image-text matching: the caller's batch *)

Section itm_store.
Context {Image : Type}.
Implicit Types (h : gmap nat (ITM.obj Image)).

Lemma bind_readonly {A B} (m : ITM.M (Image := Image) A) (k : A → ITM.M B) h :
  ITM.readonly m →
  ITM.bind m k h = match (m h).1 with
                   | Some a => k a h
                   | None => (None, h)
                   end.
Proof.
  intros Hm. unfold ITM.bind. specialize (Hm h).
  destruct (m h) as [[a|] h']; simpl in *; by subst.
Qed.

Lemma readonly_lift {A} (o : option A) : ITM.readonly (ITM.lift (Image := Image) o).
Proof. done. Qed.

Lemma readonly_ret {A} (a : A) : ITM.readonly (ITM.ret (Image := Image) a).
Proof. done. Qed.

Lemma readonly_read l : ITM.readonly (ITM.read (Image := Image) l).
Proof. done. Qed.

Lemma readonly_bind {A B} (m : ITM.M (Image := Image) A) (k : A → ITM.M B) :
  ITM.readonly m → (∀ a, ITM.readonly (k a)) → ITM.readonly (ITM.bind m k).
Proof.
  intros Hm Hk h. rewrite bind_readonly by done.
  destruct (m h).1; [apply Hk | done].
Qed.

Lemma readonly_getitem l k : ITM.readonly (ITM.getitem (Image := Image) l k).
Proof.
  apply readonly_bind; [apply readonly_read|]. intros [| |d]; apply readonly_lift.
Qed.

Lemma readonly_read_texts l : ITM.readonly (ITM.read_texts (Image := Image) l).
Proof.
  apply readonly_bind; [apply readonly_read|].
  intros [| |d]; first [apply readonly_lift | apply readonly_ret].
Qed.

Lemma readonly_read_views l : ITM.readonly (ITM.read_views (Image := Image) l).
Proof.
  apply readonly_bind; [apply readonly_read|].
  intros [| |d]; first [apply readonly_lift | apply readonly_ret].
Qed.

End itm_store.

Create HintDb readonly.
#[global] Hint Resolve readonly_lift readonly_ret readonly_read readonly_getitem
  readonly_read_texts readonly_read_views : readonly.

(** One step of a computation that starts with a read: the store stays. *)
Ltac read_step := rewrite bind_readonly by auto with readonly.

Section itm_batch_store.
Context {Image : Type}.
Implicit Types (h : gmap nat (ITM.obj Image)).

Lemma getitem_Some l k v h :
  (ITM.getitem l k h).1 = Some v → ∃ d, h !! l = Some (ITM.ODict d) ∧ d !! k = Some v.
Proof.
  unfold ITM.getitem, ITM.bind, ITM.read, ITM.lift.
  destruct (h !! l) as [[| |d]|]; simpl; try done. eauto.
Qed.

Lemma read_texts_Some l ts h :
  (ITM.read_texts l h).1 = Some ts → h !! l = Some (ITM.OTexts ts).
Proof.
  unfold ITM.read_texts, ITM.bind, ITM.read, ITM.lift, ITM.ret.
  destruct (h !! l) as [[| |d]|]; simpl; try done. by intros [= ->].
Qed.

Lemma read_views_Some l vs h :
  (ITM.read_views l h).1 = Some vs → h !! l = Some (ITM.OViews vs).
Proof.
  unfold ITM.read_views, ITM.bind, ITM.read, ITM.lift, ITM.ret.
  destruct (h !! l) as [[| |d]|]; simpl; try done. by intros [= ->].
Qed.

(** What lines 143-159 do to the store: nothing on failure; on success the
    labels and the selected images are those of the batch's texts and views,
    and two fresh objects hold the selected images and the copy of the
    dictionary whose ["image"] entry points to them. *)
Lemma itm_batch_store perm batch h :
  match ITM.itm_batch perm batch h with
  | (None, h') => h' = h
  | (Some (labels, batch'), h') =>
      ∃ d limages images ltext texts limage image lfalse false_image,
        h !! batch = Some (ITM.ODict d) ∧
        (d !! "text" = Some ltext ∧ h !! ltext = Some (ITM.OTexts texts)) ∧
        (d !! "image" = Some limage ∧ h !! limage = Some (ITM.OViews image)) ∧
        (d !! "false_image_0" = Some lfalse ∧
         h !! lfalse = Some (ITM.OViews false_image)) ∧
        ITM.itm_labels (length texts) perm = Some labels ∧
        ITM.itm_images labels image false_image = Some images ∧
        (limages ∉ dom h) ∧ (batch' ∉ dom h) ∧ limages ≠ batch' ∧
        h' = <[batch' := ITM.ODict (<["image" := limages]> d)]>
               (<[limages := ITM.OViews images]> h)
  end.
Proof.
  unfold ITM.itm_batch, mbind, ITM.M_bind.
  read_step.
  destruct (ITM.getitem batch "text" h).1 as [ltext|] eqn:Htext; [|done].
  apply getitem_Some in Htext as (d & Hd & Hdt).
  read_step.
  destruct (ITM.read_texts ltext h).1 as [texts|] eqn:Htexts; [|done].
  apply read_texts_Some in Htexts.
  read_step.
  destruct (ITM.lift (ITM.itm_labels (length texts) perm) h).1 as [labels|] eqn:Hlab;
    [|done].
  read_step.
  destruct (ITM.getitem batch "image" h).1 as [limage|] eqn:Himage; [|done].
  apply getitem_Some in Himage as (d1 & Hd1 & Hdi).
  assert (d1 = d) as -> by congruence.
  read_step.
  destruct (ITM.read_views limage h).1 as [image|] eqn:Hviews; [|done].
  apply read_views_Some in Hviews.
  read_step.
  destruct (ITM.getitem batch "false_image_0" h).1 as [lfalse|] eqn:Hfalse; [|done].
  apply getitem_Some in Hfalse as (d2 & Hd2 & Hdf).
  assert (d2 = d) as -> by congruence.
  read_step.
  destruct (ITM.read_views lfalse h).1 as [false_image|] eqn:Hfviews; [|done].
  apply read_views_Some in Hfviews.
  read_step.
  destruct (ITM.lift (ITM.itm_images labels image false_image) h).1 as [images|] eqn:Him;
    [|done].
  unfold ITM.bind at 1. unfold ITM.alloc.
  set (limages := fresh (dom h)).
  assert (limages ∉ dom h) as Hfresh1 by apply is_fresh.
  assert (limages ≠ batch) as Hne.
  { intros ->. apply Hfresh1. apply elem_of_dom. eauto. }
  set (h1 := <[limages := ITM.OViews images]> h).
  unfold ITM.bind at 1. unfold ITM.copy_dict, ITM.bind, ITM.read, ITM.alloc. simpl.
  unfold h1 at 1. rewrite lookup_insert_ne by done. rewrite Hd. simpl.
  rewrite list_to_map_to_list.
  set (batch' := fresh (dom h1)).
  assert (batch' ∉ dom h1) as Hfresh2 by apply is_fresh.
  assert ((batch' ∉ dom h) ∧ limages ≠ batch') as [Hb1 Hb2].
  { unfold h1 in Hfresh2. rewrite dom_insert_L in Hfresh2. set_solver. }
  unfold ITM.setitem, ITM.bind, ITM.read, ITM.ret. simpl.
  rewrite lookup_insert_eq. simpl.
  exists d, limages, images, ltext, texts, limage, image, lfalse, false_image.
  do 9 (split; [done|]).
  by rewrite insert_insert_eq.
Qed.

End itm_batch_store.

(** C10: [compute_itm] leaves every object of the caller's store as it was,
    whether it returns or raises, provided the encoder writes to no existing
    object other than the batch it is handed.  The caller's batch dictionary
    therefore keeps all its entries, ["image"] included, and the objects they
    refer to; the replaced ["image"] entry lives in a fresh copy. *)
Theorem compute_itm_leaves_batch {Image : Type}
    (infer : nat → bool → bool → ITM.M (Image := Image) (gmap string (list (list Qc))))
    (itm_head : list (list Qc) → list (list Qc)) (nll : list Qc → Z → Qc)
    (perm : list nat) (batch : nat) (h : gmap nat (ITM.obj Image)) :
  (∀ b mt mi h0 l, l ∈ dom h0 → l ≠ b → (infer b mt mi h0).2 !! l = h0 !! l) →
  (∀ l, l ∈ dom h →
     (ITM.compute_itm infer itm_head nll perm batch h).2 !! l = h !! l) ∧
  (∀ d, h !! batch = Some (ITM.ODict d) →
     (ITM.compute_itm infer itm_head nll perm batch h).2 !! batch
       = Some (ITM.ODict d)) ∧
  (∀ labels batch' h',
     ITM.itm_batch perm batch h = (Some (labels, batch'), h') →
     batch' ≠ batch ∧ h !! batch' = None ∧
     ∃ d limages images limage image lfalse false_image,
       h !! batch = Some (ITM.ODict d) ∧ h !! limages = None ∧
       h' !! batch' = Some (ITM.ODict (<["image" := limages]> d)) ∧
       h' !! limages = Some (ITM.OViews images) ∧
       (d !! "image" = Some limage ∧ h !! limage = Some (ITM.OViews image)) ∧
       (d !! "false_image_0" = Some lfalse ∧
        h !! lfalse = Some (ITM.OViews false_image)) ∧
       ITM.itm_images labels image false_image = Some images).
Proof.
  intros Hframe.
  assert (∀ l, l ∈ dom h →
     (ITM.compute_itm infer itm_head nll perm batch h).2 !! l = h !! l) as Hkeep.
  { intros l Hl. unfold ITM.compute_itm, mbind, ITM.M_bind.
    unfold ITM.bind at 1. pose proof (itm_batch_store perm batch h) as Hb.
    destruct (ITM.itm_batch perm batch h) as [[[labels batch']|] h1]; [|by subst].
    destruct Hb as (d & limages & images & ? & ? & ? & ? & ? & ? & Hd & _ & _ & _
                    & _ & _ & Hf1 & Hf2 & Hne & ->).
    set (h1 := <[batch':=_]> _).
    assert (h1 !! l = h !! l) as H1.
    { unfold h1. rewrite !lookup_insert_ne; [done| |]; intros ->; done. }
    assert (l ∈ dom h1) as Hl1.
    { apply elem_of_dom. rewrite H1. by apply elem_of_dom. }
    assert (l ≠ batch') as Hlb by (intros ->; done).
    specialize (Hframe batch' false false h1 l Hl1 Hlb). simpl.
    unfold ITM.bind at 1.
    destruct (infer batch' false false h1) as [[out|] h2]; simpl in *;
      [|by rewrite Hframe].
    read_step.
    destruct (ITM.lift (out !! "multi_modal_cls_feats") h2).1 as [feats|];
      simpl; [|by rewrite Hframe].
    read_step.
    destruct (ITM.lift _ h2).1; simpl; by rewrite Hframe. }
  split; [exact Hkeep|]. split.
  - intros d Hd. rewrite Hkeep; [done|]. apply elem_of_dom. eauto.
  - intros labels batch' h' Hb. pose proof (itm_batch_store perm batch h) as Hs.
    rewrite Hb in Hs.
    destruct Hs as (d & limages & images & ltext & texts & limage & image & lfalse
                    & false_image & Hd & _ & Hi & Hf & _ & Him & Hf1 & Hf2 & Hne & ->).
    split; [|split].
    + intros ->. apply Hf2, elem_of_dom. eauto.
    + by apply not_elem_of_dom.
    + exists d, limages, images, limage, image, lfalse, false_image.
      split; [done|]. split; [by apply not_elem_of_dom|].
      split; [by rewrite lookup_insert_eq|]. split.
      { rewrite lookup_insert_ne by done. by rewrite lookup_insert_eq. }
      done.
Qed.

Lemma marking_infer_frame {Image : Type} b mt mi (h0 : gmap nat (ITM.obj Image)) l :
  l ∈ dom h0 → l ≠ b → (ITM.marking_infer b mt mi h0).2 !! l = h0 !! l.
Proof.
  intros _ Hne. unfold ITM.marking_infer.
  destruct (h0 !! b) as [[| |d]|]; simpl; try done.
  by rewrite lookup_insert_ne.
Qed.

Lemma compute_itm_leaves_batch_witness :
  let run := ITM.compute_itm ITM.marking_infer (λ x, x) (λ _ _, 1) [1; 0]%nat 3%nat in
  (∀ b mt mi (h0 : gmap nat (ITM.obj nat)) l,
     l ∈ dom h0 → l ≠ b → (ITM.marking_infer b mt mi h0).2 !! l = h0 !! l) ∧
  (∀ l, l ∈ dom ITM.sample_store →
     (run ITM.sample_store).2 !! l = ITM.sample_store !! l) ∧
  (∀ d, ITM.sample_store !! 3%nat = Some (ITM.ODict d) →
     (run ITM.sample_store).2 !! 3%nat = Some (ITM.ODict d)) ∧
  (∀ labels batch' h',
     ITM.itm_batch [1; 0]%nat 3%nat ITM.sample_store = (Some (labels, batch'), h') →
     batch' ≠ 3%nat ∧ ITM.sample_store !! batch' = None ∧
     ∃ d limages images limage image lfalse false_image,
       ITM.sample_store !! 3%nat = Some (ITM.ODict d) ∧
       ITM.sample_store !! limages = None ∧
       h' !! batch' = Some (ITM.ODict (<["image" := limages]> d)) ∧
       h' !! limages = Some (ITM.OViews images) ∧
       (d !! "image" = Some limage ∧
        ITM.sample_store !! limage = Some (ITM.OViews image)) ∧
       (d !! "false_image_0" = Some lfalse ∧
        ITM.sample_store !! lfalse = Some (ITM.OViews false_image)) ∧
       ITM.itm_images labels image false_image = Some images).
Proof.
  intros run. split; [intros; by apply marking_infer_frame|].
  apply (compute_itm_leaves_batch ITM.marking_infer (λ x, x) (λ _ _, 1)
           [1; 0]%nat 3%nat ITM.sample_store).
  intros. by apply marking_infer_frame.
Defined.

(** On the sample store the call returns, the encoder has marked the copy at
    location 5, and the caller's dictionary at location 3 has no mark. *)
Example compute_itm_sample_run :
  let r := ITM.compute_itm ITM.marking_infer (λ x, x) (λ _ _, 1) [1; 0]%nat 3%nat
             ITM.sample_store in
  ITM.itm_labels_out <$> r.1 = Some [0; 1] ∧
  r.2 !! 4%nat = Some (ITM.OViews [[20; 11]%nat]) ∧
  (r.2 !! 5%nat ≫= λ o, match o with ITM.ODict d => d !! "image" | _ => None end)
    = Some 4%nat ∧
  (r.2 !! 5%nat ≫= λ o, match o with ITM.ODict d => d !! "seen" | _ => None end)
    = Some 5%nat ∧
  (r.2 !! 3%nat ≫= λ o, match o with ITM.ODict d => d !! "image" | _ => None end)
    = Some 1%nat ∧
  (r.2 !! 3%nat ≫= λ o, match o with ITM.ODict d => d !! "seen" | _ => None end)
    = None.
Proof. vm_compute. repeat split; reflexivity. Qed.

(** ** Masked image modelling: the loss *)

Lemma mapM_total {A B} (f : A → option B) (g : A → B) (l : list A) :
  (∀ x, x ∈ l → f x = Some (g x)) → mapM f l = Some (g <$> l).
Proof.
  intros Hf. apply mapM_Some_2. apply Forall2_fmap_r, Forall_Forall2_diag.
  apply Forall_forall. intros x Hx. by apply Hf.
Qed.

Lemma zip_same_Some {A B} (a : list A) (b : list B) :
  length a = length b → zip_same a b = Some (zip a b).
Proof. intros H. unfold zip_same. by rewrite decide_True. Qed.

Lemma zip_same_inv {A B} (a : list A) (b : list B) r :
  zip_same a b = Some r → length a = length b ∧ r = zip a b.
Proof. unfold zip_same. case_decide; naive_solver. Qed.

Lemma Qc_of_nat_0 n : Qc_of_nat n = 0 ↔ n = 0%nat.
Proof.
  unfold Qc_of_nat. rewrite <-Z2Qc_inj_0, Z2Qc_inj_iff. lia.
Qed.

Lemma Qc_of_nat_S n : Qc_of_nat (S n) = 1 + Qc_of_nat n.
Proof.
  unfold Qc_of_nat. rewrite Nat2Z.inj_succ, <-Z.add_1_l, Z2Qc_inj_add.
  by rewrite Z2Qc_inj_1.
Qed.

Lemma sum_Qc_cons x (xs : list Qc) : sum_Qc (x :: xs) = x + sum_Qc xs.
Proof. done. Qed.

Lemma sum_scalar_cons x (xs : list scalar) :
  sum_scalar (x :: xs) = scalar_add x (sum_scalar xs).
Proof. done. Qed.

Lemma sum_scalar_Num (xs : list Qc) : sum_scalar (Num <$> xs) = Num (sum_Qc xs).
Proof.
  induction xs as [|x xs IH]; [done|].
  rewrite fmap_cons, sum_scalar_cons, sum_Qc_cons, IH. done.
Qed.

Lemma sum_Qc_app (xs ys : list Qc) : sum_Qc (xs ++ ys) = sum_Qc xs + sum_Qc ys.
Proof.
  induction xs as [|x xs IH]; [by rewrite Qcplus_0_l|].
  rewrite <-app_comm_cons, !sum_Qc_cons, IH. by rewrite Qcplus_assoc.
Qed.

(** On a binary mask, the weighted sum is the sum over the removed positions
    and the mask sums to their number. *)
Lemma weighted_sum_selected (q m : list Qc) :
  Forall (λ x, x = 0 ∨ x = 1) m →
  sum_Qc (zip_with Qcmult q m) = sum_Qc (MIM.selected q m).
Proof.
  intros Hm. revert q. induction Hm as [|x m Hx Hm IH]; intros [|y q]; try done.
  unfold MIM.selected in *. cbn [zip_with zip]. rewrite sum_Qc_cons, IH.
  destruct Hx as [-> | ->].
  - rewrite filter_cons_False by (simpl; by intros ?).
    by rewrite Qcmult_0_r, Qcplus_0_l.
  - rewrite filter_cons_True by done. rewrite fmap_cons, sum_Qc_cons.
    by rewrite Qcmult_1_r.
Qed.

Lemma mask_sum_selected (q m : list Qc) :
  Forall (λ x, x = 0 ∨ x = 1) m → length q = length m →
  sum_Qc m = Qc_of_nat (length (MIM.selected q m)).
Proof.
  intros Hm. revert q. induction Hm as [|x m Hx Hm IH]; intros [|y q] Hlen; try done.
  { symmetry. by apply Qc_of_nat_0. }
  unfold MIM.selected in *. cbn [zip_with zip]. cbn [length] in Hlen.
  rewrite sum_Qc_cons, (IH q) by lia.
  destruct Hx as [-> | ->].
  - rewrite filter_cons_False by (simpl; by intros ?). by rewrite Qcplus_0_l.
  - rewrite filter_cons_True by done. rewrite fmap_cons. cbn [length].
    by rewrite Qc_of_nat_S.
Qed.

Lemma selected_nonempty (q m : list Qc) :
  length q = length m → 1 ∈ m → MIM.selected q m ≠ [].
Proof.
  revert q. induction m as [|x m IH]; intros [|y q] Hlen Hin; try done.
  - by apply elem_of_nil in Hin.
  - unfold MIM.selected in *. simpl in *.
    destruct (decide (x = 1)) as [->|Hx].
    + by rewrite filter_cons_True.
    + rewrite filter_cons_False by done. apply IH; [lia|].
      apply elem_of_cons in Hin as [?|?]; [congruence | done].
Qed.

Lemma selected_app (q1 q2 m1 m2 : list Qc) :
  length q1 = length m1 →
  MIM.selected (q1 ++ q2) (m1 ++ m2) = MIM.selected q1 m1 ++ MIM.selected q2 m2.
Proof.
  intros Hlen. unfold MIM.selected.
  by rewrite zip_with_app, filter_app, fmap_app.
Qed.

Lemma selected_Num (q m : list Qc) :
  (filter (λ e : scalar * Qc, e.2 = 1) (zip (Num <$> q) m)).*1
  = Num <$> MIM.selected q m.
Proof.
  unfold MIM.selected. revert m. induction q as [|x q IH]; intros [|y m]; try done.
  simpl. destruct (decide (y = 1)).
  - rewrite !filter_cons_True by done. simpl. by rewrite IH.
  - rewrite !filter_cons_False by done. apply IH.
Qed.

Lemma shape2_rows {A B} n l (a : list (list A)) (b : list (list B)) :
  shape2 n l a → shape2 n l b → Forall2 (λ q m, length q = length m) a b.
Proof.
  intros [Ha Hra] [Hb Hrb]. apply Forall2_same_length_lookup_2; [congruence|].
  intros i x y Hx Hy. rewrite Forall_lookup in Hra. rewrite Forall_lookup in Hrb.
  rewrite (Hra _ _ Hx), (Hrb _ _ Hy). done.
Qed.

Lemma concat_rows_length {A B} (a : list (list A)) (b : list (list B)) :
  Forall2 (λ q m, length q = length m) a b → length (concat a) = length (concat b).
Proof.
  induction 1 as [|x y a b Hxy _ IH]; [done|].
  simpl. rewrite !length_app. congruence.
Qed.

Lemma concat_Num (qs : list (list Qc)) :
  concat (fmap (M := list) Num <$> qs) = Num <$> concat qs.
Proof.
  induction qs as [|q qs IH]; [done|].
  rewrite fmap_cons, !concat_cons, fmap_app. by f_equal.
Qed.

Lemma mask_row_Num (q m : list Qc) :
  (λ e : scalar * Qc, scalar_mul e.1 (Num e.2)) <$> zip (Num <$> q) m
  = Num <$> zip_with Qcmult q m.
Proof.
  revert m. induction q as [|x q IH]; intros [|y m]; try done.
  simpl. by rewrite IH.
Qed.

Lemma concat_weighted (qs mask : list (list Qc)) :
  Forall2 (λ q m, length q = length m) qs mask →
  concat ((λ r : list scalar * list Qc,
             (λ e : scalar * Qc, scalar_mul e.1 (Num e.2)) <$> zip r.1 r.2)
            <$> zip (fmap (M := list) Num <$> qs) mask)
  = Num <$> zip_with Qcmult (concat qs) (concat mask).
Proof.
  induction 1 as [|q m qs mask Hlen _ IH]; [done|].
  rewrite fmap_cons. cbn [zip_with]. rewrite fmap_cons, !concat_cons. cbn [fst snd].
  rewrite IH, mask_row_Num, zip_with_app, fmap_app; done.
Qed.

Lemma patch_loss_Num (p : list Qc * list Qc) :
  length p.1 = length p.2 → p.1 ≠ [] →
  MIM.patch_loss p = Some (Num (MIM.patch_mse p.1 p.2)).
Proof.
  intros Hlen Hne. unfold MIM.patch_loss. rewrite zip_same_Some by done. simpl.
  unfold tensor_mean, scalar_div, MIM.patch_mse. rewrite length_map.
  rewrite decide_False; [done|]. rewrite Qc_of_nat_0, length_zip.
  destruct p as [[|x a] [|y b]]; simpl in *; done || lia.
Qed.

Lemma per_patch_loss_Num n l d (logits labels : list (list (list Qc))) :
  shape3 n l d logits → shape3 n l d labels → (0 < d)%nat →
  MIM.per_patch_loss logits labels
  = Some (fmap (M := list) Num <$> MIM.patch_mses logits labels).
Proof.
  intros [Hn1 Hs1] [Hn2 Hs2] Hd. unfold MIM.per_patch_loss.
  rewrite zip_same_Some by congruence. simpl.
  unfold MIM.patch_mses. rewrite <-list_fmap_compose.
  apply mapM_total. intros [r1 r2] Hr. simpl.
  apply list_elem_of_lookup in Hr as [i Hi].
  apply lookup_zip_with_Some in Hi as (a & b & Heq & Ha & Hb). simplify_eq.
  rewrite Forall_lookup in Hs1, Hs2.
  destruct (Hs1 _ _ Ha) as [Hl1 Hd1]. destruct (Hs2 _ _ Hb) as [Hl2 Hd2].
  unfold MIM.row_loss. simpl. rewrite zip_same_Some by congruence. simpl.
  rewrite <-list_fmap_compose. apply mapM_total. intros [p1 p2] Hp.
  apply list_elem_of_lookup in Hp as [j Hj].
  apply lookup_zip_with_Some in Hj as (x & y & Heq & Hx & Hy). simplify_eq.
  rewrite Forall_lookup in Hd1, Hd2.
  pose proof (Hd1 _ _ Hx). pose proof (Hd2 _ _ Hy).
  apply patch_loss_Num; simpl; [congruence|].
  intros ->. simpl in *. lia.
Qed.

Lemma patch_mses_shape n l d (logits labels : list (list (list Qc))) :
  shape3 n l d logits → shape3 n l d labels →
  shape2 n l (MIM.patch_mses logits labels).
Proof.
  intros [Hn1 Hs1] [Hn2 Hs2]. unfold MIM.patch_mses. split.
  - rewrite length_fmap, length_zip. lia.
  - apply Forall_fmap, Forall_lookup. intros i [r1 r2] Hi. simpl.
    apply lookup_zip_with_Some in Hi as (a & b & Heq & Ha & Hb). simplify_eq.
    rewrite Forall_lookup in Hs1, Hs2.
    destruct (Hs1 _ _ Ha) as [Hl1 _]. destruct (Hs2 _ _ Hb) as [Hl2 _].
    rewrite length_fmap, length_zip. lia.
Qed.

Lemma apply_mask_Num n l (qs mask : list (list Qc)) :
  shape2 n l qs → shape2 n l mask →
  ∃ w, MIM.apply_mask (fmap (M := list) Num <$> qs) mask = Some w ∧
       concat w = Num <$> zip_with Qcmult (concat qs) (concat mask).
Proof.
  intros Hq Hm. pose proof (shape2_rows _ _ _ _ Hq Hm) as Hrows.
  eexists. split; [|by apply concat_weighted].
  unfold MIM.apply_mask. rewrite zip_same_Some.
  2:{ rewrite length_fmap. destruct Hq, Hm. congruence. }
  simpl. apply mapM_total. intros [r1 r2] Hr. simpl.
  apply list_elem_of_lookup in Hr as [i Hi].
  apply lookup_zip_with_Some in Hi as (a & b & Heq & Ha & Hb). simplify_eq.
  rewrite list_lookup_fmap in Ha. destruct (qs !! i) as [q|] eqn:Hqi; [|done].
  simpl in Ha. simplify_eq.
  unfold MIM.mask_row. simpl. rewrite zip_same_Some; [done|].
  rewrite length_fmap. eapply Forall2_lookup_lr in Hrows; eauto.
Qed.

Lemma binary_mask_concat mask :
  MIM.binary_mask mask → Forall (λ x, x = 0 ∨ x = 1) (concat mask).
Proof. intros H. by apply Forall_concat. Qed.

Lemma mim_loss_value n l d (logits labels : list (list (list Qc))) (mask : list (list Qc)) :
  shape3 n l d logits → shape3 n l d labels → shape2 n l mask →
  (0 < d)%nat → MIM.binary_mask mask → 1 ∈ concat mask →
  MIM.mim_loss logits labels mask
    = Some (Num (MIM.masked_mean (MIM.patch_mses logits labels) mask)) ∧
  MIM.masked_mse logits labels mask
    = Some (Num (MIM.masked_mean (MIM.patch_mses logits labels) mask)).
Proof.
  intros Hlog Hlab Hmask Hd Hbin Hone.
  pose proof (patch_mses_shape _ _ _ _ _ Hlog Hlab) as Hqs.
  set (qs := MIM.patch_mses logits labels) in *.
  pose proof (shape2_rows _ _ _ _ Hqs Hmask) as Hrows.
  pose proof (concat_rows_length _ _ Hrows) as Hlen.
  pose proof (binary_mask_concat _ Hbin) as Hbin'.
  destruct (apply_mask_Num _ _ _ _ Hqs Hmask) as (w & Hw & Hcw).
  assert (Qc_of_nat (length (MIM.selected (concat qs) (concat mask))) ≠ 0) as Hk.
  { rewrite Qc_of_nat_0. intros Hz%length_zero_iff_nil.
    by apply (selected_nonempty (concat qs) (concat mask)). }
  unfold MIM.mim_loss, MIM.masked_mse.
  rewrite (per_patch_loss_Num _ _ _ _ _ Hlog Hlab Hd). fold qs. simpl.
  rewrite Hw. simpl. split.
  - rewrite Hcw, sum_scalar_Num, (weighted_sum_selected _ _ Hbin').
    rewrite (mask_sum_selected (concat qs) (concat mask) Hbin' Hlen).
    unfold scalar_div. by rewrite decide_False.
  - unfold MIM.mean_scalar, MIM.removed_losses.
    rewrite concat_Num, selected_Num, sum_scalar_Num, length_fmap.
    unfold scalar_div. by rewrite decide_False.
Qed.

Lemma entry_cons_S {A} (r : list A) (t : list (list A)) i j :
  entry (r :: t) (S i) j = entry t i j.
Proof. done. Qed.

Lemma selected_row_agree (q q' m : list Qc) :
  length q = length m → length q' = length m →
  (∀ j, m !! j = Some 1 → q !! j = q' !! j) →
  MIM.selected q m = MIM.selected q' m.
Proof.
  revert q q'. induction m as [|x m IH]; intros [|y q] [|y' q'] Hl Hl' Hag; try done.
  unfold MIM.selected in *. cbn [zip_with]. simpl in Hl, Hl'.
  assert ((filter (λ e : Qc * Qc, e.2 = 1) (zip q m)).*1
          = (filter (λ e : Qc * Qc, e.2 = 1) (zip q' m)).*1) as Hrest.
  { apply IH; [lia | lia |]. intros j Hj. apply (Hag (S j)). done. }
  destruct (decide (x = 1)) as [->|Hx].
  - rewrite !filter_cons_True by done. rewrite !fmap_cons, Hrest. simpl.
    specialize (Hag 0%nat eq_refl). simpl in Hag. congruence.
  - by rewrite !filter_cons_False by done.
Qed.

Lemma selected_agree n l (qs qs' mask : list (list Qc)) :
  shape2 n l qs → shape2 n l qs' → shape2 n l mask →
  MIM.agree_on_removed mask qs qs' →
  MIM.selected (concat qs) (concat mask) = MIM.selected (concat qs') (concat mask).
Proof.
  revert qs qs' mask. induction n as [|n IH]; intros qs qs' mask Hq Hq' Hm Hag.
  - destruct Hq as [Hq _], Hq' as [Hq' _], Hm as [Hm _].
    apply length_zero_iff_nil in Hq, Hq', Hm. by subst.
  - destruct Hq as [Hq Hrq], Hq' as [Hq' Hrq'], Hm as [Hm Hrm].
    destruct qs as [|q qs]; [done|]. destruct qs' as [|q' qs']; [done|].
    destruct mask as [|m mask]; [done|].
    apply Forall_cons in Hrq as [Hlq Hrq]. apply Forall_cons in Hrq' as [Hlq' Hrq'].
    apply Forall_cons in Hrm as [Hlm Hrm].
    rewrite !concat_cons, !selected_app by congruence. f_equal.
    + apply selected_row_agree; [congruence | congruence |].
      intros j Hj. apply (Hag 0%nat j). done.
    + apply IH; try (split; [simpl in *; lia | done]).
      intros i j Hij. apply (Hag (S i) j). done.
Qed.

Lemma entry_patch_mses (a b : list (list (list Qc))) i j :
  entry (MIM.patch_mses a b) i j
  = x ← entry a i j; y ← entry b i j; Some (MIM.patch_mse x y).
Proof.
  unfold entry, MIM.patch_mses. rewrite list_lookup_fmap, lookup_zip_with.
  destruct (a !! i) as [r|]; [|done]. simpl.
  destruct (b !! i) as [r'|]; simpl.
  - rewrite list_lookup_fmap, lookup_zip_with.
    destruct (r !! j) as [x|]; [|done]. simpl. by destruct (r' !! j).
  - by destruct (r !! j).
Qed.

(** [compute_mim] and [compute_umim] return the loss of lines 85-87 and
    123-125 on the head's logits and the targets, normalised when
    [norm_pix_loss] is set. *)
Lemma compute_mim_loss {Batch Feats Restore : Type}
    (infer : Batch → option bool → option bool → option bool → option bool →
             MIM.infer_out Feats Restore)
    (mim_head : Feats → Restore → list (list (list Qc)))
    (normalize_patch : list Qc → list Qc) (cfg : MIM.config) (batch : Batch) r :
  MIM.compute_mim infer mim_head normalize_patch cfg batch = Some r →
  MIM.mim_loss (MIM.mim_logits r) (MIM.mim_labels r)
    (MIM.mim_masks (infer batch (Some false) (Some true) None None))
    = Some (MIM.mim_loss_out r) ∧
  MIM.mim_labels r
    = MIM.mim_target normalize_patch cfg
        (MIM.patched_images (infer batch (Some false) (Some true) None None)).
Proof.
  unfold MIM.compute_mim. intros H.
  destruct (MIM.select_feats cfg _) as [feats|]; [|done]. simpl in H.
  destruct (MIM.mim_loss _ _ _) as [loss|] eqn:Hl; [|done]. simpl in H.
  by simplify_eq.
Qed.

Lemma compute_umim_loss {Batch Feats Restore : Type}
    (infer : Batch → option bool → option bool → option bool → option bool →
             MIM.infer_out Feats Restore)
    (mim_head : Feats → Restore → list (list (list Qc)))
    (normalize_patch : list Qc → list Qc) (cfg : MIM.config) (batch : Batch) r :
  MIM.compute_umim infer mim_head normalize_patch cfg batch = Some r →
  MIM.umim_loss (MIM.mim_logits r) (MIM.mim_labels r)
    (MIM.mim_masks (infer batch (Some false) (Some true) None (Some true)))
    = Some (MIM.mim_loss_out r) ∧
  MIM.mim_labels r
    = MIM.mim_target normalize_patch cfg
        (MIM.patched_images (infer batch (Some false) (Some true) None (Some true))).
Proof.
  unfold MIM.compute_umim. intros H.
  destruct (MIM.select_feats cfg _) as [feats|]; [|done]. simpl in H.
  destruct (MIM.umim_loss _ _ _) as [loss|] eqn:Hl; [|done]. simpl in H.
  by simplify_eq.
Qed.

(** C3, as stated, fails on a mask with an unmasked element that removes no
    patch at all: there is no removed patch to average over, [mask.sum()] is
    zero and the loss is the NaN of [0/0], not a mean squared error. *)
Lemma mim_loss_nan_without_removed_patch :
  (0 : Qc) ∈ concat [[0 : Qc]] ∧
  MIM.selected (concat (MIM.patch_mses [[[1]]] [[[0]]])) (concat [[0]]) = [] ∧
  MIM.mim_loss [[[1]]] [[[0]]] [[0]] = Some NaN ∧
  MIM.umim_loss [[[1]]] [[[0]]] [[0]] = Some NaN ∧
  ¬ ∃ q, MIM.mim_loss [[[1]]] [[[0]]] [[0]] = Some (Num q).
Proof.
  split; [simpl; apply list_elem_of_here|]. split; [reflexivity|].
  assert (MIM.mim_loss [[[1]]] [[[0]]] [[0]] = Some NaN) as H by reflexivity.
  split; [exact H|]. split; [reflexivity|].
  intros [q Hq]. rewrite H in Hq. discriminate.
Qed.

(** C3, amended: for every 0/1 mask with at least one masked (removed) patch,
    the MIM and the UMIM loss are the squared error between logits and
    targets, averaged over the feature axis of each patch and then averaged
    over the removed patches only; patches that are not removed contribute
    nothing, since changing logits or targets there leaves the loss as it
    is. *)
Theorem mim_loss_masked_mse n l d (logits labels : list (list (list Qc)))
    (mask : list (list Qc)) :
  shape3 n l d logits → shape3 n l d labels → shape2 n l mask →
  (0 < d)%nat → MIM.binary_mask mask → 1 ∈ concat mask →
  MIM.mim_loss logits labels mask
    = Some (Num (MIM.masked_mean (MIM.patch_mses logits labels) mask)) ∧
  MIM.umim_loss logits labels mask = MIM.mim_loss logits labels mask ∧
  MIM.masked_mse logits labels mask = MIM.mim_loss logits labels mask ∧
  ∀ logits' labels',
    shape3 n l d logits' → shape3 n l d labels' →
    MIM.agree_on_removed mask logits logits' →
    MIM.agree_on_removed mask labels labels' →
    MIM.mim_loss logits' labels' mask = MIM.mim_loss logits labels mask ∧
    MIM.umim_loss logits' labels' mask = MIM.umim_loss logits labels mask.
Proof.
  intros Hlog Hlab Hmask Hd Hbin Hone.
  destruct (mim_loss_value _ _ _ _ _ _ Hlog Hlab Hmask Hd Hbin Hone) as [Hv Hs].
  split; [exact Hv|]. split; [reflexivity|]. split; [congruence|].
  intros logits' labels' Hlog' Hlab' Hag1 Hag2.
  destruct (mim_loss_value _ _ _ _ _ _ Hlog' Hlab' Hmask Hd Hbin Hone) as [Hv' _].
  assert (MIM.mim_loss logits' labels' mask = MIM.mim_loss logits labels mask) as He.
  { rewrite Hv, Hv'. do 2 f_equal. unfold MIM.masked_mean.
    rewrite (selected_agree n l (MIM.patch_mses logits' labels')
               (MIM.patch_mses logits labels) mask);
      eauto using patch_mses_shape.
    intros i j Hij. rewrite !entry_patch_mses.
    by rewrite (Hag1 i j Hij), (Hag2 i j Hij). }
  split; [exact He|]. exact He.
Qed.

Lemma mim_loss_masked_mse_witness :
  let logits := [[[1; 1 + 1]; [0; 1]]] in
  let labels := [[[0; 0]; [1; 1]]] in
  let mask := [[0; 1]] in
  (shape3 1 2 2 logits ∧ shape3 1 2 2 labels ∧ shape2 1 2 mask ∧
   (0 < 2)%nat ∧ MIM.binary_mask mask ∧ 1 ∈ concat mask) ∧
  MIM.mim_loss logits labels mask
    = Some (Num (MIM.masked_mean (MIM.patch_mses logits labels) mask)) ∧
  MIM.umim_loss logits labels mask = MIM.mim_loss logits labels mask ∧
  MIM.masked_mse logits labels mask = MIM.mim_loss logits labels mask ∧
  ∀ logits' labels',
    shape3 1 2 2 logits' → shape3 1 2 2 labels' →
    MIM.agree_on_removed mask logits logits' →
    MIM.agree_on_removed mask labels labels' →
    MIM.mim_loss logits' labels' mask = MIM.mim_loss logits labels mask ∧
    MIM.umim_loss logits' labels' mask = MIM.umim_loss logits labels mask.
Proof.
  intros logits labels mask.
  assert (shape3 1 2 2 logits) as H1.
  { split; [reflexivity|]. repeat (constructor; try reflexivity). }
  assert (shape3 1 2 2 labels) as H2.
  { split; [reflexivity|]. repeat (constructor; try reflexivity). }
  assert (shape2 1 2 mask) as H3.
  { split; [reflexivity|]. repeat (constructor; try reflexivity). }
  assert (MIM.binary_mask mask) as H4.
  { constructor; [|constructor].
    constructor; [by left|]. constructor; [by right|]. constructor. }
  assert (1 ∈ concat mask) as H5.
  { simpl. apply list_elem_of_further, list_elem_of_here. }
  assert (0 < 2)%nat as Hd by lia.
  split; [exact (conj H1 (conj H2 (conj H3 (conj Hd (conj H4 H5)))))|].
  exact (mim_loss_masked_mse 1 2 2 logits labels mask H1 H2 H3 Hd H4 H5).
Defined.

(** The loss of the example: only the removed second patch counts, with
    squared errors 1 and 0. *)
Example mim_loss_sample :
  MIM.mim_loss [[[1; 1 + 1]; [0; 1]]] [[[0; 0]; [1; 1]]] [[0; 1]]
  = Some (Num (Q2Qc (1 # 2))).
Proof. reflexivity. Qed.

(** ** Visual question answering: the target matrix *)

Lemma norm_index_lt size l c : VQA.norm_index size l = Some c → (c < size)%nat.
Proof. unfold VQA.norm_index. repeat case_decide; intros; simplify_eq; lia. Qed.

Lemma norm_index_is_Some size l :
  (- Z.of_nat size ≤ l < Z.of_nat size)%Z → is_Some (VQA.norm_index size l).
Proof.
  intros Hl. unfold VQA.norm_index.
  destruct (decide (0 ≤ l < Z.of_nat size)%Z); [by eexists|].
  rewrite decide_True by lia. by eexists.
Qed.

Lemma last_score_cons size c l s (rest : list (Z * Qc)) :
  VQA.last_score size c ((l, s) :: rest)
  = match VQA.last_score size c rest with
    | Some s' => Some s'
    | None => if decide (VQA.norm_index size l = Some c) then Some s else None
    end.
Proof.
  unfold VQA.last_score. destruct (decide (VQA.norm_index size l = Some c)).
  - rewrite filter_cons_True by done. by rewrite fmap_cons, last_cons.
  - rewrite filter_cons_False by done. by destruct (last _).
Qed.

Lemma last_score_snoc size c l s (pairs : list (Z * Qc)) :
  VQA.norm_index size l = Some c →
  VQA.last_score size c (pairs ++ [(l, s)]) = Some s.
Proof.
  intros Hl. unfold VQA.last_score.
  rewrite filter_app, filter_cons_True by done.
  rewrite filter_nil, fmap_app. apply last_snoc.
Qed.

Lemma assign_inv t i l s t' :
  VQA.assign t i l s = Some t' →
  ∃ row c, t !! i = Some row ∧ VQA.norm_index (length row) l = Some c ∧
           t' = <[i := <[c := s]> row]> t.
Proof.
  unfold VQA.assign. intros H.
  destruct (t !! i) as [row|] eqn:Hrow; [|done]. simpl in H.
  destruct (VQA.norm_index (length row) l) as [c|] eqn:Hc; [|done]. simpl in H.
  exists row, c. by simplify_eq.
Qed.

(** The writes of one example: other rows stay, and each cell of row [i]
    holds the score of the last pair that addresses it, if any. *)
Lemma scatter_pairs_spec pairs : ∀ t i t',
  VQA.scatter_pairs t i pairs = Some t' →
  length t' = length t ∧
  (∀ i', i' ≠ i → t' !! i' = t !! i') ∧
  (∀ row, t !! i = Some row →
     ∃ row', t' !! i = Some row' ∧ length row' = length row ∧
       ∀ c, row' !! c = match VQA.last_score (length row) c pairs with
                        | Some s => Some s
                        | None => row !! c
                        end).
Proof.
  induction pairs as [|[l s] rest IH]; intros t i t' H.
  - simpl in H. simplify_eq. split; [done|]. split; [done|].
    intros row Hrow. exists row. done.
  - simpl in H. destruct (VQA.assign t i l s) as [t1|] eqn:Ha; [|done].
    simpl in H. apply assign_inv in Ha as (row0 & c0 & Hrow0 & Hc0 & ->).
    destruct (IH _ _ _ H) as (Hlen & Hother & Hrow).
    rewrite length_insert in Hlen. split; [done|]. split.
    { intros i' Hne. rewrite Hother by done. by rewrite list_lookup_insert_ne. }
    intros row Hr. assert (row = row0) as -> by congruence.
    destruct (Hrow (<[c0 := s]> row0)) as (row' & Hr' & Hl' & Hcells).
    { apply list_lookup_insert_eq. by eapply lookup_lt_Some. }
    rewrite length_insert in Hl', Hcells.
    exists row'. split; [done|]. split; [done|].
    intros c. rewrite Hcells, last_score_cons.
    destruct (VQA.last_score (length row0) c rest); [done|].
    pose proof (norm_index_lt _ _ _ Hc0) as Hlt.
    destruct (decide (VQA.norm_index (length row0) l = Some c)) as [He|Hne].
    + assert (c0 = c) as -> by congruence. by apply list_lookup_insert_eq.
    + apply list_lookup_insert_ne. congruence.
Qed.

Lemma scatter_pairs_total pairs : ∀ t i row,
  t !! i = Some row →
  Forall (λ p, - Z.of_nat (length row) ≤ p.1 < Z.of_nat (length row))%Z pairs →
  is_Some (VQA.scatter_pairs t i pairs).
Proof.
  induction pairs as [|[l s] rest IH]; intros t i row Hrow Hp; [by eexists|].
  apply Forall_cons in Hp as [Hl Hrest]. simpl in Hl.
  destruct (norm_index_is_Some _ _ Hl) as [c Hc].
  simpl. unfold VQA.assign. rewrite Hrow. simpl. rewrite Hc. simpl.
  apply (IH _ _ (<[c := s]> row)).
  - apply list_lookup_insert_eq. by eapply lookup_lt_Some.
  - by rewrite length_insert.
Qed.

Lemma scatter_pairs_shape n size t i pairs t' :
  shape2 n size t → VQA.scatter_pairs t i pairs = Some t' → shape2 n size t'.
Proof.
  intros [Hn Hrows] Hs. destruct (scatter_pairs_spec _ _ _ _ Hs) as (Hlen & Hother & Hrow).
  split; [congruence|]. apply Forall_lookup. intros j r Hj.
  rewrite Forall_lookup in Hrows. destruct (decide (j = i)) as [->|Hne].
  - destruct (lookup_lt_is_Some_2 t i) as [row Hr].
    { rewrite <-Hlen. by eapply lookup_lt_Some. }
    destruct (Hrow row Hr) as (row' & Hr' & Hl' & _).
    assert (r = row') as -> by congruence. rewrite Hl'. by eapply Hrows.
  - rewrite Hother in Hj by done. by eapply Hrows.
Qed.

Lemma scatter_from_spec examples : ∀ t i0 t',
  VQA.scatter_from t i0 examples = Some t' →
  length t' = length t ∧
  ∀ i row, t !! i = Some row →
    ∃ row', t' !! i = Some row' ∧ length row' = length row ∧
      ∀ c, row' !! c
           = match VQA.last_score (length row) c
                     (if decide (i0 ≤ i)%nat
                      then match examples !! (i - i0)%nat with
                           | Some (ls, ss) => zip ls ss
                           | None => []
                           end
                      else []) with
             | Some s => Some s
             | None => row !! c
             end.
Proof.
  induction examples as [|[ls ss] rest IH]; intros t i0 t' H.
  - simpl in H. simplify_eq. split; [done|]. intros i row Hrow.
    exists row. split; [done|]. split; [done|]. intros c.
    by destruct (decide (i0 ≤ i)%nat).
  - simpl in H. destruct (VQA.scatter_pairs t i0 (zip ls ss)) as [t1|] eqn:H1; [|done].
    simpl in H. destruct (scatter_pairs_spec _ _ _ _ H1) as (Hlen1 & Hother & Hrow1).
    destruct (IH _ _ _ H) as (Hlen & Hcells). split; [congruence|].
    intros i row Hrow. destruct (decide (i = i0)) as [->|Hne].
    + destruct (Hrow1 row Hrow) as (row1 & Hr1 & Hl1 & Hc1).
      destruct (Hcells i0 row1 Hr1) as (row' & Hr' & Hl' & Hc').
      exists row'. split; [done|]. split; [congruence|]. intros c.
      rewrite Hc'. rewrite decide_False by lia. rewrite decide_True by lia.
      rewrite Nat.sub_diag. simpl. by rewrite Hc1.
    + rewrite <-Hother in Hrow by done.
      destruct (Hcells i row Hrow) as (row' & Hr' & Hl' & Hc').
      exists row'. split; [done|]. split; [done|]. intros c. rewrite Hc'.
      destruct (decide (S i0 ≤ i)%nat) as [Hle|Hgt].
      * rewrite decide_True by lia.
        replace (i - i0)%nat with (S (i - S i0)) by lia. done.
      * rewrite decide_False by lia. done.
Qed.

Lemma scatter_from_total size examples : ∀ t i0,
  (i0 + length examples ≤ length t)%nat →
  Forall (λ r, length r = size) t →
  Forall (λ e : list Z * list Qc,
            Forall (λ l, - Z.of_nat size ≤ l < Z.of_nat size)%Z e.1) examples →
  is_Some (VQA.scatter_from t i0 examples).
Proof.
  induction examples as [|[ls ss] rest IH]; intros t i0 Hlen Hrows Hex; [by eexists|].
  apply Forall_cons in Hex as [Hls Hrest]. simpl in *.
  destruct (lookup_lt_is_Some_2 t i0) as [row Hrow]; [lia|].
  assert (length row = size) as Hsize.
  { rewrite Forall_lookup in Hrows. by eapply Hrows. }
  destruct (scatter_pairs_total (zip ls ss) t i0 row Hrow) as [t1 Ht1].
  { rewrite Hsize. apply Forall_lookup. intros j [l s] Hj. simpl.
    apply lookup_zip_with_Some in Hj as (a & b & Heq & Ha & Hb). simplify_eq.
    rewrite Forall_lookup in Hls. by eapply Hls. }
  rewrite Ht1. simpl.
  destruct (scatter_pairs_shape (length t) size t i0 (zip ls ss) t1) as [Hn1 Hr1];
    [done | done |].
  apply IH; [lia | done | done].
Qed.

(** The targets that [compute_vqa] returns are those of lines 212-220, for as
    many rows as the head gives logits. *)
Lemma compute_vqa_targets {Payload Feats : Type}
    (infer_cls : VQA.vqa_batch Payload → option bool → option bool → option bool →
                 option bool → option Feats)
    (vqa_head : Feats → list (list Qc))
    (bce_with_logits : list (list Qc) → list (list Qc) → option scalar)
    (label_size : nat) (batch : VQA.vqa_batch Payload) r :
  VQA.compute_vqa infer_cls vqa_head bce_with_logits label_size batch = Some r →
  VQA.vqa_targets (length (VQA.vqa_logits r)) label_size (VQA.vqa_labels batch)
    (VQA.vqa_scores batch) = Some (VQA.vqa_targets_out r).
Proof.
  unfold VQA.compute_vqa. intros H.
  destruct (infer_cls batch _ _ _ _) as [feats|]; [|done]. simpl in H.
  destruct (VQA.vqa_targets _ _ _ _) as [t|] eqn:Ht; [|done]. simpl in H.
  destruct (bce_with_logits _ _) as [bce|]; [|done]. simpl in H.
  by simplify_eq.
Qed.

(** C2, as stated, fails: one example with the pairs (0, 1) and (0, 1/2)
    leaves 1/2 in cell 0, not the sum 3/2. *)
Lemma vqa_scatter_does_not_sum :
  VQA.vqa_targets 1 2 [[0; 0]%Z] [[1; Q2Qc (1 # 2)]] = Some [[Q2Qc (1 # 2); 0]] ∧
  VQA.summed_score 2 0 (VQA.example_pairs [[0; 0]%Z] [[1; Q2Qc (1 # 2)]] 0)
    = Q2Qc (3 # 2) ∧
  entry [[Q2Qc (1 # 2); 0]] 0 0
    ≠ Some (VQA.summed_score 2 0 (VQA.example_pairs [[0; 0]%Z] [[1; Q2Qc (1 # 2)]] 0)).
Proof.
  split; [reflexivity|].
  assert (VQA.summed_score 2 0 (VQA.example_pairs [[0; 0]%Z] [[1; Q2Qc (1 # 2)]] 0)
          = Q2Qc (3 # 2)) as H.
  { apply Qc_is_canon. reflexivity. }
  split; [exact H|]. rewrite H. simpl. intros Heq. discriminate.
Qed.

(** C2, amended: in [compute_vqa] the pairs of one example are written by
    assignment.  When the examples fit the rows and every label is a valid
    index, the target matrix is built, and each cell holds the score of the
    last pair of its example that addresses it (0 if there is none): a later
    pair overwrites an earlier one, the scores are not added. *)
Theorem vqa_targets_last_write rows size (labels : list (list Z))
    (scores : list (list Qc)) :
  (length (zip labels scores) ≤ rows)%nat →
  Forall (Forall (λ l, - Z.of_nat size ≤ l < Z.of_nat size)%Z) labels →
  ∃ t, VQA.vqa_targets rows size labels scores = Some t ∧
       shape2 rows size t ∧
       (∀ i c, (i < rows)%nat → (c < size)%nat →
          entry t i c
          = Some (default 0 (VQA.last_score size c (VQA.example_pairs labels scores i)))) ∧
       (∀ pairs l s c, VQA.norm_index size l = Some c →
          VQA.last_score size c (pairs ++ [(l, s)]) = Some s).
Proof.
  intros Hlen Hlab. unfold VQA.vqa_targets.
  assert (shape2 rows size (VQA.zeros rows size)) as Hz.
  { unfold VQA.zeros. split; [by rewrite length_replicate|].
    apply Forall_replicate. by rewrite length_replicate. }
  destruct (scatter_from_total size (zip labels scores) (VQA.zeros rows size) 0)
    as [t Ht].
  { destruct Hz as [-> _]. simpl. lia. }
  { by destruct Hz. }
  { apply Forall_lookup. intros j [ls ss] Hj. simpl.
    apply lookup_zip_with_Some in Hj as (a & b & Heq & Ha & Hb). simplify_eq.
    rewrite Forall_lookup in Hlab. by eapply Hlab. }
  exists t. split; [done|].
  destruct (scatter_from_spec _ _ _ _ Ht) as (Hl & Hcells).
  split; [|split].
  - split; [destruct Hz; congruence|]. apply Forall_lookup. intros j r Hj.
    destruct (lookup_lt_is_Some_2 (VQA.zeros rows size) j) as [row Hrow].
    { rewrite <-Hl. by eapply lookup_lt_Some. }
    destruct (Hcells j row Hrow) as (row' & Hr' & Hl' & _).
    assert (r = row') as -> by congruence. rewrite Hl'.
    destruct Hz as [_ Hzr]. rewrite Forall_lookup in Hzr. by eapply Hzr.
  - intros i c Hi Hc.
    assert (VQA.zeros rows size !! i = Some (replicate size 0)) as Hrow.
    { unfold VQA.zeros. by apply lookup_replicate_2. }
    destruct (Hcells i _ Hrow) as (row' & Hr' & _ & Hcell).
    unfold entry. rewrite Hr'. simpl. rewrite Hcell, length_replicate.
    rewrite decide_True by lia. rewrite Nat.sub_0_r.
    unfold VQA.example_pairs.
    destruct (VQA.last_score size c _); [done|]. simpl.
    by apply lookup_replicate_2.
  - intros pairs l s c. apply last_score_snoc.
Qed.

Lemma vqa_targets_last_write_witness :
  ((length (zip VQA.sample_labels VQA.sample_scores) ≤ 1)%nat ∧
   Forall (Forall (λ l, - Z.of_nat 2 ≤ l < Z.of_nat 2)%Z) VQA.sample_labels) ∧
  ∃ t, VQA.vqa_targets 1 2 VQA.sample_labels VQA.sample_scores = Some t ∧
       shape2 1 2 t ∧
       (∀ i c, (i < 1)%nat → (c < 2)%nat →
          entry t i c
          = Some (default 0 (VQA.last_score 2 c
                    (VQA.example_pairs VQA.sample_labels VQA.sample_scores i)))) ∧
       (∀ pairs l s c, VQA.norm_index 2 l = Some c →
          VQA.last_score 2 c (pairs ++ [(l, s)]) = Some s).
Proof.
  assert (length (zip VQA.sample_labels VQA.sample_scores) ≤ 1)%nat as H1.
  { simpl. lia. }
  assert (Forall (Forall (λ l, - Z.of_nat 2 ≤ l < Z.of_nat 2)%Z) VQA.sample_labels)
    as H2.
  { repeat (constructor; try (simpl; lia)). }
  split; [exact (conj H1 H2)|].
  exact (vqa_targets_last_write 1 2 VQA.sample_labels VQA.sample_scores H1 H2).
Defined.

Example vqa_targets_sample :
  VQA.vqa_targets 1 2 VQA.sample_labels VQA.sample_scores
  = Some [[Q2Qc (1 # 2); 1]].
Proof. reflexivity. Qed.

(** ** Cross entropy *)

Lemma filter_all {A} (P : A → Prop) `{∀ x, Decision (P x)} (l : list A) :
  Forall P l → filter P l = l.
Proof.
  induction 1 as [|x l Hx _ IH]; [done|]. by rewrite filter_cons_True, IH.
Qed.

(** The loss is returned exactly when there is one target per row and every
    target is the ignored index or a class of its row. *)
Lemma cross_entropy_is_Some nll ignore (logits : list (list Qc)) (targets : list Z) :
  is_Some (cross_entropy nll ignore logits targets) ↔
  length logits = length targets ∧ ce_valid ignore (zip logits targets).
Proof.
  unfold cross_entropy, zip_same. case_decide as Hlen; simpl.
  - case_decide as Hv.
    + split; [done|by eexists].
    + split; [by intros [? ?]|by intros [_ ?]].
  - split; [by intros [? ?]|by intros [? _]].
Qed.

Lemma cross_entropy_value nll ignore (logits : list (list Qc)) (targets : list Z) :
  length logits = length targets → ce_valid ignore (zip logits targets) →
  cross_entropy nll ignore logits targets
  = Some (tensor_mean ((λ p, nll p.1 p.2) <$> ce_kept ignore (zip logits targets))).
Proof.
  intros Hlen Hv. unfold cross_entropy. rewrite zip_same_Some by done.
  cbn [mbind option_bind]. by rewrite decide_True.
Qed.

Lemma ce_valid_classes ignore (logits : list (list Qc)) (targets : list Z) :
  (∀ i row y, logits !! i = Some row → targets !! i = Some y →
     y = ignore ∨ (0 ≤ y < Z.of_nat (length row))%Z) →
  ce_valid ignore (zip logits targets).
Proof.
  intros H. apply Forall_lookup. intros i [row y] Hi. simpl.
  apply lookup_zip_with_Some in Hi as (a & b & [= <- <-] & Ha & Hb). by eapply H.
Qed.

Lemma ce_valid_uniform ignore V (logits : list (list Qc)) (targets : list Z) :
  Forall (λ row, length row = V) logits →
  Forall (λ y, y = ignore ∨ (0 ≤ y < Z.of_nat V)%Z) targets →
  ce_valid ignore (zip logits targets).
Proof.
  intros Hrows Hys. apply ce_valid_classes. intros i row y Hrow Hy.
  rewrite Forall_lookup in Hrows. rewrite (Hrows _ _ Hrow).
  rewrite Forall_lookup in Hys. by eapply Hys.
Qed.

(** Without ignored targets, the loss is the plain mean of the per-row
    negative log-likelihoods. *)
Lemma cross_entropy_mean nll ignore (logits : list (list Qc)) (targets : list Z) :
  length logits = length targets →
  Forall (λ y, y ≠ ignore) targets →
  ce_valid ignore (zip logits targets) →
  logits ≠ [] →
  cross_entropy nll ignore logits targets
  = Some (Num (sum_Qc ((λ p, nll p.1 p.2) <$> zip logits targets)
               / Qc_of_nat (length logits))).
Proof.
  intros Hlen Hall Hv Hne. rewrite cross_entropy_value by done. unfold ce_kept.
  rewrite filter_all.
  2:{ apply Forall_lookup. intros i [r y] Hi. simpl.
      apply lookup_zip_with_Some in Hi as (a & b & Heq & Ha & Hb). simplify_eq.
      rewrite Forall_lookup in Hall. by eapply Hall. }
  unfold tensor_mean, scalar_div. rewrite length_fmap, length_zip.
  rewrite <-Hlen, Nat.min_id. rewrite decide_False; [done|].
  rewrite Qc_of_nat_0. by destruct logits.
Qed.

(** ** Image-text contrastive *)

Lemma arange_lookup n i : (i < n)%nat → ITC.arange n !! i = Some (Z.of_nat i).
Proof.
  intros Hi. unfold ITC.arange. rewrite list_lookup_fmap, lookup_seq_lt by done.
  done.
Qed.

Lemma arange_length n : length (ITC.arange n) = n.
Proof. unfold ITC.arange. by rewrite length_fmap, length_seq. Qed.

Lemma arange_not_ignored n : Forall (λ y, y ≠ (-100)%Z) (ITC.arange n).
Proof.
  unfold ITC.arange. apply Forall_fmap, Forall_forall. intros i _. simpl. lia.
Qed.

Lemma Qc_two_ne_zero : (2 : Qc) ≠ 0.
Proof. discriminate. Qed.

Lemma arange_valid (lg : list (list Qc)) N :
  Forall (λ row, N ≤ length row)%nat lg → ce_valid (-100) (zip lg (ITC.arange N)).
Proof.
  intros Hcols. apply ce_valid_classes. intros i row y Hrow Hy. right.
  unfold ITC.arange in Hy. rewrite list_lookup_fmap in Hy.
  destruct (seq 0 N !! i) as [j|] eqn:Hj; [|done].
  apply lookup_seq in Hj as [-> Hlt]. simpl in Hy. injection Hy as <-.
  rewrite Forall_lookup in Hcols. specialize (Hcols _ _ Hrow). simpl in Hcols. lia.
Qed.

(** C5: for a batch whose two in-batch logit matrices have [N] rows, each
    with a logit for every one of the [N] examples, the ground truth of both
    directions is the sequence 0..N-1, whatever the features, and the
    returned loss is the arithmetic mean of the image-to-text and the
    text-to-image cross entropy against it. *)
Theorem itc_identity_labels {Batch Feats : Type}
    (infer_cls : Batch → option bool → option bool → option bool → option bool →
                 option Feats)
    (itc_head : Feats → Feats → list (list Qc) * list (list Qc))
    (nll : list Qc → Z → Qc) (batch : Batch) (image_feats text_feats : Feats)
    (N : nat) :
  infer_cls batch None None None (Some true) = Some image_feats →
  infer_cls batch None None (Some true) None = Some text_feats →
  length (itc_head image_feats text_feats).1 = N →
  length (itc_head image_feats text_feats).2 = N →
  Forall (λ row, N ≤ length row)%nat (itc_head image_feats text_feats).1 →
  Forall (λ row, N ≤ length row)%nat (itc_head image_feats text_feats).2 →
  ∃ r loss_image loss_text,
    ITC.compute_itc infer_cls itc_head nll batch = Some r ∧
    ITC.itc_labels r = Z.of_nat <$> seq 0 N ∧
    (∀ i, (i < N)%nat → ITC.itc_labels r !! i = Some (Z.of_nat i)) ∧
    cross_entropy nll (-100) (itc_head image_feats text_feats).1 (ITC.itc_labels r)
      = Some loss_image ∧
    cross_entropy nll (-100) (itc_head image_feats text_feats).2 (ITC.itc_labels r)
      = Some loss_text ∧
    ITC.itc_loss r = scalar_div (scalar_add loss_image loss_text) (Num 2) ∧
    (∀ a b, loss_image = Num a → loss_text = Num b →
       ITC.itc_loss r = Num ((a + b) / 2)) ∧
    ((0 < N)%nat → ∃ a b, loss_image = Num a ∧ loss_text = Num b).
Proof.
  intros Hi Ht Hn1 Hn2 Hc1 Hc2.
  assert (∀ lg : list (list Qc), length lg = N →
            Forall (λ row, N ≤ length row)%nat lg →
            ∃ l, cross_entropy nll (-100) lg (ITC.arange N) = Some l ∧
                 ((0 < N)%nat → ∃ a, l = Num a)) as Hce.
  { intros lg Hlg Hcols. pose proof (arange_valid lg N Hcols) as Hv.
    destruct (decide (N = 0)%nat) as [->|HN].
    - rewrite cross_entropy_value by (by rewrite ?arange_length).
      eexists. split; [reflexivity|]. lia.
    - rewrite cross_entropy_mean;
        [|by rewrite arange_length | apply arange_not_ignored | done
         | intros ->; simpl in Hlg; lia].
      eexists. split; [reflexivity|]. eauto. }
  destruct (Hce _ Hn1 Hc1) as (li & Hli & Hfi).
  destruct (Hce _ Hn2 Hc2) as (lt & Hlt & Hft).
  unfold ITC.compute_itc. rewrite Hi, Ht. cbn -[cross_entropy ITC.arange].
  rewrite Hn1, Hli. cbn -[cross_entropy ITC.arange]. rewrite Hlt.
  cbn -[cross_entropy ITC.arange].
  eexists _, li, lt. split; [reflexivity|]. cbn -[cross_entropy ITC.arange].
  split; [reflexivity|]. split; [intros i Hlt'; by apply arange_lookup|].
  split; [exact Hli|]. split; [exact Hlt|]. split; [reflexivity|]. split.
  - intros a b -> ->. unfold scalar_add, scalar_div.
    by rewrite decide_False by apply Qc_two_ne_zero.
  - intros HN. destruct (Hfi HN) as [a ->]. destruct (Hft HN) as [b ->]. eauto.
Qed.

Lemma itc_identity_labels_witness :
  (ITC.sample_infer_cls () None None None (Some true) = Some [[1; 0]; [0; 1]] ∧
   ITC.sample_infer_cls () None None (Some true) None = Some [[1; 1]; [0; 0]] ∧
   length (ITC.sample_head [[1; 0]; [0; 1]] [[1; 1]; [0; 0]]).1 = 2%nat ∧
   length (ITC.sample_head [[1; 0]; [0; 1]] [[1; 1]; [0; 0]]).2 = 2%nat ∧
   Forall (λ row, 2 ≤ length row)%nat
     (ITC.sample_head [[1; 0]; [0; 1]] [[1; 1]; [0; 0]]).1 ∧
   Forall (λ row, 2 ≤ length row)%nat
     (ITC.sample_head [[1; 0]; [0; 1]] [[1; 1]; [0; 0]]).2) ∧
  ∃ r loss_image loss_text,
    ITC.compute_itc ITC.sample_infer_cls ITC.sample_head ITC.sample_nll () = Some r ∧
    ITC.itc_labels r = Z.of_nat <$> seq 0 2 ∧
    (∀ i, (i < 2)%nat → ITC.itc_labels r !! i = Some (Z.of_nat i)) ∧
    cross_entropy ITC.sample_nll (-100)
      (ITC.sample_head [[1; 0]; [0; 1]] [[1; 1]; [0; 0]]).1 (ITC.itc_labels r)
      = Some loss_image ∧
    cross_entropy ITC.sample_nll (-100)
      (ITC.sample_head [[1; 0]; [0; 1]] [[1; 1]; [0; 0]]).2 (ITC.itc_labels r)
      = Some loss_text ∧
    ITC.itc_loss r = scalar_div (scalar_add loss_image loss_text) (Num 2) ∧
    (∀ a b, loss_image = Num a → loss_text = Num b →
       ITC.itc_loss r = Num ((a + b) / 2)) ∧
    ((0 < 2)%nat → ∃ a b, loss_image = Num a ∧ loss_text = Num b).
Proof.
  assert (Forall (λ row : list Qc, 2 ≤ length row)%nat
            (ITC.sample_head [[1; 0]; [0; 1]] [[1; 1]; [0; 0]]).1) as H1.
  { repeat (constructor; [simpl; lia|]). constructor. }
  assert (Forall (λ row : list Qc, 2 ≤ length row)%nat
            (ITC.sample_head [[1; 0]; [0; 1]] [[1; 1]; [0; 0]]).2) as H2.
  { repeat (constructor; [simpl; lia|]). constructor. }
  split; [exact (conj eq_refl (conj eq_refl (conj eq_refl (conj eq_refl
                   (conj H1 H2)))))|].
  exact (itc_identity_labels ITC.sample_infer_cls ITC.sample_head ITC.sample_nll ()
           [[1; 0]; [0; 1]] [[1; 1]; [0; 0]] 2 eq_refl eq_refl eq_refl eq_refl H1 H2).
Defined.

(** A head whose logit rows are shorter than the batch makes the code
    raise: with three rows of two logits, target 2 is not a class. *)
Example itc_short_rows_raise :
  ITC.compute_itc ITC.sample_infer_cls
    (λ _ _ : list (list Qc), ([[1; 0]; [0; 1]; [1; 1]], [[1; 0]; [0; 1]; [1; 1]]))
    ITC.sample_nll () = None.
Proof. reflexivity. Qed.

(** On the sample the image direction is matched exactly (loss 0) and the
    text direction misses the second row (loss 1/2); their mean is 1/4. *)
Example itc_loss_sample :
  ITC.itc_loss <$>
    ITC.compute_itc ITC.sample_infer_cls ITC.sample_head ITC.sample_nll ()
  = Some (Num (Q2Qc (1 # 4))).
Proof. vm_compute. do 2 f_equal; try by apply Qc_is_canon. Qed.

(** ** Conditional language modelling: the shifted loss *)

Lemma omap_seq_shift {A B} (l : list A) (k : list B) n :
  omap (λ t, a ← l !! t; b ← k !! S t; Some (a, b)) (seq 0 n)
  = take n (zip l (drop 1 k)).
Proof.
  induction n as [|n IH]; [done|].
  rewrite seq_S, omap_app, IH. simpl.
  destruct (zip l (drop 1 k) !! n) as [[a b]|] eqn:Hz.
  - rewrite (take_S_r _ _ _ Hz).
    apply lookup_zip_with_Some in Hz as (a' & b' & Heq & Ha & Hb). simplify_eq.
    rewrite lookup_drop in Hb. simpl in Hb. rewrite Ha. simpl. rewrite Hb. done.
  - apply lookup_ge_None in Hz. rewrite !take_ge by lia.
    rewrite length_zip, length_drop in Hz.
    destruct (l !! n) as [a|] eqn:Ha; simpl.
    + apply lookup_lt_Some in Ha.
      destruct (k !! S n) as [b|] eqn:Hb; simpl; [|by rewrite app_nil_r].
      apply lookup_lt_Some in Hb. lia.
    + by rewrite app_nil_r.
Qed.

Lemma shifted_row (lg : list (list Qc)) (ids : list Z) :
  length lg = length ids →
  zip (CLM.drop_last lg) (drop 1 ids) = CLM.shifted_pairs_of lg ids.
Proof.
  intros Hlen. unfold CLM.shifted_pairs_of, CLM.drop_last.
  rewrite omap_seq_shift. rewrite (take_ge (zip lg (drop 1 ids))).
  2:{ rewrite length_zip, length_drop. lia. }
  apply zip_with_take_l'. rewrite length_drop. lia.
Qed.

Lemma zip_concat {A B} (a : list (list A)) (b : list (list B)) :
  Forall2 (λ x y, length x = length y) a b →
  zip (concat a) (concat b) = concat (zip_with zip a b).
Proof.
  induction 1 as [|x y a b Hxy _ IH]; [done|].
  simpl. by rewrite zip_with_app, IH.
Qed.

Lemma shifted_rows_lengths (logits : list (list (list Qc))) (ids : list (list Z)) :
  Forall2 (λ lg id, length lg = length id) logits ids →
  Forall2 (λ x y, length x = length y) (CLM.shift_logits logits) (CLM.shift_labels ids).
Proof.
  intros H. unfold CLM.shift_logits, CLM.shift_labels.
  apply Forall2_fmap. eapply Forall2_impl; [exact H|].
  intros lg id Hl. simpl in Hl. unfold CLM.drop_last.
  rewrite length_take, length_drop. lia.
Qed.

Lemma shifted_all (logits : list (list (list Qc))) (ids : list (list Z)) :
  Forall2 (λ lg id, length lg = length id) logits ids →
  zip (concat (CLM.shift_logits logits)) (concat (CLM.shift_labels ids))
  = CLM.shifted_pairs logits ids.
Proof.
  intros H. rewrite zip_concat by by apply shifted_rows_lengths.
  unfold CLM.shifted_pairs, CLM.shift_logits, CLM.shift_labels. f_equal.
  induction H as [|lg id logits ids Hl _ IH]; [done|].
  rewrite !fmap_cons. cbn [zip_with]. rewrite fmap_cons, IH. f_equal.
  by apply shifted_row.
Qed.

Lemma shifted_pairs_elem (logits : list (list (list Qc))) (ids : list (list Z)) p :
  p ∈ CLM.shifted_pairs logits ids ↔
  ∃ b t lg id, logits !! b = Some lg ∧ ids !! b = Some id ∧
               lg !! t = Some p.1 ∧ id !! S t = Some p.2.
Proof.
  unfold CLM.shifted_pairs. rewrite list_elem_of_In, in_concat.
  setoid_rewrite <-list_elem_of_In. split.
  - intros (l & Hl & Hp). apply list_elem_of_fmap in Hl as ([lg id] & -> & Hz).
    apply list_elem_of_lookup in Hz as [b Hb].
    apply lookup_zip_with_Some in Hb as (x & y & Heq & Hx & Hy).
    injection Heq as -> ->.
    simpl in Hp. unfold CLM.shifted_pairs_of in Hp.
    apply list_elem_of_omap in Hp as (t & _ & Ht).
    destruct (x !! t) as [row|] eqn:Hrow; [|done]. simpl in Ht.
    destruct (y !! S t) as [z|] eqn:Hy'; [|done]. simpl in Ht. simplify_eq.
    exists b, t, x, y. done.
  - intros (b & t & lg & id & Hlg & Hid & Hrow & Hy).
    exists (CLM.shifted_pairs_of lg id). split.
    + apply list_elem_of_fmap. exists (lg, id). split; [done|].
      apply list_elem_of_lookup. exists b. apply lookup_zip_with_Some. eauto.
    + unfold CLM.shifted_pairs_of. apply list_elem_of_omap. exists t. split.
      * apply elem_of_seq. apply lookup_lt_Some in Hy. lia.
      * rewrite Hrow. simpl. rewrite Hy. simpl. by destruct p.
Qed.

Lemma clm_loss_of_shifted (nll : list Qc → Z → Qc) (pad_token_id : Z)
    (logits : list (list (list Qc))) (ids : list (list Z)) :
  Forall2 (λ lg id, length lg = length id) logits ids →
  Forall (Forall (λ row, 0 < length row)%nat) logits →
  ce_valid pad_token_id (CLM.shifted_pairs logits ids) →
  CLM.clm_loss_of nll pad_token_id (CLM.shift_logits logits) (CLM.shift_labels ids)
    = Some (tensor_mean ((λ p, nll p.1 p.2) <$>
              filter (λ p, p.2 ≠ pad_token_id) (CLM.shifted_pairs logits ids))).
Proof.
  intros Hshape Hvocab Hvalid. unfold CLM.clm_loss_of.
  pose proof (shifted_rows_lengths _ _ Hshape) as Hrows.
  rewrite decide_True.
  2:{ apply Forall_concat. unfold CLM.shift_logits. apply Forall_fmap.
      eapply Forall_impl; [exact Hvocab|]. simpl. intros lg Hlg.
      unfold CLM.drop_last. by apply Forall_take. }
  rewrite cross_entropy_value.
  - unfold ce_kept. by rewrite shifted_all.
  - by apply concat_rows_length.
  - by rewrite shifted_all.
Qed.

Lemma labels_in_vocab_valid (pad_token_id : Z) (logits : list (list (list Qc)))
    (ids : list (list Z)) :
  CLM.labels_in_vocab pad_token_id logits ids ↔
  ce_valid pad_token_id (CLM.shifted_pairs logits ids).
Proof.
  unfold ce_valid. rewrite Forall_forall. split.
  - intros H p Hp. apply shifted_pairs_elem in Hp as (b & t & lg & id & ? & ? & ? & ?).
    by eapply H.
  - intros H b t lg id row y Hlg Hid Hrow Hy.
    apply (H (row, y)). apply shifted_pairs_elem. by exists b, t, lg, id.
Qed.

Lemma fix_empty_spec (text : string) :
  CLM.fix_empty text = if decide (text = "") then CLM.fallback else text.
Proof.
  unfold CLM.fix_empty. destruct text as [|c text].
  - rewrite decide_False by (simpl; lia). by rewrite decide_True.
  - rewrite decide_True by (simpl; lia). by rewrite decide_False.
Qed.

Lemma fix_empty_nonempty (text : string) : CLM.fix_empty text ≠ "".
Proof. rewrite fix_empty_spec. by case_decide. Qed.

Lemma index_select_total {A} (x : list A) (idx : list nat) :
  Forall (λ j, j < length x)%nat idx → is_Some (index_select x idx).
Proof.
  intros H. unfold index_select. apply mapM_is_Some.
  eapply Forall_impl; [exact H|]. intros j Hj. by apply lookup_lt_is_Some_2.
Qed.

Lemma expanded_idx_bound bs num_beams :
  Forall (λ j, j < bs)%nat (CLM.expanded_idx bs num_beams).
Proof.
  unfold CLM.expanded_idx. apply Forall_concat, Forall_fmap, Forall_forall.
  intros b Hb%elem_of_seq. simpl. apply Forall_replicate. lia.
Qed.

(** [torch.cat] along the token axis returns exactly when the batch axes
    agree and all token vectors have one width. *)
Lemma cat_dim1_is_Some {A} (a b : list (list (list A))) :
  is_Some (CLM.cat_dim1 a b) ↔
  length a = length b ∧ CLM.same_width (concat (a ++ b)).
Proof.
  unfold CLM.cat_dim1, zip_same. split.
  - intros [enc H]. destruct (decide (length a = length b)) as [Hlen|]; [|done].
    simpl in H. destruct (decide (CLM.same_width (concat (a ++ b)))); [by split|done].
  - intros [Hlen Hw]. rewrite decide_True by done. simpl.
    rewrite decide_True by done. eauto.
Qed.

Section clm_generation.
Context {Payload : Type}.
Variable lower : string → string.
Variable infer :
  CLM.clm_batch Payload → option bool → option bool → option bool → option bool →
  CLM.infer_out.
Variable clm_proj : list (list (list Qc)) → list (list (list Qc)).
Variable clm_tokenizer : list string → nat → CLM.tokenized.
Variable pad_token_id cls_token_id : Z.
Variable clm_head : list (list Z) → list (list Z) → list (list (list Qc)) →
                    list (list (list Qc)).
Variable generate : list (list Z) → list (list (list Qc)) → nat → bool → nat →
                    list (list Z).
Variable batch_decode : list (list Z) → list string.
Variable nll : list Qc → Z → Qc.

(** The generation step always returns, and its texts are the decoded ones
    with [fix_empty] applied. *)
Lemma generate_texts_spec cfg enc :
  ∃ expanded,
    index_select enc (CLM.expanded_idx (length enc) (CLM.clm_num_beams cfg))
      = Some expanded ∧
    CLM.generate_texts cls_token_id generate batch_decode cfg enc
      = Some (CLM.fix_empty <$>
                batch_decode (generate (replicate (length enc) [cls_token_id]) expanded
                                (CLM.clm_max_text_len cfg) (CLM.clm_do_sample cfg)
                                (CLM.clm_num_beams cfg))).
Proof.
  destruct (index_select_total enc
              (CLM.expanded_idx (length enc) (CLM.clm_num_beams cfg))) as [ex Hex].
  { apply expanded_idx_bound. }
  exists ex. split; [done|]. unfold CLM.generate_texts.
  rewrite length_replicate, Hex. done.
Qed.

(** What [compute_clm] returns once the features can be joined, the batch
    has its texts, the head gives one non-empty row of logits per input id
    and every label is the padding id or a class. *)
Lemma compute_clm_returns cfg training test batch enc texts :
  let out := infer batch None None (Some (CLM.language_only cfg))
               (Some (CLM.vision_only cfg)) in
  let tok := clm_tokenizer (lower <$> texts) (CLM.clm_max_text_len cfg) in
  let logits := clm_head (CLM.input_ids tok) (CLM.attention_mask tok) (clm_proj enc) in
  CLM.cat_dim1 (CLM.multi_modal_image_feats out) (CLM.multi_modal_text_feats out)
    = Some enc →
  (if CLM.vision_only cfg then CLM.findings batch else CLM.impression batch)
    = Some texts →
  Forall2 (λ lg id, length lg = length id) logits (CLM.input_ids tok) →
  Forall (Forall (λ row, 0 < length row)%nat) logits →
  CLM.labels_in_vocab pad_token_id logits (CLM.input_ids tok) →
  ∃ expanded,
    index_select (clm_proj enc)
      (CLM.expanded_idx (length (clm_proj enc)) (CLM.clm_num_beams cfg))
      = Some expanded ∧
    CLM.compute_clm lower infer clm_proj clm_tokenizer pad_token_id cls_token_id
      clm_head generate batch_decode nll cfg training test batch
    = Some {|
        CLM.clm_loss :=
          tensor_mean ((λ p, nll p.1 p.2) <$>
            filter (λ p, p.2 ≠ pad_token_id)
              (CLM.shifted_pairs logits (CLM.input_ids tok)));
        CLM.clm_logits := CLM.shift_logits logits;
        CLM.clm_labels := CLM.shift_labels (CLM.input_ids tok);
        CLM.gen_texts :=
          match phase_of test training with
          | Train => None
          | _ => Some (CLM.fix_empty <$>
                         batch_decode
                           (generate (replicate (length (clm_proj enc)) [cls_token_id])
                              expanded (CLM.clm_max_text_len cfg)
                              (CLM.clm_do_sample cfg) (CLM.clm_num_beams cfg)))
          end;
        CLM.gt_texts :=
          match phase_of test training with
          | Train => None
          | _ => Some (lower <$> texts)
          end |}.
Proof.
  intros out tok logits Hcat Htexts Hshape Hrows Hvocab.
  pose proof (clm_loss_of_shifted nll pad_token_id logits (CLM.input_ids tok) Hshape
                Hrows (proj1 (labels_in_vocab_valid _ _ _) Hvocab)) as Hloss.
  destruct (generate_texts_spec cfg (clm_proj enc)) as (expanded & Hex & Hgen).
  exists expanded. split; [exact Hex|].
  unfold CLM.compute_clm. fold out. rewrite Hcat. cbn [mbind option_bind].
  rewrite Htexts. cbn [mbind option_bind]. fold tok. fold logits.
  rewrite Hloss. cbn [mbind option_bind].
  destruct (phase_of test training); [done| |]; by rewrite Hgen.
Qed.

End clm_generation.

(** C6: when [compute_clm] gets features that can be joined, a batch with
    its texts, one non-empty row of logits per input id and labels that are
    the padding id or a class, it returns a loss that pairs the decoder logits
    at positions 0..L-2 with the input ids at positions 1..L-1 of the same
    sequence, and the pairs whose label is the padding id do not enter it;
    the returned logits and labels are the two shifted tensors. *)
Theorem clm_shifted_loss {Payload : Type} (lower : string → string)
    (infer : CLM.clm_batch Payload → option bool → option bool → option bool →
             option bool → CLM.infer_out)
    (clm_proj : list (list (list Qc)) → list (list (list Qc)))
    (clm_tokenizer : list string → nat → CLM.tokenized)
    (pad_token_id cls_token_id : Z)
    (clm_head : list (list Z) → list (list Z) → list (list (list Qc)) →
                list (list (list Qc)))
    (generate : list (list Z) → list (list (list Qc)) → nat → bool → nat →
                list (list Z))
    (batch_decode : list (list Z) → list string)
    (nll : list Qc → Z → Qc)
    (cfg : CLM.config) (training test : bool) (batch : CLM.clm_batch Payload)
    (enc : list (list (list Qc))) (texts : list string) :
  let out := infer batch None None (Some (CLM.language_only cfg))
               (Some (CLM.vision_only cfg)) in
  let tok := clm_tokenizer (lower <$> texts) (CLM.clm_max_text_len cfg) in
  let ids := CLM.input_ids tok in
  let logits := clm_head ids (CLM.attention_mask tok) (clm_proj enc) in
  CLM.cat_dim1 (CLM.multi_modal_image_feats out) (CLM.multi_modal_text_feats out)
    = Some enc →
  (if CLM.vision_only cfg then CLM.findings batch else CLM.impression batch)
    = Some texts →
  Forall2 (λ lg id, length lg = length id) logits ids →
  Forall (Forall (λ row, 0 < length row)%nat) logits →
  CLM.labels_in_vocab pad_token_id logits ids →
  ∃ r pairs,
    CLM.compute_clm lower infer clm_proj clm_tokenizer pad_token_id cls_token_id
      clm_head generate batch_decode nll cfg training test batch = Some r ∧
    CLM.clm_loss r
      = tensor_mean ((λ p, nll p.1 p.2) <$> filter (λ p, p.2 ≠ pad_token_id) pairs) ∧
    CLM.clm_logits r = (λ lg, take (length lg - 1) lg) <$> logits ∧
    CLM.clm_labels r = drop 1 <$> ids ∧
    pairs = zip (concat (CLM.clm_logits r)) (concat (CLM.clm_labels r)) ∧
    pairs = concat ((λ r, zip (take (length r.2 - 1) r.1) (drop 1 r.2)) <$>
                      zip logits ids) ∧
    (∀ p, p ∈ pairs ↔
          ∃ b t lg id, logits !! b = Some lg ∧ ids !! b = Some id ∧
                       lg !! t = Some p.1 ∧ id !! S t = Some p.2) ∧
    (∀ p, p ∈ filter (λ p : list Qc * Z, p.2 ≠ pad_token_id) pairs →
          p.2 ≠ pad_token_id).
Proof.
  intros out tok ids logits Hcat Htexts Hshape Hrows Hvocab.
  destruct (compute_clm_returns lower infer clm_proj clm_tokenizer pad_token_id
              cls_token_id clm_head generate batch_decode nll cfg training test batch
              enc texts Hcat Htexts Hshape Hrows Hvocab) as (expanded & _ & Hret).
  fold tok in Hret. fold ids in Hret. fold logits in Hret.
  eexists _, (CLM.shifted_pairs logits ids). split; [exact Hret|].
  cbn [CLM.clm_loss CLM.clm_logits CLM.clm_labels].
  split; [reflexivity|]. split; [reflexivity|]. split; [reflexivity|].
  split; [by rewrite shifted_all|]. split; [|split].
  - unfold CLM.shifted_pairs. f_equal.
    apply list_eq. intros b. rewrite !list_lookup_fmap.
    destruct (zip logits ids !! b) as [[lg id]|] eqn:Hb; [|done]. simpl. f_equal.
    apply lookup_zip_with_Some in Hb as (x & y & Heq & Hx & Hy).
    injection Heq as <- <-.
    pose proof (Forall2_lookup_lr _ _ _ _ _ _ Hshape Hx Hy) as Hl. simpl in Hl.
    rewrite <-shifted_row by done. unfold CLM.drop_last. by rewrite Hl.
  - intros p. apply shifted_pairs_elem.
  - intros p Hp. by apply list_elem_of_filter in Hp as [Hp _].
Qed.

Lemma sample_labels_in_vocab :
  CLM.labels_in_vocab 0 CLM.sample_logits CLM.sample_ids.
Proof.
  apply labels_in_vocab_valid. unfold ce_valid.
  change (CLM.shifted_pairs CLM.sample_logits CLM.sample_ids)
    with [(([1; 0; 0] : list Qc), 2%Z); ([0; 1; 0], 0%Z)].
  apply Forall_cons. split; [right; simpl; lia|].
  apply Forall_cons. split; [by left|]. apply Forall_nil_2.
Qed.

Lemma sample_logits_rows :
  Forall (Forall (λ row : list Qc, 0 < length row)%nat) CLM.sample_logits.
Proof. repeat (constructor; try (simpl; lia)). Qed.

Lemma clm_shifted_loss_witness :
  (CLM.cat_dim1 [[[1]]] [[[0]]] = Some [[[1]; [0]]] ∧
   CLM.impression CLM.sample_batch = Some ["No Acute Findings"] ∧
   Forall2 (λ (lg : list (list Qc)) (id : list Z), length lg = length id)
     CLM.sample_logits CLM.sample_ids ∧
   Forall (Forall (λ row : list Qc, 0 < length row)%nat) CLM.sample_logits ∧
   CLM.labels_in_vocab 0 CLM.sample_logits CLM.sample_ids) ∧
  ∃ r pairs,
    CLM.compute_clm CLM.sample_lower CLM.sample_infer (λ x, x) CLM.sample_tokenizer 0
      101 CLM.sample_clm_head CLM.sample_generate CLM.sample_decode ITC.sample_nll
      CLM.sample_cfg true false CLM.sample_batch = Some r ∧
    CLM.clm_loss r
      = tensor_mean ((λ p, ITC.sample_nll p.1 p.2) <$> filter (λ p, p.2 ≠ 0%Z) pairs) ∧
    CLM.clm_logits r = (λ lg, take (length lg - 1) lg) <$> CLM.sample_logits ∧
    CLM.clm_labels r = drop 1 <$> CLM.sample_ids ∧
    pairs = zip (concat (CLM.clm_logits r)) (concat (CLM.clm_labels r)) ∧
    pairs = concat ((λ r, zip (take (length r.2 - 1) r.1) (drop 1 r.2)) <$>
                      zip CLM.sample_logits CLM.sample_ids) ∧
    (∀ p, p ∈ pairs ↔
          ∃ b t lg id, CLM.sample_logits !! b = Some lg ∧
                       CLM.sample_ids !! b = Some id ∧
                       lg !! t = Some p.1 ∧ id !! S t = Some p.2) ∧
    (∀ p, p ∈ filter (λ p : list Qc * Z, p.2 ≠ 0%Z) pairs → p.2 ≠ 0%Z).
Proof.
  assert (Forall2 (λ (lg : list (list Qc)) (id : list Z), length lg = length id)
            CLM.sample_logits CLM.sample_ids) as H.
  { repeat constructor. }
  split; [exact (conj eq_refl (conj eq_refl (conj H
                   (conj sample_logits_rows sample_labels_in_vocab))))|].
  exact (clm_shifted_loss CLM.sample_lower CLM.sample_infer (λ x, x)
           CLM.sample_tokenizer 0 101 CLM.sample_clm_head CLM.sample_generate
           CLM.sample_decode ITC.sample_nll CLM.sample_cfg true false CLM.sample_batch
           [[[1]; [0]]] ["No Acute Findings"] eq_refl eq_refl H
           sample_logits_rows sample_labels_in_vocab).
Defined.

(** On the sample, only the pair (position 0, id at position 1) counts: the
    id at position 2 is the padding id 0. *)
Example clm_shifted_pairs_sample :
  CLM.shifted_pairs CLM.sample_logits CLM.sample_ids
    = [([1; 0; 0], 2%Z); ([0; 1; 0], 0%Z)] ∧
  CLM.clm_loss <$>
    CLM.compute_clm CLM.sample_lower CLM.sample_infer (λ x, x) CLM.sample_tokenizer 0
      101 CLM.sample_clm_head CLM.sample_generate CLM.sample_decode ITC.sample_nll
      CLM.sample_cfg true false CLM.sample_batch
    = Some (Num 1).
Proof. split; reflexivity. Qed.

(** A label outside the classes of the logits makes the code raise: the same
    sample with the id 3 in the second position, over three classes. *)
Example clm_label_out_of_vocab_raises :
  CLM.compute_clm CLM.sample_lower CLM.sample_infer (λ x, x)
    (λ _ _, {| CLM.input_ids := [[1; 3; 0]%Z]; CLM.attention_mask := [[1; 1; 0]%Z] |})
    0 101 CLM.sample_clm_head CLM.sample_generate CLM.sample_decode ITC.sample_nll
    CLM.sample_cfg true false CLM.sample_batch = None.
Proof. reflexivity. Qed.

(** Image and text features of different widths cannot be joined, and
    [compute_clm] raises with them. *)
Example clm_feature_widths_differ_raises :
  CLM.cat_dim1 [[[1; 2]]] [[[0 : Qc]]] = None ∧
  CLM.compute_clm CLM.sample_lower
    (λ _ _ _ _ _, {| CLM.multi_modal_image_feats := [[[1; 2]]];
                     CLM.multi_modal_text_feats := [[[0]]] |})
    (λ x, x) CLM.sample_tokenizer 0 101 CLM.sample_clm_head CLM.sample_generate
    CLM.sample_decode ITC.sample_nll CLM.sample_cfg true false CLM.sample_batch = None.
Proof. split; reflexivity. Qed.

(** ** Conditional language modelling: the generated texts *)

(** C9: whenever [compute_clm] runs outside the training phase and its loss
    part does not raise (the features can be joined, the batch has its
    texts, the head gives one non-empty row of logits per input id and every
    label is the padding id or a class), it returns generated texts that are all
    non-empty: each decoded string that is empty is replaced by the fixed
    fallback phrase, each other decoded string is kept as it is.  In the
    training phase no texts are generated. *)
Theorem clm_gen_texts_nonempty {Payload : Type} (lower : string → string)
    (infer : CLM.clm_batch Payload → option bool → option bool → option bool →
             option bool → CLM.infer_out)
    (clm_proj : list (list (list Qc)) → list (list (list Qc)))
    (clm_tokenizer : list string → nat → CLM.tokenized)
    (pad_token_id cls_token_id : Z)
    (clm_head : list (list Z) → list (list Z) → list (list (list Qc)) →
                list (list (list Qc)))
    (generate : list (list Z) → list (list (list Qc)) → nat → bool → nat →
                list (list Z))
    (batch_decode : list (list Z) → list string)
    (nll : list Qc → Z → Qc)
    (cfg : CLM.config) (training test : bool) (batch : CLM.clm_batch Payload)
    (enc : list (list (list Qc))) (texts : list string) :
  let out := infer batch None None (Some (CLM.language_only cfg))
               (Some (CLM.vision_only cfg)) in
  let tok := clm_tokenizer (lower <$> texts) (CLM.clm_max_text_len cfg) in
  let logits := clm_head (CLM.input_ids tok) (CLM.attention_mask tok) (clm_proj enc) in
  let decoded := λ expanded,
    batch_decode (generate (replicate (length (clm_proj enc)) [cls_token_id]) expanded
                    (CLM.clm_max_text_len cfg) (CLM.clm_do_sample cfg)
                    (CLM.clm_num_beams cfg)) in
  CLM.cat_dim1 (CLM.multi_modal_image_feats out) (CLM.multi_modal_text_feats out)
    = Some enc →
  (if CLM.vision_only cfg then CLM.findings batch else CLM.impression batch)
    = Some texts →
  Forall2 (λ lg id, length lg = length id) logits (CLM.input_ids tok) →
  Forall (Forall (λ row, 0 < length row)%nat) logits →
  CLM.labels_in_vocab pad_token_id logits (CLM.input_ids tok) →
  ∃ r,
    CLM.compute_clm lower infer clm_proj clm_tokenizer pad_token_id cls_token_id
      clm_head generate batch_decode nll cfg training test batch = Some r ∧
    (phase_of test training = Train → CLM.gen_texts r = None) ∧
    (phase_of test training ≠ Train →
       ∃ expanded gen,
         index_select (clm_proj enc)
           (CLM.expanded_idx (length (clm_proj enc)) (CLM.clm_num_beams cfg))
           = Some expanded ∧
         CLM.gen_texts r = Some gen ∧
         length gen = length (decoded expanded) ∧
         Forall (λ text, text ≠ "") gen ∧
         ∀ i text, decoded expanded !! i = Some text →
           gen !! i = Some (if decide (text = "") then CLM.fallback else text)).
Proof.
  intros out tok logits decoded Hcat Htexts Hshape Hrows Hvocab.
  destruct (compute_clm_returns lower infer clm_proj clm_tokenizer pad_token_id
              cls_token_id clm_head generate batch_decode nll cfg training test batch
              enc texts Hcat Htexts Hshape Hrows Hvocab) as (expanded & Hex & Hret).
  eexists. split; [exact Hret|]. cbn [CLM.gen_texts].
  split; [by intros ->|]. intros Hph.
  exists expanded, (CLM.fix_empty <$> decoded expanded).
  split; [exact Hex|]. split.
  { by destruct (phase_of test training). }
  split; [by rewrite length_fmap|]. split.
  - apply Forall_fmap, Forall_forall. intros t _. apply fix_empty_nonempty.
  - intros i text Hi. rewrite list_lookup_fmap, Hi. simpl. by rewrite fix_empty_spec.
Qed.

Lemma clm_gen_texts_nonempty_witness :
  (CLM.cat_dim1 [[[1]]] [[[0]]] = Some [[[1]; [0]]] ∧
   CLM.impression CLM.sample_batch = Some ["No Acute Findings"] ∧
   Forall2 (λ (lg : list (list Qc)) (id : list Z), length lg = length id)
     CLM.sample_logits CLM.sample_ids ∧
   Forall (Forall (λ row : list Qc, 0 < length row)%nat) CLM.sample_logits ∧
   CLM.labels_in_vocab 0 CLM.sample_logits CLM.sample_ids) ∧
  ∃ r,
    CLM.compute_clm CLM.sample_lower CLM.sample_infer (λ x, x) CLM.sample_tokenizer 0
      101 CLM.sample_clm_head CLM.sample_generate CLM.sample_decode ITC.sample_nll
      CLM.sample_cfg false false CLM.sample_batch = Some r ∧
    (phase_of false false = Train → CLM.gen_texts r = None) ∧
    (phase_of false false ≠ Train →
       ∃ expanded gen,
         index_select [[[1]; [0]]]
           (CLM.expanded_idx 1 (CLM.clm_num_beams CLM.sample_cfg)) = Some expanded ∧
         CLM.gen_texts r = Some gen ∧
         length gen
           = length (CLM.sample_decode (CLM.sample_generate [[101%Z]] expanded 8
                                          false 2)) ∧
         Forall (λ text, text ≠ "") gen ∧
         ∀ i text,
           CLM.sample_decode (CLM.sample_generate [[101%Z]] expanded 8 false 2) !! i
             = Some text →
           gen !! i = Some (if decide (text = "") then CLM.fallback else text)).
Proof.
  assert (Forall2 (λ (lg : list (list Qc)) (id : list Z), length lg = length id)
            CLM.sample_logits CLM.sample_ids) as H.
  { repeat constructor. }
  split; [exact (conj eq_refl (conj eq_refl (conj H
                   (conj sample_logits_rows sample_labels_in_vocab))))|].
  exact (clm_gen_texts_nonempty CLM.sample_lower CLM.sample_infer (λ x, x)
           CLM.sample_tokenizer 0 101 CLM.sample_clm_head CLM.sample_generate
           CLM.sample_decode ITC.sample_nll CLM.sample_cfg false false CLM.sample_batch
           [[[1]; [0]]] ["No Acute Findings"] eq_refl eq_refl H
           sample_logits_rows sample_labels_in_vocab).
Defined.

(** On the sample, validation returns the fallback for the empty decoding and
    keeps the other text; training returns no texts. *)
Example clm_gen_texts_sample :
  CLM.gen_texts <$>
    CLM.compute_clm CLM.sample_lower CLM.sample_infer (λ x, x) CLM.sample_tokenizer 0
      101 CLM.sample_clm_head CLM.sample_generate CLM.sample_decode ITC.sample_nll
      CLM.sample_cfg false false CLM.sample_batch
    = Some (Some ["there is no evidence of pulmonary."; "heart size is normal."]) ∧
  CLM.gt_texts <$>
    CLM.compute_clm CLM.sample_lower CLM.sample_infer (λ x, x) CLM.sample_tokenizer 0
      101 CLM.sample_clm_head CLM.sample_generate CLM.sample_decode ITC.sample_nll
      CLM.sample_cfg false false CLM.sample_batch
    = Some (Some ["no acute findings"]) ∧
  CLM.gen_texts <$>
    CLM.compute_clm CLM.sample_lower CLM.sample_infer (λ x, x) CLM.sample_tokenizer 0
      101 CLM.sample_clm_head CLM.sample_generate CLM.sample_decode ITC.sample_nll
      CLM.sample_cfg true false CLM.sample_batch
    = Some None.
Proof. repeat split; reflexivity. Qed.

(** ** Image-text retrieval: the candidate sets *)

Lemma forallb_Forall_true {A} (f : A → bool) (l : list A) :
  Forall (λ x, f x = true) l → forallb f l = true.
Proof. induction 1 as [|x l Hx _ IH]; [done|]. simpl. by rewrite Hx, IH. Qed.

Lemma shape2_lengths {A} n l (t : list (list A)) :
  shape2 n l t → length <$> t = replicate n l.
Proof.
  intros [Hn Hr]. subst n. induction Hr as [|r t Hl _ IH]; [done|].
  rewrite fmap_cons, Hl, IH. done.
Qed.

(** In a matrix with rows of one length, the flattened index of entry
    [(b, k)] is [b * fs + k]. *)
Lemma concat_lookup_uniform {A} (fs : nat) (c : list (list A)) b k :
  Forall (λ r, length r = fs) c → (k < fs)%nat →
  concat c !! (b * fs + k)%nat = c !! b ≫= λ r, r !! k.
Proof.
  intros Hc Hk. revert b. induction Hc as [|r c Hr _ IH]; intros b.
  - simpl. by rewrite !lookup_nil.
  - destruct b as [|b]; simpl.
    + rewrite lookup_app_l by lia. done.
    + rewrite lookup_app_r by lia. rewrite <-IH. f_equal. lia.
Qed.

Lemma concat_length_uniform {A} (fs : nat) (c : list (list A)) :
  Forall (λ r, length r = fs) c → length (concat c) = (length c * fs)%nat.
Proof.
  induction 1 as [|r c Hr _ IH]; [done|]. simpl. rewrite length_app. lia.
Qed.

Section irtr_candidates.
Context {Image : Type}.
Implicit Types (batch : gmap string (IRTR.value Image)).

Lemma stack_dim1_spec (ts : list (list (list Z))) bs tl :
  ts ≠ [] → Forall (shape2 bs tl) ts →
  ∃ st, IRTR.stack_dim1 ts = Some st ∧ length st = bs ∧
        ∀ b row, st !! b = Some row →
          length row = length ts ∧
          (∀ j t, ts !! j = Some t → ∃ y, row !! j = Some y ∧ t !! b = Some y) ∧
          Forall (λ y, length y = tl) row.
Proof.
  intros Hne Hts. destruct ts as [|t0 rest]; [done|].
  pose proof Hts as Hall. apply Forall_cons in Hts as [H0 Hrest].
  unfold IRTR.stack_dim1. rewrite forallb_Forall_true.
  2:{ eapply Forall_impl; [exact Hrest|]. intros t Ht. cbv beta.
      unfold IRTR.same_shape. apply bool_decide_eq_true.
      by rewrite (shape2_lengths _ _ _ H0), (shape2_lengths _ _ _ Ht). }
  assert (length t0 = bs) as Hbs by by destruct H0.
  assert (is_Some (mapM (λ b, mapM (λ t : list (list Z), t !! b) (t0 :: rest))
                     (seq 0 (length t0)))) as [st Hst].
  { apply mapM_is_Some, Forall_forall. intros b Hb%elem_of_seq. cbv beta.
    unfold compose. apply mapM_is_Some. eapply Forall_impl; [exact Hall|].
    intros t [Ht _]. simpl. apply lookup_lt_is_Some_2. lia. }
  exists st. split; [done|]. apply mapM_Some_1 in Hst.
  split. { rewrite <-(Forall2_length _ _ _ Hst), length_seq. done. }
  intros b row Hrow.
  destruct (Forall2_lookup_r _ _ _ _ _ Hst Hrow) as (b' & Hb' & Hm).
  apply lookup_seq in Hb' as [-> Hlt]. cbv beta in Hm. rewrite Nat.add_0_l in Hm.
  apply mapM_Some_1 in Hm.
  split; [by rewrite <-(Forall2_length _ _ _ Hm)|]. split.
  - intros j t Hj. destruct (Forall2_lookup_l _ _ _ _ _ Hm Hj) as (y & Hy & Hty).
    eauto.
  - apply Forall_lookup. intros j y Hy.
    destruct (Forall2_lookup_r _ _ _ _ _ Hm Hy) as (t & Ht & Hty).
    rewrite Forall_lookup in Hall. destruct (Hall _ _ Ht) as [_ Hrows].
    rewrite Forall_lookup in Hrows. by eapply Hrows.
Qed.

Lemma cat_first_spec (x : list (list Z)) (ys : list (list (list Z))) bs tl :
  shape2 bs tl x → length ys = bs → Forall (Forall (λ y, length y = tl)) ys →
  IRTR.cat_first x ys = Some (map (λ r, r.1 :: r.2) (zip x ys)).
Proof.
  intros [Hx Hxr] Hys Hyr. unfold IRTR.cat_first.
  rewrite zip_same_Some by congruence. simpl.
  rewrite forallb_Forall_true.
  - done.
  - apply Forall_lookup. intros b [r cands] Hb.
    apply lookup_zip_with_Some in Hb as (r' & c' & Heq & Hr & Hc). simplify_eq.
    simpl. apply forallb_Forall_true.
    rewrite Forall_lookup in Hxr. rewrite (Hxr _ _ Hr).
    rewrite Forall_lookup in Hyr. specialize (Hyr _ _ Hc).
    eapply Forall_impl; [exact Hyr|]. intros y Hy. simpl.
    by apply bool_decide_eq_true.
Qed.

End irtr_candidates.

Section irtr_batch.
Context {Image : Type}.
Implicit Types (batch : gmap string (IRTR.value Image)).

Lemma candidates_spec batch K field bs tl (true_t : list (list Z))
    (falses : nat → list (list Z)) :
  (0 < K)%nat →
  IRTR.get_tokens batch ("text_" +:+ field) = Some true_t →
  shape2 bs tl true_t →
  (∀ j, (j < K)%nat →
     IRTR.get_tokens batch (IRTR.false_key j field) = Some (falses j) ∧
     shape2 bs tl (falses j)) →
  ∃ c, IRTR.candidates batch K field = Some c ∧
       length c = bs ∧
       Forall (λ r, length r = S K) c ∧
       ∀ b x, true_t !! b = Some x →
         ∃ row, c !! b = Some (x :: row) ∧
                ∀ j, (j < K)%nat → row !! j = falses j !! b.
Proof.
  intros HK Htrue Hshape Hfalse. unfold IRTR.candidates.
  rewrite (mapM_total _ falses).
  2:{ intros j Hj%elem_of_seq. apply Hfalse. lia. }
  cbn [mbind option_bind].
  destruct (stack_dim1_spec (falses <$> seq 0 K) bs tl)
    as (st & Hst & Hlen & Hrows).
  { destruct K; [lia|]. done. }
  { apply Forall_fmap, Forall_forall. intros j Hj%elem_of_seq. apply Hfalse. lia. }
  rewrite Hst. cbn [mbind option_bind]. rewrite Htrue. cbn [mbind option_bind].
  rewrite (cat_first_spec true_t st bs tl); [|done|done|].
  2:{ apply Forall_lookup. intros b row Hrow. by apply (Hrows b row Hrow). }
  eexists. split; [reflexivity|]. destruct Hshape as [Hbs Htl].
  split. { rewrite length_map, length_zip. lia. }
  split.
  { apply Forall_forall. intros r Hr.
    apply list_elem_of_fmap in Hr as ([x row] & -> & Hz).
    apply list_elem_of_lookup in Hz as [b Hb].
    apply lookup_zip_with_Some in Hb as (x' & row' & Heq & Hx & Hrow).
    simplify_eq. simpl. destruct (Hrows b row' Hrow) as (Hl & _ & _).
    by rewrite Hl, length_fmap, length_seq. }
  intros b x Hx.
  destruct (lookup_lt_is_Some_2 st b) as [row Hrow].
  { rewrite Hlen, <-Hbs. by eapply lookup_lt_Some. }
  exists row. split.
  - rewrite list_lookup_fmap, lookup_zip_with, Hx. simpl. by rewrite Hrow.
  - intros j Hj. destruct (Hrows b row Hrow) as (_ & Hcells & _).
    destruct (Hcells j (falses j)) as (y & Hy & Hfy).
    { rewrite list_lookup_fmap, lookup_seq_lt by done. done. }
    congruence.
Qed.

Lemma candidates_true_first (c : list (list (list Z))) K (true_t : list (list Z))
    (falses : nat → list (list Z)) :
  Forall (λ r, length r = S K) c →
  (∀ b x, true_t !! b = Some x →
     ∃ row, c !! b = Some (x :: row) ∧
            ∀ j, (j < K)%nat → row !! j = falses j !! b) →
  IRTR.true_first (concat c) K true_t falses.
Proof.
  intros Hlen Hc b x Hx. destruct (Hc b x Hx) as (row & Hrow & Hcells).
  replace (K + 1)%nat with (S K) by lia. split.
  - replace (b * S K)%nat with (b * S K + 0)%nat by lia.
    rewrite (concat_lookup_uniform (S K)) by (done || lia). by rewrite Hrow.
  - intros j Hj. rewrite (concat_lookup_uniform (S K)) by (done || lia).
    rewrite Hrow. simpl. by apply Hcells.
Qed.

Lemma expand_images_lookup (image0 : list Image) K b k im :
  image0 !! b = Some im → (k ≤ K)%nat →
  concat (IRTR.expand_images image0 K) !! (b * (K + 1) + k)%nat = Some im.
Proof.
  intros Hb Hk. unfold IRTR.expand_images.
  rewrite (concat_lookup_uniform (K + 1)).
  - rewrite list_lookup_fmap, Hb. simpl. apply lookup_replicate_2. lia.
  - apply Forall_fmap, Forall_forall. intros x _. simpl. by rewrite length_replicate.
  - lia.
Qed.

End irtr_batch.

(** C7: with [K >= 1] negative captions per anchor and a well-shaped batch of
    [bs] anchors, [compute_irtr] hands the encoder [bs * (K + 1)] candidates:
    for every anchor the true [text_ids], [text_masks] and [text_labels] come
    first, followed by those of [false_text_0] .. [false_text_{K-1}], each
    paired with a copy of the anchor's image; the cross entropy is taken
    against index 0 for every anchor. *)
Theorem irtr_true_caption_first {Image Feats : Type}
    (infer_cls : IRTR.batch_infer Image → option Feats)
    (irtr_head : Feats → list (list Qc)) (nll : list Qc → Z → Qc)
    (batch : gmap string (IRTR.value Image)) (K bs : nat)
    (image0 : list Image) (views : list (list Image))
    (tl : string → nat) (true_of : string → list (list Z))
    (false_of : nat → string → list (list Z)) :
  (0 < K)%nat →
  IRTR.get_views batch "image" = Some (image0 :: views) →
  length image0 = bs →
  (∀ field, field ∈ ["ids"; "masks"; "labels"] →
     IRTR.get_tokens batch ("text_" +:+ field) = Some (true_of field) ∧
     shape2 bs (tl field) (true_of field) ∧
     ∀ j, (j < K)%nat →
       IRTR.get_tokens batch (IRTR.false_key j field) = Some (false_of j field) ∧
       shape2 bs (tl field) (false_of j field)) →
  ∃ bi images,
    IRTR.make_batch_infer batch K = Some (bs, bi) ∧
    IRTR.image bi = [images] ∧
    length images = (bs * (K + 1))%nat ∧
    length (IRTR.text_ids bi) = (bs * (K + 1))%nat ∧
    (∀ b k im, image0 !! b = Some im → (k ≤ K)%nat →
       images !! (b * (K + 1) + k)%nat = Some im) ∧
    IRTR.true_first (IRTR.text_ids bi) K (true_of "ids") (λ j, false_of j "ids") ∧
    IRTR.true_first (IRTR.text_masks bi) K (true_of "masks") (λ j, false_of j "masks") ∧
    IRTR.true_first (IRTR.text_labels bi) K (true_of "labels")
      (λ j, false_of j "labels") ∧
    IRTR.answer bs = replicate bs 0%Z ∧
    IRTR.compute_irtr infer_cls irtr_head nll batch K
      = (feats ← infer_cls bi;
         score ← mapM (λ row : list Qc, row !! 0%nat) (irtr_head feats);
         score ← IRTR.unflatten bs (K + 1) score;
         cross_entropy nll (-100) score (replicate bs 0%Z)).
Proof.
  intros HK Hviews Hbs Hfields.
  assert (∀ field, field ∈ ["ids"; "masks"; "labels"] →
    ∃ c, IRTR.candidates batch K field = Some c ∧ length c = bs ∧
         Forall (λ r, length r = S K) c ∧
         IRTR.true_first (concat c) K (true_of field) (λ j, false_of j field))
    as Hcand.
  { intros field Hin. destruct (Hfields field Hin) as (Ht & Hs & Hf).
    destruct (candidates_spec batch K field bs (tl field) (true_of field)
                (λ j, false_of j field) HK Ht Hs Hf) as (c & Hc & Hl & Hr & Hrows).
    exists c. split; [done|]. split; [done|]. split; [done|].
    by apply candidates_true_first. }
  destruct (Hcand "ids") as (ci & Hci & Hli & Hri & Hti);
    [apply list_elem_of_here|].
  destruct (Hcand "masks") as (cm & Hcm & Hlm & Hrm & Htm);
    [apply list_elem_of_further, list_elem_of_here|].
  destruct (Hcand "labels") as (cl & Hcl & Hll & Hrl & Htl);
    [do 2 apply list_elem_of_further; apply list_elem_of_here|].
  assert (IRTR.make_batch_infer batch K
          = Some (bs, {| IRTR.image := [concat (IRTR.expand_images image0 K)];
                         IRTR.text_ids := concat ci; IRTR.text_masks := concat cm;
                         IRTR.text_labels := concat cl |})) as Hmk.
  { unfold IRTR.make_batch_infer. rewrite Hviews. cbn [mbind option_bind lookup].
    simpl. rewrite Hci. cbn [mbind option_bind]. rewrite Hcm.
    cbn [mbind option_bind]. rewrite Hcl. cbn [mbind option_bind]. by rewrite Hbs. }
  eexists _, _. split; [exact Hmk|]. cbn [IRTR.image IRTR.text_ids IRTR.text_masks
    IRTR.text_labels]. split; [reflexivity|]. split.
  { rewrite (concat_length_uniform (K + 1)).
    - unfold IRTR.expand_images. by rewrite length_fmap, Hbs.
    - unfold IRTR.expand_images. apply Forall_fmap, Forall_forall.
      intros x _. simpl. by rewrite length_replicate. }
  split.
  { rewrite (concat_length_uniform (S K)) by done. rewrite Hli. f_equal. lia. }
  split; [intros b k im Hb Hk; by apply expand_images_lookup|].
  do 3 (split; [done|]). split; [reflexivity|].
  unfold IRTR.compute_irtr. rewrite Hmk. reflexivity.
Qed.

Lemma sample_fields_ok (field : string) :
  field ∈ ["ids"; "masks"; "labels"] →
  IRTR.get_tokens IRTR.sample_batch ("text_" +:+ field)
    = Some (IRTR.sample_true field) ∧
  shape2 2 2 (IRTR.sample_true field) ∧
  ∀ j, (j < 2)%nat →
    IRTR.get_tokens IRTR.sample_batch (IRTR.false_key j field)
      = Some (IRTR.sample_false j field) ∧
    shape2 2 2 (IRTR.sample_false j field).
Proof.
  intros Hin.
  assert (field = "ids" ∨ field = "masks" ∨ field = "labels") as Hf.
  { repeat (apply elem_of_cons in Hin as [->|Hin]; [by auto|]).
    by apply elem_of_nil in Hin. }
  assert (∀ t : list (list Z), t = [[0; 0]%Z; [0; 0]%Z] ∨ length <$> t = [2; 2]%nat →
          shape2 2 2 t) as Hshape.
  { intros t [->|Hl]; [split; [done|]; by repeat constructor|].
    destruct t as [|r1 [|r2 [|? ?]]]; simplify_eq/=.
    split; [done|]. by repeat constructor. }
  destruct Hf as [-> | [-> | ->]].
  all: split; [reflexivity|]; split;
    [apply Hshape; right; reflexivity|];
    intros j Hj; destruct j as [|[|j]]; [| |lia];
    (split; [reflexivity | apply Hshape; right; reflexivity]).
Qed.

Lemma irtr_true_caption_first_witness :
  ((0 < 2)%nat ∧
   IRTR.get_views IRTR.sample_batch "image" = Some ([7; 8]%nat :: []) ∧
   length [7; 8]%nat = 2%nat) ∧
  ∃ bi images,
    IRTR.make_batch_infer IRTR.sample_batch 2 = Some (2%nat, bi) ∧
    IRTR.image bi = [images] ∧
    length images = (2 * (2 + 1))%nat ∧
    length (IRTR.text_ids bi) = (2 * (2 + 1))%nat ∧
    (∀ b k im, [7; 8]%nat !! b = Some im → (k ≤ 2)%nat →
       images !! (b * (2 + 1) + k)%nat = Some im) ∧
    IRTR.true_first (IRTR.text_ids bi) 2 (IRTR.sample_true "ids")
      (λ j, IRTR.sample_false j "ids") ∧
    IRTR.true_first (IRTR.text_masks bi) 2 (IRTR.sample_true "masks")
      (λ j, IRTR.sample_false j "masks") ∧
    IRTR.true_first (IRTR.text_labels bi) 2 (IRTR.sample_true "labels")
      (λ j, IRTR.sample_false j "labels") ∧
    IRTR.answer 2 = replicate 2 0%Z ∧
    IRTR.compute_irtr (λ _, Some [[1]; [0]; [0]; [0]; [1]; [0]]) (λ x, x)
        ITC.sample_nll IRTR.sample_batch 2
      = (feats ← (λ _, Some [[1]; [0]; [0]; [0]; [1]; [0]]) bi;
         score ← mapM (λ row : list Qc, row !! 0%nat) ((λ x, x) feats);
         score ← IRTR.unflatten 2 (2 + 1) score;
         cross_entropy ITC.sample_nll (-100) score (replicate 2 0%Z)).
Proof.
  assert (0 < 2)%nat as HK by lia.
  split; [exact (conj HK (conj eq_refl eq_refl))|].
  exact (irtr_true_caption_first (λ _, Some [[1]; [0]; [0]; [0]; [1]; [0]]) (λ x, x)
           ITC.sample_nll IRTR.sample_batch 2 2 [7; 8]%nat [] (λ _, 2%nat)
           IRTR.sample_true IRTR.sample_false HK eq_refl eq_refl sample_fields_ok).
Defined.

(** The candidates of the sample batch, flattened: each anchor's true ids,
    then its two negatives; each image three times. *)
Example irtr_batch_infer_sample :
  IRTR.make_batch_infer IRTR.sample_batch 2
  = Some (2%nat,
          {| IRTR.image := [[7; 7; 7; 8; 8; 8]%nat];
             IRTR.text_ids := [[10; 11]; [110; 111]; [210; 211];
                               [12; 13]; [112; 113]; [212; 213]]%Z;
             IRTR.text_masks := [[20; 21]; [120; 121]; [220; 221];
                                 [22; 23]; [122; 123]; [222; 223]]%Z;
             IRTR.text_labels := [[30; 31]; [130; 131]; [230; 231];
                                  [32; 33]; [132; 133]; [232; 233]]%Z |}).
Proof. reflexivity. Qed.

(** ** Retrieval recall *)

Lemma enumerate_fst {A} (x : list A) : (enumerate x).*1 = seq 0 (length x).
Proof.
  apply list_eq. intros i. rewrite list_lookup_fmap. unfold enumerate.
  rewrite list_lookup_imap. destruct (x !! i) as [a|] eqn:Hx; simpl.
  - apply lookup_lt_Some in Hx. by rewrite lookup_seq_lt.
  - apply lookup_ge_None in Hx. by rewrite lookup_seq_ge.
Qed.

Lemma enumerate_elem {A} (x : list A) i a : (i, a) ∈ enumerate x ↔ x !! i = Some a.
Proof.
  rewrite list_elem_of_lookup. split.
  - intros [j Hj]. apply enumerate_lookup in Hj as (y & Hy & Heq). by simplify_eq.
  - intros Hi. exists i. apply enumerate_lookup. eauto.
Qed.

#[global] Instance before_total : Total Recall.before.
Proof.
  intros [i a] [j b]. unfold Recall.before. simpl.
  destruct (Qclt_le_dec b a) as [?|Hle]; [by left; left|].
  destruct (Qcle_lt_or_eq _ _ Hle) as [?| ->]; [by right; left|].
  destruct (Nat.le_ge_cases i j); [left|right]; by right.
Qed.

#[global] Instance before_trans : Transitive Recall.before.
Proof.
  intros [i a] [j b] [k c]. unfold Recall.before. simpl. intros H1 H2.
  destruct H1 as [H1|[Ha H1]]; destruct H2 as [H2|[Hb H2]]; subst.
  - left. by etrans.
  - by left.
  - by left.
  - right. split; [done|lia].
Qed.

#[global] Instance before_last_total : Total Recall.before_last.
Proof.
  intros [i a] [j b]. unfold Recall.before_last. simpl.
  destruct (Qclt_le_dec b a) as [?|Hle]; [by left; left|].
  destruct (Qcle_lt_or_eq _ _ Hle) as [?| ->]; [by right; left|].
  destruct (Nat.le_ge_cases i j); [right|left]; by right.
Qed.

#[global] Instance before_last_trans : Transitive Recall.before_last.
Proof.
  intros [i a] [j b] [k c]. unfold Recall.before_last. simpl. intros H1 H2.
  destruct H1 as [H1|[Ha H1]]; destruct H2 as [H2|[Hb H2]]; subst.
  - left. by etrans.
  - by left.
  - by left.
  - right. split; [done|lia].
Qed.

(** Sorting by an order that puts no lower score first, and keeping the
    first [k] positions, gives what [topk] promises. *)
Lemma sorted_by_is_topk (R : relation (nat * Qc)) `{!RelDecision R, !Total R,
    !Transitive R} k (x : list Qc) :
  (∀ a b, R a b → b.2 ≤ a.2) → (k ≤ length x)%nat →
  Recall.is_topk k x (take k (merge_sort R (enumerate x)).*1).
Proof.
  intros HR Hk. unfold Recall.is_topk.
  set (s := merge_sort R (enumerate x)).
  assert (s ≡ₚ enumerate x) as Hperm by apply merge_sort_Permutation.
  assert (s.*1 ≡ₚ seq 0 (length x)) as Hperm1.
  { by rewrite Hperm, enumerate_fst. }
  assert (length s = length x) as Hlen.
  { by rewrite Hperm, enumerate_length. }
  split; [|split; [|split]].
  - rewrite length_take, length_fmap. lia.
  - eapply sublist_NoDup; [|apply sublist_take]. rewrite Hperm1. apply NoDup_seq.
  - intros j Hj. assert (j ∈ s.*1) as Hin.
    { eapply elem_of_sublist; [exact Hj|]. apply sublist_take. }
    rewrite Hperm1 in Hin. apply elem_of_seq in Hin. lia.
  - intros j j' v v' Hj Hj' Hv Hv'.
    rewrite <-fmap_take in Hj, Hj'.
    apply list_elem_of_fmap in Hj as ([j0 v0] & -> & Hin). simpl in *.
    assert ((j0, v0) ∈ enumerate x) as He.
    { rewrite <-Hperm. eapply elem_of_sublist; [exact Hin|]. apply sublist_take. }
    apply enumerate_elem in He. assert (v0 = v) as -> by congruence.
    assert ((j', v') ∈ s) as Hs' by (rewrite Hperm; by apply enumerate_elem).
    rewrite <-(take_drop k s) in Hs'. apply elem_of_app in Hs' as [Hs'|Hs'].
    { exfalso. apply Hj'. apply list_elem_of_fmap. by exists (j', v'). }
    assert (StronglySorted R (take k s ++ drop k s)) as Hsorted.
    { rewrite take_drop. apply StronglySorted_merge_sort; apply _. }
    pose proof (StronglySorted_app_1_elem_of _ _ _ _ _ Hsorted Hin Hs') as Hb.
    by apply HR in Hb.
Qed.

(** The three [topk] of the examples meet the contract. *)
Lemma sorted_topk_contract : Recall.topk_contract Recall.sorted_topk.
Proof.
  intros k x. unfold Recall.sorted_topk.
  destruct (decide (k ≤ length x)%nat) as [Hk|Hk]; [|done].
  eexists. split; [reflexivity|].
  apply (sorted_by_is_topk Recall.before); [|exact Hk].
  intros [i a] [j b] [Hlt|[Heq _]]; simpl in *;
    [by apply Qclt_le_weak|rewrite Heq; apply Qcle_refl].
Qed.

Lemma last_topk_contract : Recall.topk_contract Recall.last_topk.
Proof.
  intros k x. unfold Recall.last_topk.
  destruct (decide (k ≤ length x)%nat) as [Hk|Hk]; [|done].
  eexists. split; [reflexivity|].
  apply (sorted_by_is_topk Recall.before_last); [|exact Hk].
  intros [i a] [j b] [Hlt|[Heq _]]; simpl in *;
    [by apply Qclt_le_weak|rewrite Heq; apply Qcle_refl].
Qed.

Lemma mixed_topk_contract : Recall.topk_contract Recall.mixed_topk.
Proof.
  intros k x. unfold Recall.mixed_topk. destruct (decide (k = 1)%nat).
  - apply sorted_topk_contract.
  - apply last_topk_contract.
Qed.

Lemma topk_Some topk k (x : list Qc) :
  Recall.topk_contract topk → (k ≤ length x)%nat →
  ∃ idx, topk k x = Some idx ∧ Recall.is_topk k x idx.
Proof. intros Hc Hk. specialize (Hc k x). by rewrite decide_True in Hc. Qed.

Lemma topk_inv topk k (x : list Qc) idx :
  Recall.topk_contract topk → topk k x = Some idx →
  (k ≤ length x)%nat ∧ Recall.is_topk k x idx.
Proof.
  intros Hc Hidx. specialize (Hc k x). case_decide as Hk.
  - destruct Hc as (idx' & Heq & Hspec). split; [done|]. congruence.
  - congruence.
Qed.

Lemma Qc_max_0_l b : b = 0 ∨ b = 1 → Recall.Qc_max 0 b = b.
Proof.
  intros [-> | ->]; unfold Recall.Qc_max; case_decide as H; try done.
  exfalso. apply H. by vm_compute.
Qed.

Lemma Qc_max_1_l b : b = 0 ∨ b = 1 → Recall.Qc_max 1 b = 1.
Proof.
  intros [-> | ->]; unfold Recall.Qc_max; case_decide as H; done.
Qed.

Lemma max_of_indicator (xs : list Qc) :
  Forall (λ x, x = 0 ∨ x = 1) xs → xs ≠ [] →
  Recall.max_of xs = Some (if decide (1 ∈ xs) then 1 else 0).
Proof.
  intros Hxs Hne. destruct xs as [|x rest]; [done|]. simpl. f_equal.
  apply Forall_cons in Hxs as [Hx Hrest]. clear Hne.
  induction Hrest as [|r rest Hr _ IH].
  - simpl. destruct Hx as [-> | ->].
    + rewrite decide_False; [done|]. intros Hin%list_elem_of_singleton. done.
    + rewrite decide_True; [done|]. apply list_elem_of_here.
  - simpl. rewrite IH.
    assert ((if decide (1 ∈ x :: rest) then (1 : Qc) else 0) = 0 ∨
            (if decide (1 ∈ x :: rest) then (1 : Qc) else 0) = 1) as Hb.
    { case_decide; auto. }
    assert (∀ y : Qc, y ∈ x :: r :: rest ↔ y = r ∨ y ∈ x :: rest) as Hmid.
    { intros y. rewrite !elem_of_cons. tauto. }
    destruct Hr as [-> | ->].
    + rewrite Qc_max_0_l by done.
      destruct (decide (1 ∈ x :: rest)) as [Hin|Hin].
      * rewrite decide_True; [done|]. apply Hmid. by right.
      * rewrite decide_False; [done|]. rewrite Hmid. by intros [?|?].
    + rewrite Qc_max_1_l by done. rewrite decide_True; [done|]. apply Hmid. by left.
Qed.

Lemma eq_float_binary a bs : Forall (λ x, x = 0 ∨ x = 1) (Recall.eq_float a bs).
Proof.
  unfold Recall.eq_float. apply Forall_fmap, Forall_forall. intros b _. simpl.
  case_decide; auto.
Qed.

Lemma eq_float_one a bs : 1 ∈ Recall.eq_float a bs ↔ a ∈ bs.
Proof.
  unfold Recall.eq_float. rewrite list_elem_of_fmap. split.
  - intros (b & Hb & Hin). case_decide; [by subst|done].
  - intros Hin. exists a. by rewrite decide_True.
Qed.

Lemma hit_spec topk k ids (q : Z * list Qc) :
  Recall.topk_contract topk →
  (0 < k ≤ length q.2)%nat → (length q.2 ≤ length ids)%nat →
  Recall.hit topk k ids q = Some (if decide (Recall.found topk k ids q) then 1 else 0).
Proof.
  intros Hc Hk Hids. unfold Recall.hit.
  destruct (topk_Some topk k q.2 Hc) as (idx & Hidx & Hlen & _ & Hrange & _); [lia|].
  destruct (decide (Recall.found topk k ids q)) as [Hf|Hf];
    unfold Recall.found in Hf; rewrite Hidx in Hf; rewrite Hidx; simpl.
  all: destruct (index_select_total ids idx) as [best Hbest];
    [apply Forall_forall; intros j Hj; specialize (Hrange j Hj); lia|].
  all: rewrite Hbest; simpl.
  all: pose proof Hbest as Hb2; unfold index_select in Hb2; apply mapM_Some_1 in Hb2.
  all: rewrite max_of_indicator; [|apply eq_float_binary|].
  - rewrite decide_True; [done|]. apply eq_float_one.
    apply Exists_exists in Hf as (j & Hj & Hid).
    apply list_elem_of_lookup in Hj as [i Hi].
    destruct (Forall2_lookup_l _ _ _ _ _ Hb2 Hi) as (y & Hy & Hjy).
    apply list_elem_of_lookup. exists i. congruence.
  - intros Hnil. apply (f_equal length) in Hnil. unfold Recall.eq_float in Hnil.
    rewrite length_fmap, <-(Forall2_length _ _ _ Hb2) in Hnil. simpl in Hnil. lia.
  - rewrite decide_False; [done|]. rewrite eq_float_one. intros Hin. apply Hf.
    apply list_elem_of_lookup in Hin as [i Hi].
    destruct (Forall2_lookup_r _ _ _ _ _ Hb2 Hi) as (j & Hj & Hjy).
    apply Exists_exists. exists j. split; [|done].
    apply list_elem_of_lookup. eauto.
  - intros Hnil. apply (f_equal length) in Hnil. unfold Recall.eq_float in Hnil.
    rewrite length_fmap, <-(Forall2_length _ _ _ Hb2) in Hnil. simpl in Hnil. lia.
Qed.

Lemma sum_indicator {A} (P : A → Prop) `{∀ x, Decision (P x)} (l : list A) :
  sum_Qc ((λ x, if decide (P x) then (1 : Qc) else 0) <$> l)
  = Qc_of_nat (length (filter P l)).
Proof.
  induction l as [|x l IH].
  - symmetry. by apply Qc_of_nat_0.
  - rewrite fmap_cons, sum_Qc_cons, IH. destruct (decide (P x)).
    + rewrite filter_cons_True by done. simpl. by rewrite Qc_of_nat_S.
    + rewrite filter_cons_False by done. by rewrite Qcplus_0_l.
Qed.

Lemma mean_indicator {A} (P : A → Prop) `{∀ x, Decision (P x)} (l : list A) :
  tensor_mean ((λ x, if decide (P x) then (1 : Qc) else 0) <$> l)
  = Recall.fraction (length (filter P l)) (length l).
Proof.
  unfold tensor_mean, Recall.fraction. by rewrite sum_indicator, length_fmap.
Qed.

Lemma column_spec (scores : list (list Qc)) j :
  Forall (λ row, j < length row)%nat scores →
  length (omap (λ row : list Qc, row !! j) scores) = length scores ∧
  ∀ r row, scores !! r = Some row →
    omap (λ row : list Qc, row !! j) scores !! r = row !! j.
Proof.
  induction 1 as [|row0 scores Hj _ [IHl IHc]]; [done|].
  destruct (lookup_lt_is_Some_2 row0 j Hj) as [x Hx].
  assert (omap (λ row : list Qc, row !! j) (row0 :: scores)
          = x :: omap (λ row : list Qc, row !! j) scores) as ->.
  { cbn. by rewrite Hx. }
  split; [simpl; by rewrite IHl|].
  intros [|r] row Hr; simpl in *; [by simplify_eq|]. by apply IHc.
Qed.

Lemma transpose_spec M T (scores : list (list Qc)) :
  shape2 M T scores →
  shape2 T M (Recall.transpose T scores) ∧
  ∀ j r row x, scores !! r = Some row → row !! j = Some x →
    ∃ col, Recall.transpose T scores !! j = Some col ∧ col !! r = Some x.
Proof.
  intros [HM HT]. unfold Recall.transpose.
  assert (∀ j, (j < T)%nat → Forall (λ row : list Qc, j < length row)%nat scores)
    as Hcols.
  { intros j Hj. eapply Forall_impl; [exact HT|]. simpl. intros row ->. done. }
  split; [split|].
  - by rewrite length_fmap, length_seq.
  - apply Forall_fmap, Forall_forall. intros j Hj%elem_of_seq. simpl.
    destruct (column_spec scores j) as [Hl _]; [apply Hcols; lia|]. congruence.
  - intros j r row x Hr Hx.
    assert (j < T)%nat as Hj.
    { rewrite Forall_lookup in HT. rewrite <-(HT _ _ Hr). by eapply lookup_lt_Some. }
    eexists. split.
    + rewrite list_lookup_fmap, lookup_seq_lt by done. reflexivity.
    + simpl. destruct (column_spec scores j (Hcols j Hj)) as [_ Hc].
      by rewrite (Hc r row Hr).
Qed.

Lemma hits_spec topk k ids (queries : list (Z * list Qc)) n :
  Recall.topk_contract topk →
  (0 < k ≤ n)%nat → (n ≤ length ids)%nat →
  Forall (λ q, length q.2 = n) queries →
  mapM (Recall.hit topk k ids) queries
  = Some ((λ q, if decide (Recall.found topk k ids q) then (1 : Qc) else 0)
            <$> queries).
Proof.
  intros Hc Hk Hn Hq. apply mapM_total. intros q Hin.
  rewrite Forall_forall in Hq. specialize (Hq q Hin).
  apply hit_spec; [done|lia|lia].
Qed.

Lemma tr_recall_spec topk k M T (iids tiids : list Z) (scores : list (list Qc)) :
  Recall.topk_contract topk →
  shape2 M T scores → length iids = M → length tiids = T → (0 < k ≤ T)%nat →
  Recall.tr_recall topk k iids tiids scores
  = Some (Recall.recall_of topk k tiids (zip iids scores)).
Proof.
  intros Hc [HM HT] Hi Ht Hk. unfold Recall.tr_recall.
  rewrite zip_same_Some by congruence. cbn [mbind option_bind].
  rewrite (hits_spec topk k tiids _ T); [|done|done|lia|].
  - cbn [mbind option_bind]. by rewrite mean_indicator.
  - apply Forall_lookup. intros r [a row] Hr. simpl.
    apply lookup_zip_with_Some in Hr as (a' & row' & Heq & _ & Hrow). simplify_eq.
    rewrite Forall_lookup in HT. by eapply HT.
Qed.

Lemma ir_recall_spec topk k M T (iids tiids : list Z) (scores : list (list Qc)) :
  Recall.topk_contract topk →
  shape2 M T scores → length iids = M → length tiids = T →
  (0 < k ≤ M)%nat →
  Recall.ir_recall topk k iids tiids scores
  = Some (Recall.recall_of topk k iids (zip tiids (Recall.transpose T scores))).
Proof.
  intros Hc Hshape Hi Ht Hk. pose proof Hshape as [HM HT].
  destruct (transpose_spec M T scores Hshape) as [[HtT HtM] _].
  unfold Recall.ir_recall.
  destruct (lookup_lt_is_Some_2 scores 0) as [row0 Hrow0]; [lia|].
  rewrite Hrow0. cbn [mbind option_bind].
  assert (length row0 = T) as ->.
  { rewrite Forall_lookup in HT. by eapply HT. }
  rewrite zip_same_Some by congruence. cbn [mbind option_bind].
  rewrite (hits_spec topk k iids _ M); [|done|done|lia|].
  - cbn [mbind option_bind]. by rewrite mean_indicator.
  - apply Forall_lookup. intros j [a col] Hj. simpl.
    apply lookup_zip_with_Some in Hj as (a' & col' & Heq & _ & Hcol). simplify_eq.
    rewrite Forall_lookup in HtM. by eapply HtM.
Qed.

Lemma compute_irtr_recall_value topk tiids gs gi iids scores M T :
  Recall.topk_contract topk →
  Recall.make_iids gi = Some iids → length iids = M →
  Recall.make_scores gs M = Some scores → shape2 M T scores →
  length tiids = T → (10 ≤ M)%nat → (10 ≤ T)%nat →
  Recall.compute_irtr_recall topk tiids gs gi
    = Some (Recall.recall_of topk 1 iids (zip tiids (Recall.transpose T scores)),
            Recall.recall_of topk 5 iids (zip tiids (Recall.transpose T scores)),
            Recall.recall_of topk 10 iids (zip tiids (Recall.transpose T scores)),
            Recall.recall_of topk 1 tiids (zip iids scores),
            Recall.recall_of topk 5 tiids (zip iids scores),
            Recall.recall_of topk 10 tiids (zip iids scores)).
Proof.
  intros Hc Hi HM Hs Hshape HT HM10 HT10.
  unfold Recall.compute_irtr_recall. rewrite Hi. cbn [mbind option_bind].
  rewrite HM, Hs. cbn [mbind option_bind].
  rewrite !(tr_recall_spec topk _ M T) by (done || lia). cbn [mbind option_bind].
  rewrite !(ir_recall_spec topk _ M T) by (done || lia). reflexivity.
Qed.

Lemma found_spec topk k ids (q : Z * list Qc) :
  Recall.found topk k ids q ↔
  ∃ idx j, topk k q.2 = Some idx ∧ j ∈ idx ∧ ids !! j = Some q.1.
Proof.
  unfold Recall.found. destruct (topk k q.2) as [idx|].
  - rewrite Exists_exists. split.
    + intros (j & Hj & Hid). eauto.
    + intros (idx' & j & Heq & Hj & Hid). simplify_eq. eauto.
  - split; [done|]. by intros (idx & j & Heq & _).
Qed.

Lemma hit_None_short topk k ids (q : Z * list Qc) :
  Recall.topk_contract topk → (length q.2 < k)%nat → Recall.hit topk k ids q = None.
Proof.
  intros Hc Hk. unfold Recall.hit. specialize (Hc k q.2).
  rewrite decide_False in Hc by lia. by rewrite Hc.
Qed.

(** A score matrix whose rows have fewer than [k] columns makes the
    image-to-text recall at [k] raise. *)
Lemma tr_recall_short_rows topk k (iids tiids : list Z) (scores : list (list Qc)) i row :
  Recall.topk_contract topk →
  iids !! 0%nat = Some i → scores !! 0%nat = Some row → (length row < k)%nat →
  Recall.tr_recall topk k iids tiids scores = None.
Proof.
  intros Hc Hi Hrow Hk. unfold Recall.tr_recall, zip_same.
  case_decide; [|done]. cbn [mbind option_bind].
  assert (mapM (Recall.hit topk k tiids) (zip iids scores) = None) as ->; [|done].
  apply mapM_None_2, Exists_exists. exists (i, row). split.
  - apply list_elem_of_lookup. exists 0%nat. apply lookup_zip_with_Some. eauto.
  - by apply hit_None_short.
Qed.

(** The toy corpus of three images with one caption each: [topk(10)] has
    only three candidates to choose from and raises, whichever way it
    settles ties, so no scalar is returned. *)
Lemma irtr_recall_small_corpus :
  Recall.make_iids [[1; 2; 3]%Z] = Some [1; 2; 3]%Z ∧
  Recall.make_scores [[[1; 0; 0]; [0; 1; 0]; [0; 0; 1]]] 3
    = Some [[1; 0; 0]; [0; 1; 0]; [0; 0; 1]] ∧
  Recall.compute_irtr_recall Recall.sorted_topk [1; 2; 3]%Z
    [[[1; 0; 0]; [0; 1; 0]; [0; 0; 1]]] [[1; 2; 3]%Z] = None ∧
  (∀ topk, Recall.topk_contract topk →
     Recall.compute_irtr_recall topk [1; 2; 3]%Z
       [[[1; 0; 0]; [0; 1; 0]; [0; 0; 1]]] [[1; 2; 3]%Z] = None).
Proof.
  split; [reflexivity|]. split; [reflexivity|]. split; [reflexivity|].
  intros topk Hc. unfold Recall.compute_irtr_recall.
  change (Recall.make_iids [[1; 2; 3]%Z]) with (Some [1; 2; 3]%Z).
  cbn [mbind option_bind length].
  change (Recall.make_scores [[[1; 0; 0]; [0; 1; 0]; [0; 0; 1]]] 3)
    with (Some [[(1 : Qc); 0; 0]; [0; 1; 0]; [0; 0; 1]]).
  cbn [mbind option_bind].
  rewrite (tr_recall_short_rows topk 10 _ _ _ 1%Z [1; 0; 0]); [done..|].
  simpl. lia.
Qed.

(** C8, amended: for a gathered corpus of at least ten images and ten texts,
    and whichever of several equal scores [topk] returns,
    [compute_irtr_recall] returns six scalars in the order (ir@1, ir@5,
    ir@10, tr@1, tr@5, tr@10).  Over the dense image-by-text score matrix,
    tr@K is the image-to-text recall: the fraction of image rows for which
    the K texts [topk] returns include a text whose stored source-image
    index is the image's id; ir@K is the text-to-image recall: the fraction
    of text columns for which the K images [topk] returns include the image
    with the text's source-image index.  Matching is by index value, not by
    position. *)
Theorem irtr_recall_six_scalars (topk : nat → list Qc → option (list nat))
    (tiids : list Z)
    (gather_rank_scores : list (list (list Qc))) (gather_rank_iids : list (list Z))
    (iids : list Z) (scores : list (list Qc)) (M T : nat) :
  Recall.topk_contract topk →
  Recall.make_iids gather_rank_iids = Some iids →
  length iids = M →
  Recall.make_scores gather_rank_scores M = Some scores →
  shape2 M T scores →
  length tiids = T →
  (10 ≤ M)%nat → (10 ≤ T)%nat →
  Recall.compute_irtr_recall topk tiids gather_rank_scores gather_rank_iids
    = Some (Recall.recall_of topk 1 iids (zip tiids (Recall.transpose T scores)),
            Recall.recall_of topk 5 iids (zip tiids (Recall.transpose T scores)),
            Recall.recall_of topk 10 iids (zip tiids (Recall.transpose T scores)),
            Recall.recall_of topk 1 tiids (zip iids scores),
            Recall.recall_of topk 5 tiids (zip iids scores),
            Recall.recall_of topk 10 tiids (zip iids scores)) ∧
  (∀ j r row x, scores !! r = Some row → row !! j = Some x →
     ∃ col, Recall.transpose T scores !! j = Some col ∧ col !! r = Some x) ∧
  (∀ k ids queries,
     Recall.recall_of topk k ids queries
     = scalar_div
         (Num (Qc_of_nat (length (filter (Recall.found topk k ids) queries))))
         (Num (Qc_of_nat (length queries)))) ∧
  (∀ k ids q, Recall.found topk k ids q ↔
     ∃ idx j, topk k q.2 = Some idx ∧ j ∈ idx ∧ ids !! j = Some q.1) ∧
  (∀ k x idx, topk k x = Some idx →
     length idx = k ∧ NoDup idx ∧
     (∀ j, j ∈ idx → (j < length x)%nat) ∧
     (∀ j j' v v', j ∈ idx → j' ∉ idx → x !! j = Some v → x !! j' = Some v' →
        v' ≤ v)).
Proof.
  intros Hc Hi HM Hs Hshape HT HM10 HT10. split; [|split; [|split; [|split]]].
  - unfold Recall.compute_irtr_recall. rewrite Hi. cbn [mbind option_bind].
    rewrite HM, Hs. cbn [mbind option_bind].
    rewrite !(tr_recall_spec topk _ M T) by (done || lia). cbn [mbind option_bind].
    rewrite !(ir_recall_spec topk _ M T) by (done || lia). reflexivity.
  - apply (transpose_spec M T scores Hshape).
  - reflexivity.
  - intros k ids q. apply found_spec.
  - intros k x idx Hidx. by destruct (topk_inv topk k x idx Hc Hidx) as [_ ?].
Qed.

Lemma irtr_recall_six_scalars_witness :
  let topk := Recall.sorted_topk in
  let scores := Recall.sample_scores_row <$> seq 0 10 in
  (Recall.topk_contract topk ∧
   Recall.make_iids Recall.sample_gather_iids = Some Recall.sample_tiids ∧
   length Recall.sample_tiids = 10%nat ∧
   Recall.make_scores Recall.sample_gather_scores 10 = Some scores ∧
   shape2 10 10 scores ∧ (10 ≤ 10)%nat) ∧
  Recall.compute_irtr_recall topk Recall.sample_tiids Recall.sample_gather_scores
      Recall.sample_gather_iids
    = Some (Recall.recall_of topk 1 Recall.sample_tiids
              (zip Recall.sample_tiids (Recall.transpose 10 scores)),
            Recall.recall_of topk 5 Recall.sample_tiids
              (zip Recall.sample_tiids (Recall.transpose 10 scores)),
            Recall.recall_of topk 10 Recall.sample_tiids
              (zip Recall.sample_tiids (Recall.transpose 10 scores)),
            Recall.recall_of topk 1 Recall.sample_tiids
              (zip Recall.sample_tiids scores),
            Recall.recall_of topk 5 Recall.sample_tiids
              (zip Recall.sample_tiids scores),
            Recall.recall_of topk 10 Recall.sample_tiids
              (zip Recall.sample_tiids scores)) ∧
  (∀ j r row x, scores !! r = Some row → row !! j = Some x →
     ∃ col, Recall.transpose 10 scores !! j = Some col ∧ col !! r = Some x) ∧
  (∀ k ids queries,
     Recall.recall_of topk k ids queries
     = scalar_div
         (Num (Qc_of_nat (length (filter (Recall.found topk k ids) queries))))
         (Num (Qc_of_nat (length queries)))) ∧
  (∀ k ids q, Recall.found topk k ids q ↔
     ∃ idx j, topk k q.2 = Some idx ∧ j ∈ idx ∧ ids !! j = Some q.1) ∧
  (∀ k x idx, topk k x = Some idx →
     length idx = k ∧ NoDup idx ∧
     (∀ j, j ∈ idx → (j < length x)%nat) ∧
     (∀ j j' v v', j ∈ idx → j' ∉ idx → x !! j = Some v → x !! j' = Some v' →
        v' ≤ v)).
Proof.
  intros topk scores.
  assert (shape2 10 10 scores) as Hshape.
  { split; [reflexivity|]. repeat (constructor; [reflexivity|]). constructor. }
  assert (10 ≤ 10)%nat as Hle by lia.
  assert (Recall.make_scores Recall.sample_gather_scores 10 = Some scores) as Hs.
  { reflexivity. }
  split; [exact (conj sorted_topk_contract
                   (conj eq_refl (conj eq_refl (conj Hs (conj Hshape Hle)))))|].
  exact (irtr_recall_six_scalars topk Recall.sample_tiids Recall.sample_gather_scores
           Recall.sample_gather_iids Recall.sample_tiids scores 10 10
           sorted_topk_contract eq_refl eq_refl Hs Hshape eq_refl Hle Hle).
Defined.

(** On the sample corpus every query finds its match first. *)
Example irtr_recall_sample :
  Recall.compute_irtr_recall Recall.sorted_topk Recall.sample_tiids
    Recall.sample_gather_scores Recall.sample_gather_iids
  = Some (Num 1, Num 1, Num 1, Num 1, Num 1, Num 1).
Proof.
  vm_compute.
  assert ({| this := 1; canon := Qred_involutive (10 # 10) |} = (1 : Qc)) as ->.
  { by apply Qc_is_canon. }
  reflexivity.
Qed.

(** ** Retrieval recall: when it returns, and what the values can be *)

Lemma Qc_of_nat_le n m : (n ≤ m)%nat → Qc_of_nat n ≤ Qc_of_nat m.
Proof. intros H. unfold Qc_of_nat. apply (proj1 (Z2Qc_inj_le _ _)). lia. Qed.

Lemma Qc_of_nat_pos n : (0 < n)%nat → 0 < Qc_of_nat n.
Proof.
  intros H. unfold Qc_of_nat. rewrite <-Z2Qc_inj_0. apply (proj1 (Z2Qc_inj_lt _ _)). lia.
Qed.

Lemma Qc_of_nat_nonneg n : 0 ≤ Qc_of_nat n.
Proof. unfold Qc_of_nat. rewrite <-Z2Qc_inj_0. apply (proj1 (Z2Qc_inj_le _ _)). lia. Qed.

Lemma Qcdiv_le_mono (a b c : Qc) : 0 < c → a ≤ b → a / c ≤ b / c.
Proof.
  intros Hc Hab. unfold Qcdiv. apply Qcmult_le_compat_r; [done|].
  apply Qclt_le_weak. by apply Qcinv_pos.
Qed.

Lemma fraction_range hits total :
  (hits ≤ total)%nat → (0 < total)%nat →
  ∃ q, Recall.fraction hits total = Num q ∧ 0 ≤ q ∧ q ≤ 1.
Proof.
  intros Hle Hpos. unfold Recall.fraction, scalar_div.
  pose proof (Qc_of_nat_pos total Hpos) as Ht.
  rewrite decide_False by (by apply not_symmetry, Qclt_not_eq).
  eexists. split; [reflexivity|]. split.
  - unfold Qcdiv. apply Qcmult_nonneg_nonneg; [apply Qc_of_nat_nonneg|].
    apply Qclt_le_weak. by apply Qcinv_pos.
  - assert (Qc_of_nat total / Qc_of_nat total = 1) as <-.
    { unfold Qcdiv. apply Qcmult_inv_r. by apply not_symmetry, Qclt_not_eq. }
    apply Qcdiv_le_mono; [done|]. by apply Qc_of_nat_le.
Qed.

Lemma fraction_mono hits hits' total :
  (hits ≤ hits')%nat → (0 < total)%nat →
  scalar_le (Recall.fraction hits total) (Recall.fraction hits' total).
Proof.
  intros Hle Hpos. unfold Recall.fraction, scalar_div.
  pose proof (Qc_of_nat_pos total Hpos) as Ht.
  rewrite !decide_False by (by apply not_symmetry, Qclt_not_eq). simpl.
  apply Qcdiv_le_mono; [done|]. by apply Qc_of_nat_le.
Qed.

Lemma filter_length_mono {A} (P Q : A → Prop) `{∀ x, Decision (P x)}
    `{∀ x, Decision (Q x)} (l : list A) :
  (∀ x, x ∈ l → P x → Q x) → (length (filter P l) ≤ length (filter Q l))%nat.
Proof.
  induction l as [|x l IH]; intros HPQ; [done|].
  assert (length (filter P l) ≤ length (filter Q l))%nat as IH'.
  { apply IH. intros y Hy. apply HPQ. by apply list_elem_of_further. }
  destruct (decide (P x)) as [HP|HP].
  - rewrite (filter_cons_True P) by done.
    rewrite (filter_cons_True Q) by (apply HPQ; [apply list_elem_of_here|done]).
    simpl. lia.
  - rewrite (filter_cons_False P) by done.
    destruct (decide (Q x)).
    + rewrite (filter_cons_True Q) by done. simpl. lia.
    + by rewrite (filter_cons_False Q) by done.
Qed.

(** Without equal scores the candidates at a smaller cut-off are among those
    at a larger one, whichever [topk] is used. *)
Lemma found_mono topk k k' ids (q : Z * list Qc) :
  Recall.topk_contract topk →
  (k ≤ k')%nat → (k' ≤ length q.2)%nat → NoDup q.2 →
  Recall.found topk k ids q → Recall.found topk k' ids q.
Proof.
  intros Hc Hk Hk' Hnd. rewrite !found_spec.
  intros (idx & j & Hidx & Hj & Hid).
  destruct (topk_inv topk k q.2 idx Hc Hidx) as (_ & Hlen & Hdup & Hrange & Hdom).
  destruct (topk_Some topk k' q.2 Hc Hk')
    as (idx' & Hidx' & Hlen' & Hdup' & Hrange' & Hdom').
  exists idx', j. split; [done|]. split; [|done].
  destruct (decide (j ∈ idx')) as [|Hout]; [done|]. exfalso.
  destruct (lookup_lt_is_Some_2 q.2 j (Hrange j Hj)) as [v Hv].
  destruct (decide (Forall (λ j', j' ∈ idx) idx')) as [Hall|Hsome].
  - assert (j :: idx' ⊆+ idx) as Hsub.
    { apply NoDup_submseteq; [by apply NoDup_cons|].
      intros x [->|Hx]%elem_of_cons; [done|].
      rewrite Forall_forall in Hall. by apply Hall. }
    apply submseteq_length in Hsub. simpl in Hsub. lia.
  - apply not_Forall_Exists in Hsome; [|apply _].
    apply Exists_exists in Hsome as (j' & Hj' & Hnot).
    destruct (lookup_lt_is_Some_2 q.2 j' (Hrange' j' Hj')) as [v' Hv'].
    assert (v ≤ v') as Hle by (by apply (Hdom' j' j v' v)).
    assert (v' ≤ v) as Hge by (by apply (Hdom j j' v v')).
    assert (v = v') as <- by (by apply Qcle_antisym).
    assert (j = j') as <- by (exact (NoDup_lookup q.2 j j' v Hnd Hv Hv')).
    done.
Qed.

Lemma recall_of_range topk k ids (queries : list (Z * list Qc)) :
  queries ≠ [] →
  ∃ q, Recall.recall_of topk k ids queries = Num q ∧ 0 ≤ q ∧ q ≤ 1.
Proof.
  intros Hne. unfold Recall.recall_of. apply fraction_range.
  - apply length_filter.
  - destruct queries; [done|simpl; lia].
Qed.

Lemma recall_of_mono topk k k' ids (queries : list (Z * list Qc)) :
  Recall.topk_contract topk →
  (k ≤ k')%nat → Forall (λ q, k' ≤ length q.2 ∧ NoDup q.2)%nat queries →
  queries ≠ [] →
  scalar_le (Recall.recall_of topk k ids queries) (Recall.recall_of topk k' ids queries).
Proof.
  intros Hc Hk Hq Hne. unfold Recall.recall_of. apply fraction_mono.
  - apply filter_length_mono. intros q Hin. rewrite Forall_forall in Hq.
    destruct (Hq q Hin) as [Hlen Hnd]. by apply found_mono.
  - destruct queries; [done|simpl; lia].
Qed.

Lemma rectangular_true {A} l (t : list (list A)) :
  Forall (λ r, length r = l) t → Recall.rectangular t = true.
Proof.
  intros Ht. destruct t as [|r rest]; [done|]. simpl.
  apply Forall_cons in Ht as [Hr Hrest]. apply forallb_Forall_true.
  eapply Forall_impl; [exact Hrest|]. simpl. intros r' Hr'.
  apply bool_decide_eq_true. congruence.
Qed.

Lemma rectangular_ragged {A} (t : list (list A)) a b x y :
  t !! a = Some x → t !! b = Some y → length x ≠ length y →
  Recall.rectangular t = false.
Proof.
  intros Ha Hb Hne. destruct (Recall.rectangular t) eqn:Hrect; [|done].
  exfalso. destruct t as [|r rest]; [done|]. simpl in Hrect.
  assert (∀ i z, (r :: rest) !! i = Some z → length z = length r) as Hall.
  { intros [|i] z Hz; simpl in Hz; [by simplify_eq|].
    rewrite forallb_forall in Hrect. eapply bool_decide_eq_true_1, Hrect.
    apply list_elem_of_In, list_elem_of_lookup. eauto. }
  apply Hne. rewrite (Hall _ _ Ha), (Hall _ _ Hb). done.
Qed.

(** Cutting a flat tensor into [n] rows gives rows of one length. *)
Lemma make_scores_shape gs n scores :
  Recall.make_scores gs n = Some scores →
  n ≠ 0%nat ∧ ∃ c, shape2 n c scores.
Proof.
  unfold Recall.make_scores.
  destruct (_ && _); [|done]. case_decide as Hn; [|done]. intros [= <-].
  destruct Hn as [Hn Hmod]. split; [done|].
  set (flat := concat (concat gs)) in *.
  exists (length flat `div` n). split.
  - by rewrite length_fmap, length_seq.
  - apply Forall_fmap, Forall_forall. intros r Hr%elem_of_seq. simpl.
    rewrite length_take, length_drop.
    apply Nat.Div0.div_exact in Hmod.
    set (c := length flat `div` n) in *. nia.
Qed.

(** Cutting the concatenation of equally long rows gives the rows back. *)
Lemma rows_of_concat {A} n c (rows : list (list A)) :
  shape2 n c rows →
  (λ r, take c (drop (r * c)%nat (concat rows))) <$> seq 0 n = rows.
Proof.
  intros [Hn Hc]. subst n. induction Hc as [|row rows Hrow Hc IH]; [done|].
  cbn [length seq fmap list_fmap]. f_equal.
  - simpl. rewrite drop_0, take_app_length'; done.
  - rewrite <-IH at 2. rewrite <-fmap_S_seq, <-list_fmap_compose.
    apply list_fmap_ext. intros i r _. simpl. f_equal.
    rewrite drop_app_add'; done.
Qed.

Lemma hit_Some_length topk k ids (q : Z * list Qc) h :
  Recall.topk_contract topk →
  Recall.hit topk k ids q = Some h → (k ≤ length q.2)%nat.
Proof.
  intros Hc Hh. destruct (decide (k ≤ length q.2)%nat) as [|Hlt]; [done|].
  rewrite hit_None_short in Hh by (done || lia). done.
Qed.

Lemma omap_length_le {A B} (f : A → option B) (l : list A) :
  (length (omap f l) ≤ length l)%nat.
Proof.
  induction l as [|x l IH]; [done|]. cbn. destruct (f x); simpl; lia.
Qed.

(** A returned recall tuple needs what its computation needs: a score
    matrix with at least ten rows and ten columns, and one id per column. *)
Lemma compute_irtr_recall_inv topk tiids gs gi r :
  Recall.topk_contract topk →
  Recall.compute_irtr_recall topk tiids gs gi = Some r →
  ∃ iids scores M T,
    Recall.make_iids gi = Some iids ∧ length iids = M ∧
    Recall.make_scores gs M = Some scores ∧ shape2 M T scores ∧
    length tiids = T ∧ (10 ≤ M)%nat ∧ (10 ≤ T)%nat.
Proof.
  intros Hc. unfold Recall.compute_irtr_recall.
  destruct (Recall.make_iids gi) as [iids|] eqn:Hi; [|done]. cbn [mbind option_bind].
  destruct (Recall.make_scores gs (length iids)) as [scores|] eqn:Hs; [|done].
  cbn [mbind option_bind].
  destruct (Recall.tr_recall topk 10 iids tiids scores) as [tr10|] eqn:Htr; [|done].
  cbn [mbind option_bind].
  destruct (Recall.tr_recall topk 5 iids tiids scores); [|done].
  cbn [mbind option_bind].
  destruct (Recall.tr_recall topk 1 iids tiids scores); [|done].
  cbn [mbind option_bind].
  destruct (Recall.ir_recall topk 10 iids tiids scores) as [ir10|] eqn:Hir; [|done].
  intros _.
  destruct (make_scores_shape _ _ _ Hs) as (HM & c & Hshape).
  pose proof Hshape as [Hlen Hrows].
  destruct (lookup_lt_is_Some_2 scores 0) as [row0 Hrow0]; [lia|].
  assert (length row0 = c) as Hc0.
  { rewrite Forall_lookup in Hrows. by eapply Hrows. }
  destruct (lookup_lt_is_Some_2 iids 0) as [i0 Hi0]; [lia|].
  assert (10 ≤ c)%nat as Hc10.
  { destruct (decide (10 ≤ c)%nat) as [|Hlt]; [done|]. exfalso.
    rewrite (tr_recall_short_rows topk 10 iids tiids scores i0 row0) in Htr;
      [done..|lia]. }
  unfold Recall.ir_recall in Hir. rewrite Hrow0 in Hir. cbn [mbind option_bind] in Hir.
  unfold zip_same in Hir. case_decide as Ht; [|done]. cbn [mbind option_bind] in Hir.
  unfold Recall.transpose in Ht. rewrite length_fmap, length_seq, Hc0 in Ht.
  destruct (mapM (Recall.hit topk 10 iids) _) as [hits|] eqn:Hh in Hir; [|done].
  apply mapM_Some_1 in Hh.
  destruct (lookup_lt_is_Some_2 tiids 0) as [t0 Ht0]; [lia|].
  assert (zip tiids (Recall.transpose (length row0) scores) !! 0%nat
          = Some (t0, omap (λ row : list Qc, row !! 0%nat) scores)) as Hz.
  { apply lookup_zip_with_Some. eexists _, _. split; [done|]. split; [done|].
    unfold Recall.transpose. rewrite list_lookup_fmap, lookup_seq_lt by lia. done. }
  destruct (Forall2_lookup_l _ _ _ _ _ Hh Hz) as (h & _ & Hhit).
  apply (hit_Some_length topk _ _ _ _ Hc) in Hhit. simpl in Hhit.
  pose proof (omap_length_le (λ row : list Qc, row !! 0%nat) scores).
  exists iids, scores, (length iids), c. repeat split; try done; lia.
Qed.

(** [compute_irtr_recall] returns exactly for a gathered corpus of at least
    ten images and at least ten texts whose scores form one image-by-text
    matrix with as many columns as [tiids] has entries; on any smaller
    corpus [topk(10)] raises.  This does not depend on how [topk] settles
    equal scores. *)
Theorem irtr_recall_returns_iff_ten topk tiids gs gi :
  Recall.topk_contract topk →
  is_Some (Recall.compute_irtr_recall topk tiids gs gi) ↔
  ∃ iids scores M T,
    Recall.make_iids gi = Some iids ∧ length iids = M ∧
    Recall.make_scores gs M = Some scores ∧ shape2 M T scores ∧
    length tiids = T ∧ (10 ≤ M)%nat ∧ (10 ≤ T)%nat.
Proof.
  intros Hc. split.
  - intros [r Hr]. by eapply compute_irtr_recall_inv.
  - intros (iids & scores & M & T & Hi & HM & Hs & Hshape & HT & HM10 & HT10).
    rewrite (compute_irtr_recall_value topk _ _ _ iids scores M T) by done.
    by eexists.
Qed.

Lemma irtr_recall_returns_iff_ten_witness :
  Recall.topk_contract Recall.sorted_topk ∧
  is_Some (Recall.compute_irtr_recall Recall.sorted_topk Recall.sample_tiids
             Recall.sample_gather_scores Recall.sample_gather_iids) ∧
  ¬ is_Some (Recall.compute_irtr_recall Recall.sorted_topk [1; 2; 3]%Z
               [[[1; 0; 0]; [0; 1; 0]; [0; 0; 1]]] [[1; 2; 3]%Z]).
Proof.
  split; [exact sorted_topk_contract|]. split.
  - apply (proj2 (irtr_recall_returns_iff_ten Recall.sorted_topk Recall.sample_tiids
                    Recall.sample_gather_scores Recall.sample_gather_iids
                    sorted_topk_contract)).
    exists Recall.sample_tiids, (Recall.sample_scores_row <$> seq 0 10), 10%nat, 10%nat.
    split; [reflexivity|]. split; [reflexivity|]. split; [reflexivity|].
    split; [|split; [reflexivity|lia]].
    split; [reflexivity|]. repeat (constructor; [reflexivity|]). constructor.
  - intros Hsome.
    destruct (proj1 (irtr_recall_returns_iff_ten Recall.sorted_topk _ _ _
                       sorted_topk_contract) Hsome)
      as (iids & scores & M & T & _ & _ & _ & _ & HT & _ & HT10).
    simpl in HT. lia.
Defined.

(** Every recall that [compute_irtr_recall] returns is a finite number
    between 0 and 1. *)
Theorem irtr_recall_in_unit_interval topk tiids gs gi ir1 ir5 ir10 tr1 tr5 tr10 :
  Recall.topk_contract topk →
  Recall.compute_irtr_recall topk tiids gs gi
    = Some (ir1, ir5, ir10, tr1, tr5, tr10) →
  Forall (λ s, ∃ q, s = Num q ∧ 0 ≤ q ∧ q ≤ 1) [ir1; ir5; ir10; tr1; tr5; tr10].
Proof.
  intros Hc H.
  destruct (compute_irtr_recall_inv topk _ _ _ _ Hc H)
    as (iids & scores & M & T & Hi & HM & Hs & Hshape & HT & HM10 & HT10).
  rewrite (compute_irtr_recall_value topk _ _ _ iids scores M T) in H by done.
  injection H as <- <- <- <- <- <-.
  destruct (transpose_spec M T scores Hshape) as [[HtT _] _].
  destruct Hshape as [Hlen _].
  assert (zip tiids (Recall.transpose T scores) ≠ []) as Hcols.
  { intros Hnil%(f_equal length). rewrite length_zip in Hnil. simpl in Hnil. lia. }
  assert (zip iids scores ≠ []) as Hr.
  { intros Hnil%(f_equal length). rewrite length_zip in Hnil. simpl in Hnil. lia. }
  repeat (apply Forall_cons; split; [by apply recall_of_range|]).
  apply Forall_nil_2.
Qed.

Lemma irtr_recall_in_unit_interval_witness :
  (Recall.topk_contract Recall.sorted_topk ∧
   Recall.compute_irtr_recall Recall.sorted_topk Recall.sample_tiids
     Recall.sample_gather_scores Recall.sample_gather_iids
     = Some (Num 1, Num 1, Num 1, Num 1, Num 1, Num 1)) ∧
  Forall (λ s, ∃ q, s = Num q ∧ 0 ≤ q ∧ q ≤ 1)
    [Num 1; Num 1; Num 1; Num 1; Num 1; Num 1].
Proof.
  split; [exact (conj sorted_topk_contract irtr_recall_sample)|].
  exact (irtr_recall_in_unit_interval Recall.sorted_topk _ _ _ _ _ _ _ _ _
           sorted_topk_contract irtr_recall_sample).
Defined.

Lemma zip_queries_Forall {A} (P : list Qc → Prop) (ids : list A)
    (vectors : list (list Qc)) :
  Forall P vectors → Forall (λ q : A * list Qc, P q.2) (zip ids vectors).
Proof.
  intros Hv. apply Forall_lookup. intros j [a v] Hj. simpl.
  apply lookup_zip_with_Some in Hj as (a' & v' & Heq & _ & Hvec). simplify_eq.
  rewrite Forall_lookup in Hv. by eapply Hv.
Qed.

(** When no image has two texts with the same score, the image-to-text
    recall does not decrease with the cut-off: recall at 1 is at most recall
    at 5, which is at most recall at 10.  The same holds for the
    text-to-image recall when no text has two images with the same score.
    With equal scores the three [topk] calls choose independently, and the
    order of the recalls is not determined. *)
Theorem irtr_recall_grows_with_cutoff topk tiids gs gi iids scores
    ir1 ir5 ir10 tr1 tr5 tr10 :
  Recall.topk_contract topk →
  Recall.make_iids gi = Some iids →
  Recall.make_scores gs (length iids) = Some scores →
  Recall.compute_irtr_recall topk tiids gs gi
    = Some (ir1, ir5, ir10, tr1, tr5, tr10) →
  (Forall (λ row, NoDup row) scores → scalar_le tr1 tr5 ∧ scalar_le tr5 tr10) ∧
  (Forall (λ col, NoDup col) (Recall.transpose (length tiids) scores) →
   scalar_le ir1 ir5 ∧ scalar_le ir5 ir10).
Proof.
  intros Hc Hi Hs H.
  destruct (compute_irtr_recall_inv topk _ _ _ _ Hc H)
    as (iids' & scores' & M & T & Hi' & HM & Hs' & Hshape & HT & HM10 & HT10).
  assert (iids' = iids) as -> by congruence. subst M.
  assert (scores' = scores) as -> by congruence.
  rewrite (compute_irtr_recall_value topk _ _ _ iids scores (length iids) T) in H
    by done.
  injection H as <- <- <- <- <- <-.
  destruct (transpose_spec (length iids) T scores Hshape) as [[HtT HtM] _].
  destruct Hshape as [Hlen Hrows].
  assert (zip tiids (Recall.transpose T scores) ≠ []) as Hcols.
  { intros Hnil%(f_equal length). rewrite length_zip in Hnil. simpl in Hnil. lia. }
  assert (zip iids scores ≠ []) as Hr.
  { intros Hnil%(f_equal length). rewrite length_zip in Hnil. simpl in Hnil. lia. }
  rewrite HT. split.
  - intros Hnd.
    assert (Forall (λ q : Z * list Qc, 10 ≤ length q.2 ∧ NoDup q.2)%nat
              (zip iids scores)) as Hq.
    { apply (zip_queries_Forall (λ v, 10 ≤ length v ∧ NoDup v)%nat).
      apply Forall_and. split; [|done].
      eapply Forall_impl; [exact Hrows|]. simpl. intros row ->. done. }
    split; apply recall_of_mono; try done; try lia.
    eapply Forall_impl; [exact Hq|]. simpl. intros q [? ?]. split; [lia|done].
  - intros Hnd.
    assert (Forall (λ q : Z * list Qc, 10 ≤ length q.2 ∧ NoDup q.2)%nat
              (zip tiids (Recall.transpose T scores))) as Hq.
    { apply (zip_queries_Forall (λ v, 10 ≤ length v ∧ NoDup v)%nat).
      apply Forall_and. split; [|done].
      eapply Forall_impl; [exact HtM|]. simpl. intros col ->. done. }
    split; apply recall_of_mono; try done; try lia.
    eapply Forall_impl; [exact Hq|]. simpl. intros q [? ?]. split; [lia|done].
Qed.

Lemma irtr_recall_grows_with_cutoff_witness :
  ∃ ir1 ir5 ir10 tr1 tr5 tr10,
    (Recall.topk_contract Recall.sorted_topk ∧
     Recall.make_iids [Recall.sample_tiids] = Some Recall.sample_tiids ∧
     Recall.make_scores [Recall.distinct_scores] (length Recall.sample_tiids)
       = Some Recall.distinct_scores ∧
     Recall.compute_irtr_recall Recall.sorted_topk Recall.sample_tiids
       [Recall.distinct_scores] [Recall.sample_tiids]
       = Some (ir1, ir5, ir10, tr1, tr5, tr10) ∧
     Forall (λ row, NoDup row) Recall.distinct_scores ∧
     Forall (λ col, NoDup col)
       (Recall.transpose (length Recall.sample_tiids) Recall.distinct_scores)) ∧
    (scalar_le tr1 tr5 ∧ scalar_le tr5 tr10) ∧
    (scalar_le ir1 ir5 ∧ scalar_le ir5 ir10).
Proof.
  assert (shape2 10 10 Recall.distinct_scores) as Hshape.
  { split; [reflexivity|]. repeat (constructor; [reflexivity|]). constructor. }
  assert (10 ≤ 10)%nat as Hle by lia.
  assert (Recall.make_scores [Recall.distinct_scores] 10 = Some Recall.distinct_scores)
    as Hs by reflexivity.
  assert (Forall (λ row : list Qc, NoDup row) Recall.distinct_scores) as Hrows.
  { apply (bool_decide_unpack _). vm_compute. exact I. }
  assert (Forall (λ col : list Qc, NoDup col)
            (Recall.transpose (length Recall.sample_tiids) Recall.distinct_scores))
    as Hcols.
  { apply (bool_decide_unpack _). vm_compute. exact I. }
  pose proof (compute_irtr_recall_value Recall.sorted_topk Recall.sample_tiids
                [Recall.distinct_scores] [Recall.sample_tiids] Recall.sample_tiids
                Recall.distinct_scores 10 10 sorted_topk_contract eq_refl eq_refl Hs
                Hshape eq_refl Hle Hle) as Hv.
  eexists _, _, _, _, _, _.
  split; [exact (conj sorted_topk_contract
                   (conj eq_refl (conj Hs (conj Hv (conj Hrows Hcols)))))|].
  destruct (irtr_recall_grows_with_cutoff Recall.sorted_topk Recall.sample_tiids
              [Recall.distinct_scores] [Recall.sample_tiids] Recall.sample_tiids
              Recall.distinct_scores _ _ _ _ _ _ sorted_topk_contract eq_refl Hs Hv)
    as [Htr Hir].
  exact (conj (Htr Hrows) (Hir Hcols)).
Defined.

(** With equal scores the order of the recalls is open: a [topk] that meets
    the contract and settles ties one way at [k = 1] and the other way at
    [k = 5] finds every match at cut-off 1 and only half of them at 5. *)
Example irtr_recall_ties_break_order :
  Recall.topk_contract Recall.mixed_topk ∧
  ∃ ir1 ir5 ir10 tr1 tr5 tr10,
    Recall.compute_irtr_recall Recall.mixed_topk Recall.sample_tiids
      [Recall.tied_scores] [Recall.sample_tiids]
      = Some (ir1, ir5, ir10, tr1, tr5, tr10) ∧
    ¬ scalar_le tr1 tr5.
Proof.
  split; [exact mixed_topk_contract|].
  assert (shape2 10 10 Recall.tied_scores) as Hshape.
  { split; [reflexivity|]. repeat (constructor; [reflexivity|]). constructor. }
  eexists _, _, _, _, _, _. split.
  - apply (compute_irtr_recall_value Recall.mixed_topk _ _ _ Recall.sample_tiids
             Recall.tied_scores 10 10 mixed_topk_contract); try done; lia.
  - vm_compute. intros H. by apply H.
Qed.

(** The six recalls depend on how [topk] settles equal scores: on one score
    matrix, two [topk] that both meet the contract give different tuples. *)
Example irtr_recall_depends_on_ties :
  Recall.topk_contract Recall.sorted_topk ∧ Recall.topk_contract Recall.last_topk ∧
  Recall.compute_irtr_recall Recall.sorted_topk Recall.sample_tiids
    [Recall.pair_tie_scores] [Recall.sample_tiids]
  ≠ Recall.compute_irtr_recall Recall.last_topk Recall.sample_tiids
      [Recall.pair_tie_scores] [Recall.sample_tiids].
Proof.
  split; [exact sorted_topk_contract|]. split; [exact last_topk_contract|].
  intros H. vm_compute in H. by injection H.
Qed.

Lemma make_iids_concat P M (gi : list (list Z)) :
  shape2 P M gi →
  Recall.make_iids gi = Some (concat gi) ∧ length (concat gi) = (P * M)%nat.
Proof.
  intros [HP Hgi]. split.
  - unfold Recall.make_iids. by rewrite (rectangular_true M).
  - rewrite (concat_length_uniform M) by done. by rewrite HP.
Qed.

Lemma make_scores_concat P M T (gs : list (list (list Qc))) :
  shape3 P M T gs → (0 < P * M)%nat →
  Recall.make_scores gs (P * M) = Some (concat gs).
Proof.
  intros [HP Hgs] Hpos.
  assert (Forall (λ rows : list (list Qc), length rows = M) gs) as HgsM.
  { eapply Forall_impl; [exact Hgs|]. by intros rows [? _]. }
  assert (Forall (λ row : list Qc, length row = T) (concat gs)) as HgsT.
  { apply Forall_concat. eapply Forall_impl; [exact Hgs|]. by intros rows [_ ?]. }
  assert (length (concat gs) = (P * M)%nat) as Hlen.
  { rewrite (concat_length_uniform M) by done. by rewrite HP. }
  unfold Recall.make_scores.
  rewrite (rectangular_true M), (rectangular_true T (concat gs)) by done.
  rewrite forallb_Forall_true.
  2:{ eapply Forall_impl; [exact Hgs|]. intros rows [_ ?].
      by apply (rectangular_true T). }
  simpl.
  rewrite (concat_length_uniform T), Hlen, (Nat.mul_comm (P * M) T) by done.
  rewrite decide_True.
  2:{ split; [lia|]. apply Nat.Div0.mod_mul. }
  rewrite Nat.div_mul by lia. f_equal. apply rows_of_concat. by split.
Qed.

(** The gathered lists become one matrix and one id vector in process
    order: with [P] processes of [M] images each and [T] texts, the id
    vector is the concatenation of the per-process id lists, the score
    matrix is the concatenation of the per-process score rows, and image [r]
    of process [p] sits at position [p * M + r] of both. *)
Theorem gathered_rows_keep_process_order P M T
    (gs : list (list (list Qc))) (gi : list (list Z)) :
  shape3 P M T gs → shape2 P M gi → (0 < P * M)%nat →
  Recall.make_iids gi = Some (concat gi) ∧
  length (concat gi) = (P * M)%nat ∧
  Recall.make_scores gs (P * M) = Some (concat gs) ∧
  ∀ p r, (r < M)%nat →
    concat gi !! (p * M + r)%nat = gi !! p ≫= (λ ids, ids !! r) ∧
    concat gs !! (p * M + r)%nat = gs !! p ≫= (λ rows, rows !! r).
Proof.
  intros Hgs Hgi Hpos.
  destruct (make_iids_concat P M gi Hgi) as [Hiids Hlen].
  split; [done|]. split; [done|].
  split; [by apply (make_scores_concat P M T)|].
  intros p r Hr. destruct Hgs as [_ Hgs], Hgi as [_ Hgi]. split.
  - by apply concat_lookup_uniform.
  - apply concat_lookup_uniform; [|done].
    eapply Forall_impl; [exact Hgs|]. by intros rows [? _].
Qed.

Lemma gathered_rows_keep_process_order_witness :
  (shape3 2 5 10 Recall.sample_gather_scores ∧
   shape2 2 5 Recall.sample_gather_iids ∧ (0 < 2 * 5)%nat) ∧
  Recall.make_iids Recall.sample_gather_iids
    = Some (concat Recall.sample_gather_iids) ∧
  length (concat Recall.sample_gather_iids) = (2 * 5)%nat ∧
  Recall.make_scores Recall.sample_gather_scores (2 * 5)
    = Some (concat Recall.sample_gather_scores) ∧
  ∀ p r, (r < 5)%nat →
    concat Recall.sample_gather_iids !! (p * 5 + r)%nat
      = Recall.sample_gather_iids !! p ≫= (λ ids, ids !! r) ∧
    concat Recall.sample_gather_scores !! (p * 5 + r)%nat
      = Recall.sample_gather_scores !! p ≫= (λ rows, rows !! r).
Proof.
  assert (shape3 2 5 10 Recall.sample_gather_scores) as Hs.
  { split; [reflexivity|].
    repeat (constructor;
            [split; [reflexivity|]; repeat (constructor; [reflexivity|]); constructor|]).
    constructor. }
  assert (shape2 2 5 Recall.sample_gather_iids) as Hi.
  { split; [reflexivity|]. repeat (constructor; [reflexivity|]). constructor. }
  assert (0 < 2 * 5)%nat as Hp by lia.
  split; [exact (conj Hs (conj Hi Hp))|].
  exact (gathered_rows_keep_process_order 2 5 10 _ _ Hs Hi Hp).
Defined.

(** Processes that hold different numbers of images make the evaluation
    raise: the gathered id lists do not form a tensor. *)
Theorem irtr_recall_uneven_shards_raise topk tiids gs (gi : list (list Z)) a b x y :
  gi !! a = Some x → gi !! b = Some y → length x ≠ length y →
  Recall.compute_irtr_recall topk tiids gs gi = None.
Proof.
  intros Ha Hb Hne. unfold Recall.compute_irtr_recall, Recall.make_iids.
  by rewrite (rectangular_ragged gi a b x y).
Qed.

Lemma irtr_recall_uneven_shards_raise_witness :
  Recall.compute_irtr_recall Recall.sorted_topk Recall.sample_tiids
    Recall.sample_gather_scores [[100; 101]%Z; [102]%Z] = None.
Proof.
  apply (irtr_recall_uneven_shards_raise Recall.sorted_topk _ _
           [[100; 101]%Z; [102]%Z] 0 1 [100; 101]%Z [102]%Z);
    [reflexivity|reflexivity|].
  simpl. lia.
Defined.

(** ** Retrieval recall: the rank loop *)

Lemma collect_tiids_concat (text_preload : list Rank.text_batch) :
  Rank.collect_tiids text_preload = concat (Rank.img_index <$> text_preload).
Proof.
  unfold Rank.collect_tiids.
  assert (∀ acc, foldl (λ tiids pre, tiids ++ Rank.img_index pre) acc text_preload
                 = acc ++ concat (Rank.img_index <$> text_preload)) as H.
  { induction text_preload as [|pre rest IH]; intros acc; simpl.
    - by rewrite app_nil_r.
    - by rewrite IH, app_assoc. }
  apply H.
Qed.

Lemma concat_length_Forall2 {A B} (xs : list (list A)) (ys : list (list B)) :
  Forall2 (λ x y, length x = length y) xs ys →
  length (concat xs) = length (concat ys).
Proof.
  induction 1 as [|x y xs ys Hxy _ IH]; [done|]. simpl.
  rewrite !length_app. lia.
Qed.

Section rank_loop.
Context {Image Feats : Type}.
Variable infer_img :
  list (list Z) * list (list Z) * list (list Z) → list Image → option Feats.
Variable irtr_head : Feats → list (list Qc).

Lemma batch_score_length im tb sc :
  (∀ b ims feats, infer_img b ims = Some feats →
     length (irtr_head feats) = length ims) →
  Rank.batch_score infer_img irtr_head im tb = Some sc →
  length sc = length (Rank.text_ids tb).
Proof.
  intros Hhead. unfold Rank.batch_score.
  destruct (infer_img _ _) as [feats|] eqn:Hf; [|done]. cbn [mbind option_bind].
  intros Hsc%length_mapM. rewrite <-Hsc, (Hhead _ _ _ Hf). apply length_replicate.
Qed.

Lemma image_scores_spec text_preload im row :
  Rank.image_scores infer_img irtr_head text_preload im = Some row →
  text_preload ≠ [] ∧
  ∃ parts, row = concat parts ∧
    Forall2 (λ tb part, Rank.batch_score infer_img irtr_head im tb = Some part)
      text_preload parts.
Proof.
  unfold Rank.image_scores.
  destruct (mapM _ text_preload) as [parts|] eqn:Hp; [|done]. cbn [mbind option_bind].
  apply mapM_Some_1 in Hp.
  destruct parts as [|part parts]; [done|]. intros [= <-]. split.
  - intros ->. by apply Forall2_nil_cons_inv in Hp.
  - by exists (part :: parts).
Qed.

Lemma rank_loop_spec image_preload text_preload rows iids :
  (∀ b ims feats, infer_img b ims = Some feats →
     length (irtr_head feats) = length ims) →
  Forall (λ tb, length (Rank.img_index tb) = length (Rank.text_ids tb)) text_preload →
  Rank.rank_loop infer_img irtr_head image_preload text_preload = Some (rows, iids) →
  iids = image_preload.*2 ∧
  shape2 (length image_preload) (length (Rank.collect_tiids text_preload)) rows ∧
  Forall (λ row, ∃ parts, row = concat parts ∧
            Forall2 (λ part tb, length part = length (Rank.img_index tb))
              parts text_preload) rows.
Proof.
  intros Hhead Hidx. unfold Rank.rank_loop.
  destruct (mapM _ image_preload) as [rs|] eqn:Hrs; [|done].
  cbn [mbind option_bind]. intros [= <- <-].
  apply mapM_Some_1 in Hrs.
  assert (Forall (λ row, ∃ parts, row = concat parts ∧
            Forall2 (λ part tb, length part = length (Rank.img_index tb))
              parts text_preload) rs) as Hparts.
  { apply Forall_lookup. intros i row Hi.
    destruct (Forall2_lookup_r _ _ _ _ _ Hrs Hi) as (img & _ & Hrow).
    apply image_scores_spec in Hrow as (_ & parts & -> & Hparts).
    exists parts. split; [done|].
    apply Forall2_same_length_lookup_2.
    { symmetry. by eapply Forall2_length. }
    intros j part tb Hpart Htb.
    pose proof (Forall2_lookup_lr _ _ _ _ _ _ Hparts Htb Hpart) as Hsc.
    apply (batch_score_length _ _ _ Hhead) in Hsc.
    rewrite Forall_lookup in Hidx. by rewrite (Hidx _ _ Htb). }
  split; [done|]. split; [|done]. split.
  - symmetry. by eapply Forall2_length.
  - eapply Forall_impl; [exact Hparts|]. simpl.
    intros row (parts & -> & Hlen). rewrite collect_tiids_concat.
    apply concat_length_Forall2.
    apply Forall2_fmap_r. done.
Qed.

(** The rank loop keeps scores and text ids aligned.  When the head returns
    one row per text of a batch and every prefetched batch has one source
    image index per text, the loop returns the image ids in loader order and
    one score row per image; every row has one score per entry of [tiids],
    and is cut into the same consecutive batches as [tiids]. *)
Theorem rank_rows_align_with_tiids image_preload text_preload rows iids :
  (∀ b ims feats, infer_img b ims = Some feats →
     length (irtr_head feats) = length ims) →
  Forall (λ tb, length (Rank.img_index tb) = length (Rank.text_ids tb)) text_preload →
  Rank.rank_loop infer_img irtr_head image_preload text_preload = Some (rows, iids) →
  iids = image_preload.*2 ∧
  shape2 (length image_preload) (length (Rank.collect_tiids text_preload)) rows ∧
  Rank.collect_tiids text_preload = concat (Rank.img_index <$> text_preload) ∧
  Forall (λ row, ∃ parts, row = concat parts ∧
            Forall2 (λ part tb, length part = length (Rank.img_index tb))
              parts text_preload) rows.
Proof.
  intros Hhead Hidx Hloop.
  destruct (rank_loop_spec _ _ _ _ Hhead Hidx Hloop) as (Hi & Hshape & Hparts).
  split; [done|]. split; [done|]. split; [apply collect_tiids_concat|done].
Qed.

End rank_loop.

Lemma sample_head_rows b (ims : list nat) feats :
  Rank.sample_infer_img b ims = Some feats →
  length (Rank.sample_irtr_head feats) = length ims.
Proof.
  unfold Rank.sample_infer_img, Rank.sample_irtr_head. intros [= <-].
  by rewrite length_fmap, length_imap.
Qed.

Lemma sample_preload_index :
  Forall (λ tb, length (Rank.img_index tb) = length (Rank.text_ids tb))
    Rank.sample_text_preload.
Proof. repeat constructor. Qed.

Lemma rank_rows_align_with_tiids_witness :
  let rows := (λ i : nat, (λ j : nat, if decide (i = j) then 1 else 0) <$> seq 0 10)
                <$> seq 0 10 in
  let iids := Rank.sample_image_preload.*2 in
  Rank.rank_loop Rank.sample_infer_img Rank.sample_irtr_head
    Rank.sample_image_preload Rank.sample_text_preload = Some (rows, iids) ∧
  iids = Rank.sample_image_preload.*2 ∧
  shape2 (length Rank.sample_image_preload)
    (length (Rank.collect_tiids Rank.sample_text_preload)) rows ∧
  Rank.collect_tiids Rank.sample_text_preload
    = concat (Rank.img_index <$> Rank.sample_text_preload) ∧
  Forall (λ row, ∃ parts, row = concat parts ∧
            Forall2 (λ part tb, length part = length (Rank.img_index tb))
              parts Rank.sample_text_preload) rows.
Proof.
  intros rows iids.
  assert (Rank.rank_loop Rank.sample_infer_img Rank.sample_irtr_head
            Rank.sample_image_preload Rank.sample_text_preload = Some (rows, iids))
    as Hloop by reflexivity.
  split; [exact Hloop|].
  exact (rank_rows_align_with_tiids Rank.sample_infer_img Rank.sample_irtr_head
           _ _ _ _ sample_head_rows sample_preload_index Hloop).
Defined.

(** ** Visual question answering: when the scatter raises, what it drops *)

Lemma norm_index_range size l c :
  VQA.norm_index size l = Some c → (- Z.of_nat size ≤ l < Z.of_nat size)%Z.
Proof. unfold VQA.norm_index. repeat case_decide; intros; simplify_eq; lia. Qed.

Lemma scatter_pairs_is_Some pairs : ∀ t i,
  is_Some (VQA.scatter_pairs t i pairs) ↔
  pairs = [] ∨
  ∃ row, t !! i = Some row ∧
    Forall (λ p, - Z.of_nat (length row) ≤ p.1 < Z.of_nat (length row))%Z pairs.
Proof.
  intros t i. split.
  - revert t. induction pairs as [|[l s] rest IH]; intros t [t' H]; [by left|].
    right. simpl in H.
    destruct (VQA.assign t i l s) as [t1|] eqn:Ha; [|done]. simpl in H.
    apply assign_inv in Ha as (row & c & Hrow & Hc & ->).
    exists row. split; [done|]. apply Forall_cons. split.
    { simpl. by eapply norm_index_range. }
    destruct (IH _ (ex_intro _ t' H)) as [->|(row1 & Hrow1 & Hrest)]; [done|].
    rewrite list_lookup_insert_eq in Hrow1 by (by eapply lookup_lt_Some).
    simplify_eq. by rewrite length_insert in Hrest.
  - intros [->|(row & Hrow & Hp)]; [by eexists|]. by eapply scatter_pairs_total.
Qed.

Lemma scatter_from_is_Some size examples : ∀ t i0,
  Forall (λ r, length r = size) t →
  is_Some (VQA.scatter_from t i0 examples) ↔
  ∀ k ls ss, examples !! k = Some (ls, ss) → zip ls ss ≠ [] →
    (i0 + k < length t)%nat ∧
    Forall (λ p, - Z.of_nat size ≤ p.1 < Z.of_nat size)%Z (zip ls ss).
Proof.
  induction examples as [|[ls ss] rest IH]; intros t i0 Hrows.
  { split; [by intros _ k ls ss ?|by eexists]. }
  simpl. split.
  - intros [t' H].
    destruct (VQA.scatter_pairs t i0 (zip ls ss)) as [t1|] eqn:H1; [|done].
    simpl in H.
    destruct (scatter_pairs_shape (length t) size t i0 (zip ls ss) t1) as [Hn1 Hr1];
      [done|done|].
    intros [|k] ls' ss' Hk Hne; simpl in Hk.
    + simplify_eq.
      destruct (proj1 (scatter_pairs_is_Some _ t i0) (ex_intro _ t1 H1))
        as [?|(row & Hrow & Hp)]; [done|].
      split; [rewrite Nat.add_0_r; by eapply lookup_lt_Some|].
      rewrite Forall_lookup in Hrows. by rewrite <-(Hrows _ _ Hrow).
    + destruct (proj1 (IH t1 (S i0) Hr1) (ex_intro _ t' H) k ls' ss' Hk Hne)
        as [Hlt Hp].
      split; [lia|done].
  - intros Hall.
    assert (is_Some (VQA.scatter_pairs t i0 (zip ls ss))) as [t1 H1].
    { apply scatter_pairs_is_Some. destruct (zip ls ss) as [|p ps] eqn:Hz; [by left|].
      right. destruct (Hall 0%nat ls ss) as [Hlt Hp]; [done|by rewrite Hz|].
      destruct (lookup_lt_is_Some_2 t i0) as [row Hrow]; [lia|].
      exists row. split; [done|]. rewrite Forall_lookup in Hrows.
      rewrite (Hrows _ _ Hrow). by rewrite <-Hz. }
    rewrite H1. simpl.
    destruct (scatter_pairs_shape (length t) size t i0 (zip ls ss) t1) as [Hn1 Hr1];
      [done|done|].
    apply IH; [done|]. intros k ls' ss' Hk Hne.
    destruct (Hall (S k) ls' ss' Hk Hne) as [Hlt Hp]. split; [lia|done].
Qed.

Lemma zeros_shape rows size : shape2 rows size (VQA.zeros rows size).
Proof.
  unfold VQA.zeros. split; [by rewrite length_replicate|].
  apply Forall_replicate. by rewrite length_replicate.
Qed.

(** The scatter of lines 218-220 raises exactly when some example that has
    a label-score pair lies beyond the rows of the logits, or has a paired
    label outside [-label_size, label_size). *)
Theorem vqa_targets_built_iff rows size (labels : list (list Z))
    (scores : list (list Qc)) :
  is_Some (VQA.vqa_targets rows size labels scores) ↔
  ∀ i ls ss, zip labels scores !! i = Some (ls, ss) → zip ls ss ≠ [] →
    (i < rows)%nat ∧
    Forall (λ p, - Z.of_nat size ≤ p.1 < Z.of_nat size)%Z (zip ls ss).
Proof.
  unfold VQA.vqa_targets. destruct (zeros_shape rows size) as [Hn Hr].
  rewrite (scatter_from_is_Some size) by done. rewrite Hn. done.
Qed.

Lemma zip_app_same_length {A B} (l extra : list A) (k : list B) :
  length l = length k → zip (l ++ extra) k = zip l k.
Proof.
  revert k. induction l as [|x l IH]; intros [|y k] Hlen; simplify_eq/=.
  - by destruct extra.
  - by rewrite IH.
Qed.

Lemma scatter_from_unpaired (labels : list (list Z)) (scores : list (list Qc)) :
  Forall2 (λ ls ss, length ls = length ss) labels scores →
  ∀ extras more t i, length extras = length labels →
    VQA.scatter_from t i (zip (zip_with app labels extras ++ more) scores)
    = VQA.scatter_from t i (zip labels scores).
Proof.
  induction 1 as [|ls ss labels scores Hlen _ IH]; intros extras more t i He.
  - destruct extras; [|by simplify_eq/=]. simpl. destruct more; reflexivity.
  - destruct extras as [|e extras]; [by simplify_eq/=|]. simpl in He.
    cbn [zip_with app]. simpl. rewrite (zip_app_same_length ls e ss) by done.
    destruct (VQA.scatter_pairs t i (zip ls ss)) as [t1|]; [|done]. simpl.
    apply IH. lia.
Qed.

(** Labels without a score are dropped without an error: when every example
    has as many scores as labels, appending further labels to any example,
    or further examples without scores, does not change the targets. *)
Theorem vqa_unpaired_labels_are_dropped rows size (labels extras more : list (list Z))
    (scores : list (list Qc)) :
  Forall2 (λ ls ss, length ls = length ss) labels scores →
  length extras = length labels →
  VQA.vqa_targets rows size (zip_with app labels extras ++ more) scores
  = VQA.vqa_targets rows size labels scores.
Proof.
  intros Hlen He. unfold VQA.vqa_targets. by apply scatter_from_unpaired.
Qed.

Lemma vqa_unpaired_labels_are_dropped_witness :
  VQA.vqa_targets 1 2 (zip_with app VQA.sample_labels [[7; 1]%Z] ++ [[9]%Z])
    VQA.sample_scores
  = VQA.vqa_targets 1 2 VQA.sample_labels VQA.sample_scores.
Proof.
  apply vqa_unpaired_labels_are_dropped; [|reflexivity].
  repeat constructor.
Defined.

Lemma vqa_targets_cells rows size (labels : list (list Z)) (scores : list (list Qc)) t :
  VQA.vqa_targets rows size labels scores = Some t →
  ∀ i c, (i < rows)%nat → (c < size)%nat →
    entry t i c
    = Some (default 0 (VQA.last_score size c (VQA.example_pairs labels scores i))).
Proof.
  unfold VQA.vqa_targets. intros Ht i c Hi Hc.
  destruct (scatter_from_spec _ _ _ _ Ht) as (Hl & Hcells).
  assert (VQA.zeros rows size !! i = Some (replicate size 0)) as Hrow.
  { unfold VQA.zeros. by apply lookup_replicate_2. }
  destruct (Hcells i _ Hrow) as (row' & Hr' & _ & Hcell).
  unfold entry. rewrite Hr'. simpl. rewrite Hcell, length_replicate.
  rewrite decide_True by lia. rewrite Nat.sub_0_r.
  unfold VQA.example_pairs.
  destruct (VQA.last_score size c _); [done|]. simpl.
  by apply lookup_replicate_2.
Qed.

Lemma filter_NoDup_omap {A B} `{EqDecision B} (f : A → option B) (c : B)
    (l : list A) :
  NoDup (omap f l) → (length (filter (λ x, f x = Some c) l) ≤ 1)%nat.
Proof.
  induction l as [|x l IH]; [simpl; lia|]. intros Hnd.
  destruct (decide (f x = Some c)) as [Hx|Hx].
  - rewrite filter_cons_True by done. cbn in Hnd. rewrite Hx in Hnd.
    apply NoDup_cons in Hnd as [Hnot _].
    assert (filter (λ x, f x = Some c) l = []) as ->; [|simpl; lia].
    apply elem_of_nil_inv. intros y Hy%list_elem_of_filter.
    destruct Hy as [Hfy Hin]. apply Hnot. apply list_elem_of_omap. eauto.
  - rewrite filter_cons_False by done. apply IH.
    cbn in Hnd. destruct (f x); [by apply NoDup_cons in Hnd as [_ ?]|done].
Qed.

(** Assignment and addition differ on repeated labels only: for an example
    whose paired labels address pairwise different cells, every cell of its
    target row is the sum of the scores given for the cell. *)
Theorem vqa_targets_sum_without_repeats rows size (labels : list (list Z))
    (scores : list (list Qc)) t i c :
  VQA.vqa_targets rows size labels scores = Some t →
  NoDup (omap (λ p : Z * Qc, VQA.norm_index size p.1)
           (VQA.example_pairs labels scores i)) →
  (i < rows)%nat → (c < size)%nat →
  entry t i c
  = Some (VQA.summed_score size c (VQA.example_pairs labels scores i)).
Proof.
  intros Ht Hnd Hi Hc. rewrite (vqa_targets_cells _ _ _ _ _ Ht) by done.
  f_equal. unfold VQA.last_score, VQA.summed_score.
  pose proof (filter_NoDup_omap (λ p : Z * Qc, VQA.norm_index size p.1) c _ Hnd) as Hle.
  destruct (filter _ _) as [|p [|p' rest]]; simpl in *; [done| |lia].
  by rewrite Qcplus_0_r.
Qed.

Lemma vqa_targets_sum_without_repeats_witness :
  (VQA.vqa_targets 1 3 [[0; -1]%Z] [[1; Q2Qc (1 # 2)]] = Some [[1; 0; Q2Qc (1 # 2)]] ∧
   NoDup (omap (λ p : Z * Qc, VQA.norm_index 3 p.1)
            (VQA.example_pairs [[0; -1]%Z] [[1; Q2Qc (1 # 2)]] 0))) ∧
  entry [[1; 0; Q2Qc (1 # 2)]] 0 2
  = Some (VQA.summed_score 3 2 (VQA.example_pairs [[0; -1]%Z] [[1; Q2Qc (1 # 2)]] 0)).
Proof.
  assert (VQA.vqa_targets 1 3 [[0; -1]%Z] [[1; Q2Qc (1 # 2)]]
          = Some [[1; 0; Q2Qc (1 # 2)]]) as Ht by reflexivity.
  assert (NoDup (omap (λ p : Z * Qc, VQA.norm_index 3 p.1)
                   (VQA.example_pairs [[0; -1]%Z] [[1; Q2Qc (1 # 2)]] 0))) as Hnd.
  { vm_compute. apply NoDup_cons. split; [|apply NoDup_singleton].
    intros Hin%list_elem_of_singleton. done. }
  split; [exact (conj Ht Hnd)|].
  apply (vqa_targets_sum_without_repeats 1 3 _ _ _ 0 2 Ht Hnd); lia.
Defined.

(** ** Masked language modelling *)

Lemma view_rows_concat {A} n c (rows : list (list A)) :
  shape2 n c rows → c ≠ 0%nat → MLM.view_rows c (concat rows) = Some rows.
Proof.
  intros Hshape Hc. pose proof Hshape as [Hn Hrows]. unfold MLM.view_rows.
  rewrite (concat_length_uniform c), Hn by done.
  rewrite decide_True by (split; [done|apply Nat.Div0.mod_mul]).
  rewrite Nat.div_mul by done. f_equal. by apply rows_of_concat.
Qed.

Lemma shape3_concat {A} n l d (t : list (list (list A))) :
  shape3 n l d t → shape2 (n * l) d (concat t).
Proof.
  intros [Hn Ht]. split.
  - rewrite (concat_length_uniform l), Hn; [done|].
    eapply Forall_impl; [exact Ht|]. by intros r [? _].
  - apply Forall_concat. eapply Forall_impl; [exact Ht|]. by intros r [_ ?].
Qed.

(** The flattened index of entry [(b, t)] taken apart again. *)
Lemma concat_lookup_flat {A} n l (a : list (list A)) i :
  shape2 n l a → l ≠ 0%nat →
  concat a !! i = entry a (i `div` l) (i `mod` l).
Proof.
  intros [_ Ha] Hl. unfold entry.
  rewrite <-(concat_lookup_uniform l) by (done || by apply Nat.mod_upper_bound).
  f_equal. rewrite (Nat.div_mod_eq i l) at 1. lia.
Qed.

Lemma ce_kept_agree (nll : list Qc → Z → Qc) ignore (ys : list Z) :
  ∀ xs xs' : list (list Qc),
  length xs = length ys → length xs' = length ys →
  (∀ i y, ys !! i = Some y → y ≠ ignore → xs' !! i = xs !! i) →
  (λ p, nll p.1 p.2) <$> ce_kept ignore (zip xs' ys)
  = (λ p, nll p.1 p.2) <$> ce_kept ignore (zip xs ys).
Proof.
  unfold ce_kept.
  induction ys as [|y ys IH]; intros [|x xs] [|x' xs'] Hl Hl' Hag; try done.
  cbn [zip_with]. simpl in Hl, Hl'.
  assert ((λ p : list Qc * Z, nll p.1 p.2) <$> filter (λ p, p.2 ≠ ignore) (zip xs' ys)
          = (λ p : list Qc * Z, nll p.1 p.2) <$> filter (λ p, p.2 ≠ ignore) (zip xs ys))
    as Hrest.
  { apply IH; [lia|lia|]. intros i y' Hi. apply (Hag (S i)). done. }
  destruct (decide (y ≠ ignore)) as [Hy|Hy].
  - rewrite !filter_cons_True by done. rewrite !fmap_cons, Hrest. simpl.
    specialize (Hag 0%nat y eq_refl Hy). simpl in Hag. by simplify_eq.
  - by rewrite !filter_cons_False by done.
Qed.

Lemma masked_lm_loss_value (nll : list Qc → Z → Qc) V B L
    (logits : list (list (list Qc))) (labels : list (list Z)) :
  shape3 B L V logits → shape2 B L labels → V ≠ 0%nat →
  MLM.valid_labels V labels →
  MLM.masked_lm_loss nll V logits labels
  = Some (tensor_mean ((λ p, nll p.1 p.2)
            <$> ce_kept (-100) (zip (concat logits) (concat labels)))).
Proof.
  intros Hlg Hlb HV Hvalid. unfold MLM.masked_lm_loss.
  pose proof (shape3_concat _ _ _ _ Hlg) as Hflat.
  rewrite (view_rows_concat (B * L) V) by done. cbn [mbind option_bind].
  apply cross_entropy_value.
  - destruct Hflat as [-> _]. destruct Hlb as [Hn Hrows].
    by rewrite (concat_length_uniform L), Hn.
  - apply (ce_valid_uniform _ V); [by destruct Hflat|by apply Forall_concat].
Qed.

(** The masked-language-modelling loss is the mean, over the token
    positions whose label is not -100, of the negative log-likelihood of the
    label under the logits of the position.  The logits of the other
    positions do not enter: two heads that agree on the labelled positions
    get the same loss. *)
Theorem mlm_loss_over_labelled_positions (nll : list Qc → Z → Qc) V B L
    (logits logits' : list (list (list Qc))) (labels : list (list Z)) :
  shape3 B L V logits → shape3 B L V logits' → shape2 B L labels →
  V ≠ 0%nat → MLM.valid_labels V labels →
  (∀ b t y, entry labels b t = Some y → y ≠ (-100)%Z →
     entry logits' b t = entry logits b t) →
  MLM.masked_lm_loss nll V logits labels
  = Some (tensor_mean ((λ p, nll p.1 p.2)
            <$> filter (λ p, p.2 ≠ (-100)%Z) (zip (concat logits) (concat labels)))) ∧
  MLM.masked_lm_loss nll V logits' labels = MLM.masked_lm_loss nll V logits labels.
Proof.
  intros Hlg Hlg' Hlb HV Hvalid Hag.
  rewrite !(masked_lm_loss_value nll V B L) by done. split; [done|].
  f_equal. f_equal.
  pose proof (shape3_concat _ _ _ _ Hlg) as [Hn _].
  pose proof (shape3_concat _ _ _ _ Hlg') as [Hn' _].
  assert (length (concat labels) = (B * L)%nat) as Hnl.
  { destruct Hlb as [Hb Hrows]. by rewrite (concat_length_uniform L), Hb. }
  apply ce_kept_agree; [congruence|congruence|].
  intros i y Hi Hy.
  destruct (decide (L = 0%nat)) as [->|HL].
  { apply lookup_lt_Some in Hi. lia. }
  assert (shape2 B L logits ∧ shape2 B L logits') as [H2 H2'].
  { destruct Hlg as [? Hr], Hlg' as [? Hr']. split; (split; [done|]).
    - eapply Forall_impl; [exact Hr|]. by intros r [? _].
    - eapply Forall_impl; [exact Hr'|]. by intros r [? _]. }
  rewrite (concat_lookup_flat B L) in Hi by done.
  rewrite !(concat_lookup_flat B L) by done.
  by eapply Hag.
Qed.

Lemma mlm_loss_over_labelled_positions_witness :
  let logits' : list (list (list Qc)) := [[[0; 0]; [0; 1]; [0; 0]]] in
  (shape3 1 3 2 MLM.sample_logits ∧ shape3 1 3 2 logits' ∧
   shape2 1 3 MLM.sample_labels ∧ 2%nat ≠ 0%nat ∧
   MLM.valid_labels 2 MLM.sample_labels ∧
   (∀ b t y, entry MLM.sample_labels b t = Some y → y ≠ (-100)%Z →
      entry logits' b t = entry MLM.sample_logits b t)) ∧
  MLM.masked_lm_loss MLM.sample_nll 2 MLM.sample_logits MLM.sample_labels
  = Some (tensor_mean ((λ p, MLM.sample_nll p.1 p.2)
            <$> filter (λ p, p.2 ≠ (-100)%Z)
                  (zip (concat MLM.sample_logits) (concat MLM.sample_labels)))) ∧
  MLM.masked_lm_loss MLM.sample_nll 2 logits' MLM.sample_labels
  = MLM.masked_lm_loss MLM.sample_nll 2 MLM.sample_logits MLM.sample_labels.
Proof.
  intros logits'.
  assert (shape3 1 3 2 MLM.sample_logits) as H1.
  { split; [reflexivity|]. repeat constructor. }
  assert (shape3 1 3 2 logits') as H2.
  { split; [reflexivity|]. repeat constructor. }
  assert (shape2 1 3 MLM.sample_labels) as H3.
  { split; [reflexivity|]. repeat constructor. }
  assert (2%nat ≠ 0%nat) as H4 by lia.
  assert (MLM.valid_labels 2 MLM.sample_labels) as H5.
  { unfold MLM.valid_labels, MLM.sample_labels.
    repeat (constructor; try (left; reflexivity); try (right; lia)). }
  assert (∀ b t y, entry MLM.sample_labels b t = Some y → y ≠ (-100)%Z →
            entry logits' b t = entry MLM.sample_logits b t) as H6.
  { intros [|[|b]] [|[|[|t]]] y Hy Hne; vm_compute in Hy; simplify_eq; done. }
  split; [exact (conj H1 (conj H2 (conj H3 (conj H4 (conj H5 H6)))))|].
  exact (mlm_loss_over_labelled_positions MLM.sample_nll 2 1 3 _ _ _
           H1 H2 H3 H4 H5 H6).
Defined.

Section mlm_compute.
Context {Batch Feats : Type}.
Variable infer :
  Batch → option bool → option bool → option bool → option bool →
  MLM.infer_out Feats.
Variable mlm_head : Feats → list (list (list Qc)).
Variable nll : list Qc → Z → Qc.

Lemma all_ignored_NaN V B L (logits : list (list (list Qc))) (labels : list (list Z)) :
  shape3 B L V logits → shape2 B L labels → V ≠ 0%nat →
  Forall (Forall (λ y, y = (-100)%Z)) labels →
  MLM.masked_lm_loss nll V logits labels = Some NaN.
Proof.
  intros Hlg Hlb HV Hall. rewrite (masked_lm_loss_value nll V B L); [|done..|].
  2:{ eapply Forall_impl; [exact Hall|]. intros r Hr.
      eapply Forall_impl; [exact Hr|]. intros y Hy. by left. }
  f_equal. unfold ce_kept.
  assert (filter (λ p : list Qc * Z, p.2 ≠ (-100)%Z) (zip (concat logits) (concat labels))
          = []) as ->; [|done].
  apply elem_of_nil_inv. intros [row y] [Hy Hin]%list_elem_of_filter. simpl in Hy.
  apply Hy. apply elem_of_zip_r in Hin. simpl in Hin.
  apply list_elem_of_In, in_concat in Hin as (r & Hr & Hin).
  apply list_elem_of_In in Hr, Hin.
  rewrite Forall_forall in Hall. specialize (Hall r Hr).
  rewrite Forall_forall in Hall. by apply Hall.
Qed.

(** A batch in which no token is labelled (every label is -100) does not
    make [compute_mlm] or [compute_umlm] raise: each returns, and the loss it
    returns is NaN. *)
Theorem mlm_without_labelled_token_is_nan V B L (batch : Batch) :
  (let out := infer batch (Some true) (Some false) None None in
   shape3 B L V (mlm_head (MLM.multi_modal_text_feats out)) →
   shape2 B L (MLM.text_labels out) → V ≠ 0%nat →
   Forall (Forall (λ y, y = (-100)%Z)) (MLM.text_labels out) →
   ∃ r, MLM.compute_mlm infer mlm_head nll V batch = Some r ∧ MLM.mlm_loss r = NaN) ∧
  (let out := infer batch (Some true) (Some false) (Some true) None in
   shape3 B L V (mlm_head (MLM.multi_modal_text_feats out)) →
   shape2 B L (MLM.text_labels out) → V ≠ 0%nat →
   Forall (Forall (λ y, y = (-100)%Z)) (MLM.text_labels out) →
   ∃ r, MLM.compute_umlm infer mlm_head nll V batch = Some r ∧ MLM.mlm_loss r = NaN).
Proof.
  split; intros out Hlg Hlb HV Hall;
    pose proof (all_ignored_NaN V B L _ _ Hlg Hlb HV Hall) as Hloss;
    unfold MLM.compute_mlm, MLM.compute_umlm; fold out;
    rewrite Hloss; cbn [mbind option_bind]; eexists; split; reflexivity.
Qed.

(** A configured [vocab_size] that differs from the last axis of the logits
    makes the loss raise as soon as the batch holds a token: the view either
    does not divide the entries, or yields a row count other than the number
    of labels. *)
Theorem mlm_vocab_size_mismatch_raises V vocab_size B L
    (logits : list (list (list Qc))) (labels : list (list Z)) :
  shape3 B L V logits → shape2 B L labels → (0 < B * L)%nat → vocab_size ≠ V →
  MLM.masked_lm_loss nll vocab_size logits labels = None.
Proof.
  intros Hlg Hlb Hpos Hne. unfold MLM.masked_lm_loss, MLM.view_rows.
  pose proof (shape3_concat _ _ _ _ Hlg) as Hflat.
  assert (length (concat (concat logits)) = (B * L * V)%nat) as Hlen.
  { destruct Hflat as [Hn Hr]. by rewrite (concat_length_uniform V), Hn. }
  assert (length (concat labels) = (B * L)%nat) as Hnl.
  { destruct Hlb as [Hb Hrows]. by rewrite (concat_length_uniform L), Hb. }
  case_decide as Hv; [|done]. destruct Hv as [Hv Hmod]. cbn [mbind option_bind].
  apply eq_None_not_Some. rewrite cross_entropy_is_Some.
  rewrite length_fmap, length_seq, Hnl, Hlen. intros [Heq _]. apply Hne.
  rewrite Hlen in Hmod. apply Nat.Div0.div_exact in Hmod.
  rewrite Heq in Hmod. nia.
Qed.
End mlm_compute.

Lemma mlm_without_labelled_token_is_nan_witness :
  let out := MLM.sample_unmasked_infer () (Some true) (Some false) None None in
  (shape3 1 3 2 (MLM.multi_modal_text_feats out) ∧
   shape2 1 3 (MLM.text_labels out) ∧ 2%nat ≠ 0%nat ∧
   Forall (Forall (λ y, y = (-100)%Z)) (MLM.text_labels out)) ∧
  (∃ r, MLM.compute_mlm MLM.sample_unmasked_infer (λ x, x) MLM.sample_nll 2 ()
          = Some r ∧ MLM.mlm_loss r = NaN) ∧
  (∃ r, MLM.compute_umlm MLM.sample_unmasked_infer (λ x, x) MLM.sample_nll 2 ()
          = Some r ∧ MLM.mlm_loss r = NaN).
Proof.
  intros out.
  assert (shape3 1 3 2 (MLM.multi_modal_text_feats out)) as H1.
  { split; [reflexivity|]. repeat constructor. }
  assert (shape2 1 3 (MLM.text_labels out)) as H2.
  { split; [reflexivity|]. repeat constructor. }
  assert (2%nat ≠ 0%nat) as H3 by lia.
  assert (Forall (Forall (λ y, y = (-100)%Z)) (MLM.text_labels out)) as H4.
  { repeat constructor. }
  split; [exact (conj H1 (conj H2 (conj H3 H4)))|].
  split.
  - exact (proj1 (mlm_without_labelled_token_is_nan MLM.sample_unmasked_infer
                    (λ x, x) MLM.sample_nll 2 1 3 ()) H1 H2 H3 H4).
  - exact (proj2 (mlm_without_labelled_token_is_nan MLM.sample_unmasked_infer
                    (λ x, x) MLM.sample_nll 2 1 3 ()) H1 H2 H3 H4).
Defined.

Lemma mlm_vocab_size_mismatch_raises_witness :
  (shape3 1 3 2 MLM.sample_logits ∧ shape2 1 3 MLM.sample_labels ∧
   (0 < 1 * 3)%nat ∧ 3%nat ≠ 2%nat) ∧
  MLM.masked_lm_loss MLM.sample_nll 3 MLM.sample_logits MLM.sample_labels = None.
Proof.
  assert (shape3 1 3 2 MLM.sample_logits) as H1.
  { split; [reflexivity|]. repeat constructor. }
  assert (shape2 1 3 MLM.sample_labels) as H2.
  { split; [reflexivity|]. repeat constructor. }
  assert (0 < 1 * 3)%nat as H3 by lia.
  assert (3%nat ≠ 2%nat) as H4 by lia.
  split; [exact (conj H1 (conj H2 (conj H3 H4)))|].
  exact (mlm_vocab_size_mismatch_raises MLM.sample_nll 2 3 1 3 _ _ H1 H2 H3 H4).
Defined.

(** ** Conditional language modelling: the beam expansion *)

Lemma expanded_idx_select {A} (num_beams : nat) (x : list A) : ∀ (enc : list A) s,
  (∀ i e, enc !! i = Some e → x !! (s + i)%nat = Some e) →
  Forall2 (λ j y, x !! j = Some y)
    (concat ((λ b, replicate num_beams b) <$> seq s (length enc)))
    (concat ((λ e, replicate num_beams e) <$> enc)).
Proof.
  induction enc as [|e enc IH]; intros s Hx; [constructor|].
  cbn [length seq fmap list_fmap concat]. apply Forall2_app.
  - apply Forall2_replicate. rewrite <-(Nat.add_0_r s). by apply (Hx 0%nat).
  - apply IH. intros i e' Hi. replace (S s + i)%nat with (s + S i)%nat by lia.
    by apply Hx.
Qed.

Lemma index_select_expanded {A} (num_beams : nat) (enc : list A) :
  index_select enc (CLM.expanded_idx (length enc) num_beams)
  = Some (concat ((λ e, replicate num_beams e) <$> enc)).
Proof.
  unfold index_select, CLM.expanded_idx. apply mapM_Some_2.
  apply expanded_idx_select. by intros i e Hi.
Qed.

(** Before decoding, every encoder state is repeated once per beam, in
    place: with [num_beams] beams, rows [b * num_beams] to
    [b * num_beams + num_beams - 1] of the expanded states are state [b],
    and the decoder starts from one start token per state.  The step never
    raises. *)
Theorem clm_beam_expansion (cls_token_id : Z)
    (generate : list (list Z) → list (list (list Qc)) → nat → bool → nat →
                list (list Z))
    (batch_decode : list (list Z) → list string) (cfg : CLM.config)
    (enc : list (list (list Qc))) :
  let nb := CLM.clm_num_beams cfg in
  let expanded := concat ((λ e, replicate nb e) <$> enc) in
  CLM.generate_texts cls_token_id generate batch_decode cfg enc
    = Some (CLM.fix_empty <$>
              batch_decode (generate (replicate (length enc) [cls_token_id]) expanded
                              (CLM.clm_max_text_len cfg) (CLM.clm_do_sample cfg) nb)) ∧
  length expanded = (length enc * nb)%nat ∧
  ∀ b k, (k < nb)%nat → expanded !! (b * nb + k)%nat = enc !! b.
Proof.
  intros nb expanded.
  assert (Forall (λ r : list (list (list Qc)), length r = nb)
            ((λ e, replicate nb e) <$> enc)) as Hrows.
  { apply Forall_fmap, Forall_forall. intros e _. simpl. apply length_replicate. }
  split; [|split].
  - unfold CLM.generate_texts. rewrite length_replicate.
    by rewrite index_select_expanded.
  - unfold expanded. rewrite (concat_length_uniform nb) by done.
    by rewrite length_fmap.
  - intros b k Hk. unfold expanded. rewrite (concat_lookup_uniform nb) by done.
    rewrite list_lookup_fmap. destruct (enc !! b) as [e|]; [|done]. simpl.
    by apply lookup_replicate_2.
Qed.

Lemma clm_beam_expansion_witness :
  let enc : list (list (list Qc)) := [[[1]; [0]]; [[0]; [1]]] in
  let expanded := concat ((λ e, replicate 2 e) <$> enc) in
  CLM.generate_texts 101 CLM.sample_generate CLM.sample_decode CLM.sample_cfg enc
    = Some (CLM.fix_empty <$>
              CLM.sample_decode (CLM.sample_generate (replicate 2 [101%Z]) expanded
                                   8 false 2)) ∧
  length expanded = (2 * 2)%nat ∧
  ∀ b k, (k < 2)%nat → expanded !! (b * 2 + k)%nat = enc !! b.
Proof.
  intros enc expanded.
  exact (clm_beam_expansion 101 CLM.sample_generate CLM.sample_decode
           CLM.sample_cfg enc).
Defined.

(** ** Image-text matching: when the selection raises, how many images stay *)

Lemma count_pointwise {A B} (P : A → Prop) (Q : B → Prop)
    `{∀ x, Decision (P x)} `{∀ y, Decision (Q y)} (xs : list A) : ∀ ys : list B,
  length xs = length ys →
  (∀ i x y, xs !! i = Some x → ys !! i = Some y → (P x ↔ Q y)) →
  length (filter P xs) = length (filter Q ys).
Proof.
  induction xs as [|x xs IH]; intros [|y ys] Hlen Hpq; try done.
  simpl in Hlen.
  assert (length (filter P xs) = length (filter Q ys)) as Hrest.
  { apply IH; [lia|]. intros i x' y' Hx Hy. by apply (Hpq (S i)). }
  pose proof (Hpq 0%nat x y eq_refl eq_refl) as Hhd.
  destruct (decide (P x)) as [HP|HP].
  - rewrite (filter_cons_True P), (filter_cons_True Q) by tauto. simpl. lia.
  - rewrite (filter_cons_False P), (filter_cons_False Q) by tauto. done.
Qed.

Lemma length_filter_complement {A} (P : A → Prop) `{∀ x, Decision (P x)}
    (l : list A) :
  (length (filter P l) + length (filter (λ x, ¬ P x) l) = length l)%nat.
Proof.
  induction l as [|x l IH]; [done|]. destruct (decide (P x)).
  - rewrite (filter_cons_True P), (filter_cons_False (λ x, ¬ P x)) by tauto.
    simpl. lia.
  - rewrite (filter_cons_False P), (filter_cons_True (λ x, ¬ P x)) by tauto.
    simpl. lia.
Qed.

Lemma itm_labels_binary n perm labels :
  ITM.is_randperm n perm → ITM.itm_labels n perm = Some labels →
  length labels = n ∧ Forall (λ l, l = 0 ∨ l = 1) labels ∧
  count_label 1 labels = (n `div` 2)%nat.
Proof.
  intros Hp Hl. destruct (itm_labels_perm n perm Hp) as (ls & Hls & Hperm).
  assert (ls = labels) as -> by congruence.
  split; [by rewrite Hperm, itm_labels_ordered_length|]. split.
  - rewrite Hperm. unfold ITM.itm_labels_ordered. apply Forall_app. split.
    + apply Forall_replicate. by right.
    + apply Forall_replicate. by left.
  - by rewrite (count_label_Permutation 1 _ _ Hperm), itm_labels_ordered_ones.
Qed.

Section itm_more.
Context {Image : Type}.
Implicit Types (labels : list Qc) (bti bfi : list Image).

Lemma select_view_is_Some labels bti bfi :
  is_Some (ITM.select_view labels bti bfi) ↔
  (0 < length bti `min` length bfi ≤ length labels)%nat.
Proof.
  split; [|apply select_view_total].
  intros [out Hsel]. destruct (select_view_spec _ _ _ _ Hsel) as [Hlen Hpick].
  assert (out ≠ []) as Hne.
  { unfold ITM.select_view in Hsel.
    destruct (mapM _ _) as [[|p picked]|]; simpl in Hsel; [done| |done].
    by simplify_eq. }
  assert (0 < length out)%nat as Hpos by (destruct out; [done|simpl; lia]).
  split; [lia|].
  destruct (lookup_lt_is_Some_2 bti (length out - 1)) as [ti Hti]; [lia|].
  destruct (lookup_lt_is_Some_2 bfi (length out - 1)) as [fi Hfi]; [lia|].
  destruct (Hpick _ _ _ Hti Hfi) as (l & Hl & _).
  apply lookup_lt_Some in Hl. lia.
Qed.

(** The selection of lines 148-156 raises when some pair of views has no
    image to stack, or pairs more images than there are labels.  When it
    returns, it has as many views as the shorter of the two view lists, and
    each view has as many images as the shorter of its two sources: images
    without a partner are dropped. *)
Theorem itm_images_raises_or_truncates labels (image false_image : list (list Image)) :
  (Exists (λ v : list Image * list Image,
             (length v.1 `min` length v.2 = 0)%nat ∨
             (length labels < length v.1 `min` length v.2)%nat)
     (zip image false_image) →
   ITM.itm_images labels image false_image = None) ∧
  ∀ out, ITM.itm_images labels image false_image = Some out →
    length out = (length image `min` length false_image)%nat ∧
    Forall2 (λ sel (v : list Image * list Image),
               length sel = (length v.1 `min` length v.2)%nat)
      out (zip image false_image).
Proof.
  split.
  - intros Hex. apply eq_None_not_Some. unfold ITM.itm_images.
    rewrite mapM_is_Some. intros Hall. apply Exists_exists in Hex as (v & Hin & Hv).
    rewrite Forall_forall in Hall. specialize (Hall v Hin). simpl in Hall.
    apply select_view_is_Some in Hall. lia.
  - intros out Hout. split; [by apply itm_images_spec in Hout as [? _]|].
    unfold ITM.itm_images in Hout. apply mapM_Some_1 in Hout.
    apply Forall2_flip. eapply Forall2_impl; [exact Hout|].
    intros [bti bfi] sel Hsel. simpl in *.
    by apply select_view_spec in Hsel as [? _].
Qed.

Context `{EqDecision Image}.

(** Half of every view is left as it was.  When no negative image equals
    the true image of its example, a view of [n] images keeps the true image
    at exactly [floor(n/2)] positions and takes the negative image at the
    other [ceil(n/2)] positions, whatever the permutation. *)
Theorem itm_half_of_view_kept n perm labels bti bfi sel :
  ITM.is_randperm n perm → ITM.itm_labels n perm = Some labels →
  length bti = n → length bfi = n →
  (∀ i ti fi, bti !! i = Some ti → bfi !! i = Some fi → ti ≠ fi) →
  ITM.select_view labels bti bfi = Some sel →
  length (filter (λ p : Image * Image, p.1 = p.2) (zip sel bti)) = (n `div` 2)%nat ∧
  length (filter (λ p : Image * Image, p.1 = p.2) (zip sel bfi)) = ITM.ceil_half n.
Proof.
  intros Hp Hl Hti Hfi Hne Hsel.
  destruct (itm_labels_binary _ _ _ Hp Hl) as (Hlen & Hbin & Hones).
  destruct (select_view_spec _ _ _ _ Hsel) as [Hslen Hpick].
  rewrite Hti, Hfi, Nat.min_id in Hslen.
  assert (∀ i s l, sel !! i = Some s → labels !! i = Some l →
            ∃ ti fi, bti !! i = Some ti ∧ bfi !! i = Some fi ∧ ti ≠ fi ∧
                     s = if decide (l = 1) then ti else fi) as Hat.
  { intros i s l Hs Hli.
    destruct (lookup_lt_is_Some_2 bti i) as [ti Hi1].
    { apply lookup_lt_Some in Hs. lia. }
    destruct (lookup_lt_is_Some_2 bfi i) as [fi Hi2].
    { apply lookup_lt_Some in Hs. lia. }
    destruct (Hpick _ _ _ Hi1 Hi2) as (l' & Hl' & Hs').
    assert (l' = l) as -> by congruence.
    exists ti, fi. split; [done|]. split; [done|]. split; [by eapply Hne|].
    congruence. }
  assert (length (filter (λ p : Image * Image, p.1 = p.2) (zip sel bti))
          = count_label 1 labels) as H1.
  { unfold count_label. apply count_pointwise.
    { rewrite length_zip. lia. }
    intros i [s t] l Hz Hli. simpl.
    apply lookup_zip_with_Some in Hz as (s' & t' & [= -> ->] & Hs & Ht).
    destruct (Hat _ _ _ Hs Hli) as (ti & fi & Hi1 & Hi2 & Hd & ->).
    assert (t' = ti) as -> by congruence.
    case_decide; split; try done; intros Heq; by destruct Hd. }
  assert (length (filter (λ p : Image * Image, p.1 = p.2) (zip sel bfi))
          = length (filter (λ l : Qc, l ≠ 1) labels)) as H0.
  { apply count_pointwise.
    { rewrite length_zip. lia. }
    intros i [s t] l Hz Hli. simpl.
    apply lookup_zip_with_Some in Hz as (s' & t' & [= -> ->] & Hs & Ht).
    destruct (Hat _ _ _ Hs Hli) as (ti & fi & Hi1 & Hi2 & Hd & ->).
    assert (t' = fi) as -> by congruence.
    case_decide; split; try done; intros Heq; by destruct Hd. }
  split; [congruence|]. rewrite H0.
  pose proof (length_filter_complement (λ l : Qc, l = 1) labels) as Hc.
  unfold count_label in Hones. unfold ITM.ceil_half.
  pose proof (Nat.div_mod_eq n 2). pose proof (Nat.mod_upper_bound n 2).
  pose proof (Nat.div_mod_eq (n + 1) 2). pose proof (Nat.mod_upper_bound (n + 1) 2).
  lia.
Qed.
End itm_more.

Lemma itm_images_raises_or_truncates_witness :
  ITM.itm_images ITM.sample_labels [[10; 11]%nat] [[]] = None ∧
  ∀ out,
    ITM.itm_images ITM.sample_labels [[10; 11]%nat] [[20; 21; 22]%nat] = Some out →
    length out = (length [[10; 11]%nat] `min` length [[20; 21; 22]%nat])%nat ∧
    Forall2 (λ sel (v : list nat * list nat),
               length sel = (length v.1 `min` length v.2)%nat)
      out (zip [[10; 11]%nat] [[20; 21; 22]%nat]).
Proof.
  split.
  - apply (proj1 (itm_images_raises_or_truncates ITM.sample_labels
                    [[10; 11]%nat] [[]])).
    apply Exists_cons_hd. left. reflexivity.
  - exact (proj2 (itm_images_raises_or_truncates ITM.sample_labels
                    [[10; 11]%nat] [[20; 21; 22]%nat])).
Defined.

Lemma sample_perm_is_randperm : ITM.is_randperm 3 [2; 0; 1]%nat.
Proof.
  unfold ITM.is_randperm. simpl.
  change [2; 0; 1]%nat with ([2]%nat ++ [0; 1]%nat).
  change [0; 1; 2]%nat with ([0; 1]%nat ++ [2]%nat).
  apply Permutation_app_comm.
Qed.

Lemma itm_half_of_view_kept_witness :
  (ITM.is_randperm 3 [2; 0; 1]%nat ∧
   ITM.itm_labels 3 [2; 0; 1]%nat = Some ITM.sample_labels ∧
   ITM.select_view ITM.sample_labels [10; 11; 12]%nat [20; 21; 22]%nat
     = Some [20; 11; 22]%nat) ∧
  length (filter (λ p : nat * nat, p.1 = p.2)
            (zip [20; 11; 22]%nat [10; 11; 12]%nat)) = (3 `div` 2)%nat ∧
  length (filter (λ p : nat * nat, p.1 = p.2)
            (zip [20; 11; 22]%nat [20; 21; 22]%nat)) = ITM.ceil_half 3.
Proof.
  split; [exact (conj sample_perm_is_randperm (conj eq_refl eq_refl))|].
  apply (itm_half_of_view_kept 3 [2; 0; 1]%nat ITM.sample_labels [10; 11; 12]%nat
           [20; 21; 22]%nat [20; 11; 22]%nat sample_perm_is_randperm);
    try reflexivity.
  intros [|[|[|i]]] ti fi Hti Hfi; simplify_eq/=; lia.
Defined.

Lemma to_long_binary (l : Qc) : l = 0 ∨ l = 1 → to_long l = 0%Z ∨ to_long l = 1%Z.
Proof. intros [-> | ->]; [by left|by right]. Qed.

(** The matching loss runs over every pair of the batch.  The label vector
    becomes the class vector of zeros and ones, none of which the loss
    leaves out, so for logits over the two classes the loss is the plain
    mean of the [n] negative log-likelihoods. *)
Theorem itm_loss_over_all_pairs (nll : list Qc → Z → Qc) n perm labels
    (logits : list (list Qc)) :
  ITM.is_randperm n perm → ITM.itm_labels n perm = Some labels →
  shape2 n 2 logits → n ≠ 0%nat →
  Forall (λ y, y = 0%Z ∨ y = 1%Z) (to_long <$> labels) ∧
  cross_entropy nll (-100) logits (to_long <$> labels)
  = Some (Num (sum_Qc ((λ p, nll p.1 p.2) <$> zip logits (to_long <$> labels))
               / Qc_of_nat n)).
Proof.
  intros Hp Hl [Hlen Hrows] Hn.
  destruct (itm_labels_binary _ _ _ Hp Hl) as (Hll & Hbin & _).
  assert (Forall (λ y, y = 0%Z ∨ y = 1%Z) (to_long <$> labels)) as Hlong.
  { apply Forall_fmap. eapply Forall_impl; [exact Hbin|]. apply to_long_binary. }
  split; [done|]. rewrite cross_entropy_mean.
  - by rewrite Hlen.
  - rewrite length_fmap. congruence.
  - eapply Forall_impl; [exact Hlong|]. simpl. intros y [-> | ->]; done.
  - apply (ce_valid_uniform _ 2); [done|].
    eapply Forall_impl; [exact Hlong|]. simpl. intros y [-> | ->]; right; lia.
  - intros ->. simpl in Hlen. congruence.
Qed.

Lemma itm_loss_over_all_pairs_witness :
  (ITM.is_randperm 3 [2; 0; 1]%nat ∧
   ITM.itm_labels 3 [2; 0; 1]%nat = Some ITM.sample_labels ∧
   shape2 3 2 ITM.sample_logits ∧ 3%nat ≠ 0%nat) ∧
  Forall (λ y, y = 0%Z ∨ y = 1%Z) (to_long <$> ITM.sample_labels) ∧
  cross_entropy ITC.sample_nll (-100) ITM.sample_logits
    (to_long <$> ITM.sample_labels)
  = Some (Num (sum_Qc ((λ p, ITC.sample_nll p.1 p.2)
                         <$> zip ITM.sample_logits (to_long <$> ITM.sample_labels))
               / Qc_of_nat 3)).
Proof.
  assert (3%nat ≠ 0%nat) as Hn by lia.
  assert (shape2 3 2 ITM.sample_logits) as Hs.
  { split; [reflexivity|]. repeat constructor. }
  split; [exact (conj sample_perm_is_randperm (conj eq_refl (conj Hs Hn)))|].
  exact (itm_loss_over_all_pairs ITC.sample_nll 3 [2; 0; 1]%nat ITM.sample_labels
           ITM.sample_logits sample_perm_is_randperm eq_refl Hs Hn).
Defined.

(** ** Masked image modelling: the sign of the loss *)

Lemma Qc_square_nonneg (a : Qc) : 0 ≤ a * a.
Proof.
  destruct (Qclt_le_dec a 0) as [Hneg|Hpos].
  - assert (a * a = (- a) * (- a)) as -> by ring.
    assert (0 ≤ - a) as Hna.
    { apply Qclt_le_weak in Hneg. apply Qcopp_le_compat in Hneg.
      by replace (- 0) with (0 : Qc) in Hneg by ring. }
    by apply Qcmult_nonneg_nonneg.
  - by apply Qcmult_nonneg_nonneg.
Qed.

Lemma sq_err_nonneg x y : 0 ≤ MIM.sq_err x y.
Proof.
  unfold MIM.sq_err. assert ((x - y) ^ 2 = (x - y) * (x - y)) as -> by (simpl; ring).
  apply Qc_square_nonneg.
Qed.

Lemma sq_err_zero x y : MIM.sq_err x y = 0 ↔ x = y.
Proof.
  unfold MIM.sq_err. assert ((x - y) ^ 2 = (x - y) * (x - y)) as -> by (simpl; ring).
  split.
  - intros H. apply Qcmult_integral in H.
    assert (x - y = 0) as Hxy by (by destruct H).
    assert (x = (x - y) + y) as -> by ring. rewrite Hxy. ring.
  - intros ->. ring.
Qed.

Lemma sum_Qc_nonneg (xs : list Qc) : Forall (λ x, 0 ≤ x) xs → 0 ≤ sum_Qc xs.
Proof.
  induction 1 as [|x xs Hx _ IH]; [apply Qcle_refl|].
  rewrite sum_Qc_cons. by apply Qcplus_nonneg_nonneg.
Qed.

Lemma sum_Qc_zero (xs : list Qc) :
  Forall (λ x, 0 ≤ x) xs → sum_Qc xs = 0 → Forall (λ x, x = 0) xs.
Proof.
  induction 1 as [|x xs Hx Hxs IH]; [constructor|].
  rewrite sum_Qc_cons. intros Hsum.
  pose proof (sum_Qc_nonneg xs Hxs) as Hs.
  assert (x = 0) as ->.
  { apply Qcle_antisym; [|done].
    assert (x = x + sum_Qc xs + - sum_Qc xs) as -> by ring. rewrite Hsum.
    rewrite Qcplus_0_l. apply Qcopp_le_compat in Hs.
    by replace (- 0) with (0 : Qc) in Hs by ring. }
  rewrite Qcplus_0_l in Hsum. constructor; [done|by apply IH].
Qed.

Lemma sum_Qc_all_zero (xs : list Qc) : Forall (λ x, x = 0) xs → sum_Qc xs = 0.
Proof.
  induction 1 as [|x xs -> _ IH]; [done|]. by rewrite sum_Qc_cons, IH, Qcplus_0_l.
Qed.

Lemma Qc_div_nat_nonneg (s : Qc) n : 0 ≤ s → 0 ≤ s / Qc_of_nat n.
Proof.
  intros Hs. unfold Qcdiv. destruct n as [|n].
  - assert (/ Qc_of_nat 0 = 0) as -> by reflexivity. rewrite Qcmult_0_r.
    apply Qcle_refl.
  - apply Qcmult_nonneg_nonneg; [done|]. apply Qclt_le_weak, Qcinv_pos.
    apply Qc_of_nat_pos. lia.
Qed.

Lemma Qc_div_nat_zero (s : Qc) n : n ≠ 0%nat → s / Qc_of_nat n = 0 ↔ s = 0.
Proof.
  intros Hn. assert (Qc_of_nat n ≠ 0) as Hq by (by rewrite Qc_of_nat_0).
  split.
  - intros H. rewrite <-(Qcdiv_mult_l s (Qc_of_nat n)) by done.
    unfold Qcdiv in *.
    assert (s * Qc_of_nat n * / Qc_of_nat n = s * / Qc_of_nat n * Qc_of_nat n) as ->
      by ring.
    rewrite H. ring.
  - intros ->. unfold Qcdiv. ring.
Qed.

Lemma sq_errs_nonneg (a b : list Qc) :
  Forall (λ x, 0 ≤ x) (map (λ e : Qc * Qc, MIM.sq_err e.1 e.2) (zip a b)).
Proof.
  apply Forall_forall. intros x Hx. apply list_elem_of_fmap in Hx as (e & -> & _).
  apply sq_err_nonneg.
Qed.

Lemma patch_mse_nonneg (a b : list Qc) : 0 ≤ MIM.patch_mse a b.
Proof.
  unfold MIM.patch_mse. apply Qc_div_nat_nonneg, sum_Qc_nonneg, sq_errs_nonneg.
Qed.

Lemma patch_mse_zero (a b : list Qc) :
  length a = length b → a ≠ [] → MIM.patch_mse a b = 0 ↔ a = b.
Proof.
  intros Hlen Hne. unfold MIM.patch_mse. rewrite Qc_div_nat_zero.
  2:{ rewrite length_zip, <-Hlen, Nat.min_id. by destruct a. }
  split.
  - intros Hsum. apply sum_Qc_zero in Hsum; [|apply sq_errs_nonneg].
    apply list_eq_same_length with (length a); [done|done|].
    intros i x y Hi Hx Hy.
    rewrite Forall_lookup in Hsum.
    apply sq_err_zero. apply (Hsum i).
    change (map ?f ?l) with (f <$> l). rewrite list_lookup_fmap.
    assert (zip a b !! i = Some (x, y)) as ->; [|done].
    apply lookup_zip_with_Some. eauto.
  - intros <-. apply sum_Qc_all_zero, Forall_forall.
    intros x Hx. apply list_elem_of_fmap in Hx as ([u v] & -> & Hin). simpl.
    apply sq_err_zero. apply list_elem_of_lookup in Hin as [i Hi].
    apply lookup_zip_with_Some in Hi as (u' & v' & Heq & Hu & Hv). by simplify_eq.
Qed.

(** What holds of every selected value holds at every removed position. *)
Lemma selected_Forall (P : Qc → Prop) (m : list Qc) : ∀ q : list Qc,
  length q = length m →
  Forall P (MIM.selected q m) ↔
  ∀ k x, m !! k = Some 1 → q !! k = Some x → P x.
Proof.
  unfold MIM.selected.
  induction m as [|b m IH]; intros [|y q] Hlen; try done.
  simpl in Hlen. cbn [zip_with].
  assert (length q = length m) as Hl by lia. specialize (IH q Hl).
  destruct (decide (b = 1)) as [->|Hb].
  - rewrite filter_cons_True by done. rewrite fmap_cons, Forall_cons, IH. simpl.
    split.
    + intros [Hy Hrest] [|k] x Hm Hq; simpl in *; [by simplify_eq|by eapply Hrest].
    + intros Hall. split; [by apply (Hall 0%nat)|].
      intros k x Hm Hq. by apply (Hall (S k)).
  - rewrite filter_cons_False by done. rewrite IH. split.
    + intros Hrest [|k] x Hm Hq; simpl in *; [by simplify_eq|by eapply Hrest].
    + intros Hall k x Hm Hq. by apply (Hall (S k)).
Qed.

Lemma selected_entries (P : Qc → Prop) n l (qs mask : list (list Qc)) :
  shape2 n l qs → shape2 n l mask →
  Forall P (MIM.selected (concat qs) (concat mask)) ↔
  ∀ i j x, entry mask i j = Some 1 → entry qs i j = Some x → P x.
Proof.
  intros Hq Hm.
  pose proof (concat_rows_length _ _ (shape2_rows _ _ _ _ Hq Hm)) as Hlen.
  rewrite selected_Forall by done.
  destruct (decide (l = 0%nat)) as [->|Hl].
  { split.
    - intros _ i j x Hij. exfalso. unfold entry in Hij.
      destruct (mask !! i) as [r|] eqn:Hr; [|done]. simpl in Hij.
      destruct Hm as [_ Hm]. rewrite Forall_lookup in Hm.
      apply Hm in Hr. apply lookup_lt_Some in Hij. lia.
    - intros _ k x Hk. exfalso. apply lookup_lt_Some in Hk.
      destruct Hm as [Hmn Hm]. rewrite (concat_length_uniform 0) in Hk by done. lia. }
  split.
  - intros Hall i j x Hmi Hqi.
    assert (j < l)%nat as Hj.
    { unfold entry in Hmi. destruct (mask !! i) as [r|] eqn:Hr; [|done].
      simpl in Hmi. destruct Hm as [_ Hm]. rewrite Forall_lookup in Hm.
      apply Hm in Hr. apply lookup_lt_Some in Hmi. lia. }
    apply (Hall (i * l + j)%nat).
    + destruct Hm as [_ Hm]. by rewrite (concat_lookup_uniform l).
    + destruct Hq as [_ Hq]. by rewrite (concat_lookup_uniform l).
  - intros Hall k x Hmk Hqk.
    rewrite (concat_lookup_flat n l) in Hmk by done.
    rewrite (concat_lookup_flat n l) in Hqk by done.
    by eapply Hall.
Qed.

(** With at least one removed patch, the masked-image-modelling loss, of
    [compute_mim] and of [compute_umim] alike, is a number that is never
    negative, and it is zero when the logits equal the labels on every
    removed patch. *)
Theorem mim_loss_nonneg_zero_on_agreement n l d (logits labels : list (list (list Qc)))
    (mask : list (list Qc)) :
  shape3 n l d logits → shape3 n l d labels → shape2 n l mask →
  (0 < d)%nat → MIM.binary_mask mask → 1 ∈ concat mask →
  ∃ q, MIM.mim_loss logits labels mask = Some (Num q) ∧
       MIM.umim_loss logits labels mask = Some (Num q) ∧ 0 ≤ q ∧
       (MIM.agree_on_removed mask logits labels → q = 0).
Proof.
  intros Hlog Hlab Hmask Hd Hbin Hone.
  destruct (mim_loss_value n l d logits labels mask) as [Hloss _]; try done.
  eexists. split; [exact Hloss|]. split; [exact Hloss|].
  pose proof (patch_mses_shape _ _ _ _ _ Hlog Hlab) as Hqs.
  set (qs := MIM.patch_mses logits labels) in *.
  pose proof (concat_rows_length _ _ (shape2_rows _ _ _ _ Hqs Hmask)) as Hlen.
  assert (∀ i j x, entry qs i j = Some x →
            ∃ a b, entry logits i j = Some a ∧ entry labels i j = Some b ∧
                   length a = d ∧ length b = d ∧ x = MIM.patch_mse a b) as Hentry.
  { intros i j x Hx. unfold qs in Hx. rewrite entry_patch_mses in Hx.
    destruct (entry logits i j) as [a|] eqn:Ha; [|done]. simpl in Hx.
    destruct (entry labels i j) as [b|] eqn:Hb; [|done]. simpl in Hx.
    exists a, b. split; [done|]. split; [done|].
    assert (∀ (t : list (list (list Qc))) c, shape3 n l d t →
              entry t i j = Some c → length c = d) as Hsh.
    { intros t c [_ Ht] Hc. unfold entry in Hc.
      destruct (t !! i) as [r|] eqn:Hr; [|done]. simpl in Hc.
      rewrite Forall_lookup in Ht. destruct (Ht _ _ Hr) as [_ Hrr].
      rewrite Forall_lookup in Hrr. by eapply Hrr. }
    split; [exact (Hsh logits a Hlog Ha)|].
    split; [exact (Hsh labels b Hlab Hb)|]. by simplify_eq. }
  assert (Forall (λ x, 0 ≤ x) (MIM.selected (concat qs) (concat mask))) as Hnn.
  { apply (selected_entries _ n l); [done|done|].
    intros i j x _ Hx. destruct (Hentry _ _ _ Hx) as (a & b & _ & _ & _ & _ & ->).
    apply patch_mse_nonneg. }
  split.
  { unfold MIM.masked_mean. by apply Qc_div_nat_nonneg, sum_Qc_nonneg. }
  intros Hag. unfold MIM.masked_mean. apply Qc_div_nat_zero.
  { intros Hz%length_zero_iff_nil.
    by apply (selected_nonempty (concat qs) (concat mask)). }
  apply sum_Qc_all_zero. apply (selected_entries _ n l); [done|done|].
  intros i j x Hm Hx.
  destruct (Hentry _ _ _ Hx) as (a & b & Ha & Hb & Hla & Hlb & ->).
  apply patch_mse_zero; [congruence| |].
  - intros ->. simpl in Hla. lia.
  - specialize (Hag _ _ Hm). congruence.
Qed.

Lemma mim_loss_nonneg_zero_on_agreement_witness :
  let logits : list (list (list Qc)) := [[[1; 1 + 1]; [0; 1]]] in
  let labels : list (list (list Qc)) := [[[0; 0]; [1; 1]]] in
  let mask : list (list Qc) := [[0; 1]] in
  (shape3 1 2 2 logits ∧ shape3 1 2 2 labels ∧ shape2 1 2 mask ∧ (0 < 2)%nat ∧
   MIM.binary_mask mask ∧ 1 ∈ concat mask) ∧
  ∃ q, MIM.mim_loss logits labels mask = Some (Num q) ∧
       MIM.umim_loss logits labels mask = Some (Num q) ∧ 0 ≤ q ∧
       (MIM.agree_on_removed mask logits labels → q = 0).
Proof.
  intros logits labels mask.
  assert (shape3 1 2 2 logits) as H1.
  { split; [reflexivity|]. repeat constructor. }
  assert (shape3 1 2 2 labels) as H2.
  { split; [reflexivity|]. repeat constructor. }
  assert (shape2 1 2 mask) as H3.
  { split; [reflexivity|]. repeat constructor. }
  assert (0 < 2)%nat as H4 by lia.
  assert (MIM.binary_mask mask) as H5.
  { unfold MIM.binary_mask, mask. apply Forall_singleton.
    apply Forall_cons. split; [by left|]. apply Forall_singleton. by right. }
  assert (1 ∈ concat mask) as H6.
  { simpl. apply list_elem_of_further, list_elem_of_here. }
  split; [exact (conj H1 (conj H2 (conj H3 (conj H4 (conj H5 H6)))))|].
  exact (mim_loss_nonneg_zero_on_agreement 1 2 2 logits labels mask H1 H2 H3 H4 H5 H6).
Defined.

(** ** Image-text retrieval: the loss, and the batches that raise *)

Lemma unflatten_spec {A} bs fs (l : list A) :
  length l = (bs * fs)%nat →
  ∃ rows, IRTR.unflatten bs fs l = Some rows ∧ shape2 bs fs rows ∧
          ∀ b j, (b < bs)%nat → (j < fs)%nat → entry rows b j = l !! (b * fs + j)%nat.
Proof.
  intros Hlen. unfold IRTR.unflatten. rewrite decide_True by done.
  eexists. split; [reflexivity|]. split; [split|].
  - by rewrite length_fmap, length_seq.
  - apply Forall_fmap, Forall_forall. intros b Hb%elem_of_seq. simpl.
    rewrite length_take, length_drop. nia.
  - intros b j Hb Hj. unfold entry.
    rewrite list_lookup_fmap, lookup_seq_lt by done. simpl.
    rewrite lookup_take_lt by done. by rewrite lookup_drop.
Qed.

Section irtr_loss.
Context {Image Feats : Type}.
Variable infer_cls : IRTR.batch_infer Image → option Feats.
Variable irtr_head : Feats → list (list Qc).
Variable nll : list Qc → Z → Qc.

(** The retrieval loss is the mean, over the anchors of the batch, of the
    negative log-likelihood of candidate 0 among the anchor's
    [false_len + 1] scores, and candidate 0 is the true caption.  The score
    of candidate [j] of anchor [b] is the head's first output for row
    [b * (false_len + 1) + j] of the flattened batch. *)
Theorem irtr_loss_mean_over_anchors (batch : gmap string (IRTR.value Image))
    (false_len bs : nat) bi feats :
  IRTR.make_batch_infer batch false_len = Some (bs, bi) →
  infer_cls bi = Some feats →
  length (irtr_head feats) = (bs * (false_len + 1))%nat →
  Forall (λ row, row ≠ []) (irtr_head feats) →
  bs ≠ 0%nat →
  ∃ score rows,
    mapM (λ row : list Qc, row !! 0%nat) (irtr_head feats) = Some score ∧
    IRTR.unflatten bs (false_len + 1) score = Some rows ∧
    shape2 bs (false_len + 1) rows ∧
    (∀ b j, (b < bs)%nat → (j < false_len + 1)%nat →
       entry rows b j = score !! (b * (false_len + 1) + j)%nat) ∧
    IRTR.compute_irtr infer_cls irtr_head nll batch false_len
    = Some (Num (sum_Qc ((λ row, nll row 0%Z) <$> rows) / Qc_of_nat bs)).
Proof.
  intros Hbi Hfeats Hlen Hrows Hbs.
  assert (is_Some (mapM (λ row : list Qc, row !! 0%nat) (irtr_head feats)))
    as [score Hscore].
  { apply mapM_is_Some. eapply Forall_impl; [exact Hrows|]. simpl.
    intros [|x row] Hne; [done|by eexists]. }
  pose proof (length_mapM _ _ _ Hscore) as Hsl.
  destruct (unflatten_spec bs (false_len + 1) score) as (rows & Hun & Hshape & Hent).
  { congruence. }
  exists score, rows. repeat (split; [done|]).
  unfold IRTR.compute_irtr. rewrite Hbi. cbn [mbind option_bind]. simpl.
  rewrite Hfeats. cbn [mbind option_bind]. rewrite Hscore. cbn [mbind option_bind].
  rewrite Hun. cbn [mbind option_bind].
  destruct Hshape as [Hn Hw].
  rewrite cross_entropy_mean.
  - rewrite Hn. unfold IRTR.answer.
    assert ((λ p : list Qc * Z, nll p.1 p.2) <$> zip rows (replicate bs 0%Z)
            = (λ row, nll row 0%Z) <$> rows) as ->; [|done].
    apply list_eq. intros i. rewrite !list_lookup_fmap.
    destruct (zip rows (replicate bs 0%Z) !! i) as [[row y]|] eqn:Hz.
    + apply lookup_zip_with_Some in Hz as (r & z & [= <- <-] & Hr & Hy).
      apply lookup_replicate in Hy as [-> _]. by rewrite Hr.
    + destruct (rows !! i) as [r|] eqn:Hr; [|done]. exfalso.
      apply lookup_lt_Some in Hr. apply lookup_ge_None in Hz.
      rewrite length_zip, length_replicate in Hz. lia.
  - unfold IRTR.answer. by rewrite length_replicate.
  - unfold IRTR.answer. apply Forall_replicate. done.
  - unfold IRTR.answer. apply (ce_valid_uniform _ (false_len + 1)); [done|].
    apply Forall_replicate. right. lia.
  - intros ->. simpl in Hn. lia.
Qed.

(** [compute_irtr] raises on every batch when no negative caption is drawn
    ([false_len = 0]: there is nothing to stack), and whenever one of the
    tensors of a negative caption is missing from the batch. *)
Theorem irtr_raises_without_negatives (batch : gmap string (IRTR.value Image)) :
  IRTR.compute_irtr infer_cls irtr_head nll batch 0 = None ∧
  ∀ false_len j field,
    (j < false_len)%nat → field ∈ ["ids"; "masks"; "labels"] →
    batch !! IRTR.false_key j field = None →
    IRTR.compute_irtr infer_cls irtr_head nll batch false_len = None.
Proof.
  split.
  - unfold IRTR.compute_irtr, IRTR.make_batch_infer.
    destruct (IRTR.get_views batch "image") as [views|]; [|done].
    cbn [mbind option_bind]. destruct (views !! 0%nat); [|done]. done.
  - intros false_len j field Hj Hfield Hmiss.
    assert (IRTR.candidates batch false_len field = None) as Hnone.
    { unfold IRTR.candidates.
      assert (mapM (λ i, IRTR.get_tokens batch (IRTR.false_key i field))
                (seq 0 false_len) = None) as ->; [|done].
      apply mapM_None_2, Exists_exists. exists j.
      split; [apply elem_of_seq; lia|]. unfold IRTR.get_tokens. by rewrite Hmiss. }
    unfold IRTR.compute_irtr, IRTR.make_batch_infer.
    destruct (IRTR.get_views batch "image") as [views|]; [|done].
    cbn [mbind option_bind]. destruct (views !! 0%nat); [|done].
    cbn [mbind option_bind].
    rewrite !elem_of_cons in Hfield.
    destruct Hfield as [->|[->|[->|Hin]]]; [| | |by apply elem_of_nil in Hin].
    + by rewrite Hnone.
    + destruct (IRTR.candidates batch false_len "ids"); [|done].
      cbn [mbind option_bind]. by rewrite Hnone.
    + destruct (IRTR.candidates batch false_len "ids"); [|done].
      cbn [mbind option_bind].
      destruct (IRTR.candidates batch false_len "masks"); [|done].
      cbn [mbind option_bind]. by rewrite Hnone.
Qed.
End irtr_loss.

Lemma irtr_loss_mean_over_anchors_witness :
  ∃ bi feats,
    (IRTR.make_batch_infer IRTR.sample_batch 2 = Some (2%nat, bi) ∧
     IRTR.sample_infer_cls bi = Some feats ∧
     length (IRTR.sample_irtr_head feats) = (2 * (2 + 1))%nat ∧
     Forall (λ row, row ≠ []) (IRTR.sample_irtr_head feats) ∧ 2%nat ≠ 0%nat) ∧
    ∃ score rows,
      mapM (λ row : list Qc, row !! 0%nat) (IRTR.sample_irtr_head feats) = Some score ∧
      IRTR.unflatten 2 (2 + 1) score = Some rows ∧
      shape2 2 (2 + 1) rows ∧
      (∀ b j, (b < 2)%nat → (j < 2 + 1)%nat →
         entry rows b j = score !! (b * (2 + 1) + j)%nat) ∧
      IRTR.compute_irtr IRTR.sample_infer_cls IRTR.sample_irtr_head ITC.sample_nll
        IRTR.sample_batch 2
      = Some (Num (sum_Qc ((λ row, ITC.sample_nll row 0%Z) <$> rows) / Qc_of_nat 2)).
Proof.
  destruct (IRTR.make_batch_infer IRTR.sample_batch 2) as [[bs bi]|] eqn:Hbi;
    [|by vm_compute in Hbi].
  assert (bs = 2%nat) as -> by (vm_compute in Hbi; congruence).
  exists bi, (IRTR.text_ids bi).
  assert (length (IRTR.sample_irtr_head (IRTR.text_ids bi)) = (2 * (2 + 1))%nat) as Hl.
  { pose proof Hbi as Hbi'. vm_compute in Hbi'. injection Hbi' as <-. reflexivity. }
  assert (Forall (λ row, row ≠ []) (IRTR.sample_irtr_head (IRTR.text_ids bi))) as Hr.
  { unfold IRTR.sample_irtr_head. apply Forall_fmap, Forall_forall. by intros t _. }
  assert (2%nat ≠ 0%nat) as Hn by lia.
  split; [exact (conj eq_refl (conj eq_refl (conj Hl (conj Hr Hn))))|].
  exact (irtr_loss_mean_over_anchors IRTR.sample_infer_cls IRTR.sample_irtr_head
           ITC.sample_nll IRTR.sample_batch 2 2 bi (IRTR.text_ids bi)
           Hbi eq_refl Hl Hr Hn).
Defined.

Lemma irtr_raises_without_negatives_witness :
  IRTR.compute_irtr IRTR.sample_infer_cls IRTR.sample_irtr_head ITC.sample_nll
    IRTR.sample_batch 0 = None ∧
  IRTR.compute_irtr IRTR.sample_infer_cls IRTR.sample_irtr_head ITC.sample_nll
    IRTR.sample_batch 3 = None.
Proof.
  split.
  - exact (proj1 (irtr_raises_without_negatives IRTR.sample_infer_cls
                    IRTR.sample_irtr_head ITC.sample_nll IRTR.sample_batch)).
  - apply (proj2 (irtr_raises_without_negatives IRTR.sample_infer_cls
                    IRTR.sample_irtr_head ITC.sample_nll IRTR.sample_batch)
             3%nat 2%nat "ids"); [lia|apply list_elem_of_here|reflexivity].
Defined.

(** ** Visual question answering: the range of the targets *)

Lemma vqa_targets_shape rows size (labels : list (list Z)) (scores : list (list Qc)) t :
  VQA.vqa_targets rows size labels scores = Some t → shape2 rows size t.
Proof.
  unfold VQA.vqa_targets. intros Ht.
  destruct (zeros_shape rows size) as [Hzn Hzr].
  destruct (scatter_from_spec _ _ _ _ Ht) as (Hl & Hcells).
  split; [congruence|]. apply Forall_lookup. intros j r Hj.
  destruct (lookup_lt_is_Some_2 (VQA.zeros rows size) j) as [row Hrow].
  { rewrite <-Hl. by eapply lookup_lt_Some. }
  destruct (Hcells j row Hrow) as (row' & Hr' & Hl' & _).
  assert (r = row') as -> by congruence. rewrite Hl'.
  rewrite Forall_lookup in Hzr. by eapply Hzr.
Qed.

Lemma last_score_elem size c (pairs : list (Z * Qc)) s :
  VQA.last_score size c pairs = Some s → s ∈ pairs.*2.
Proof.
  unfold VQA.last_score. intros Hlast%last_Some_elem_of.
  apply list_elem_of_fmap in Hlast as (p & -> & Hp%list_elem_of_filter).
  apply list_elem_of_fmap. exists p. by destruct Hp.
Qed.

Lemma example_pairs_scores (labels : list (list Z)) (scores : list (list Qc)) i s :
  s ∈ (VQA.example_pairs labels scores i).*2 → ∃ ss, ss ∈ scores ∧ s ∈ ss.
Proof.
  unfold VQA.example_pairs.
  destruct (zip labels scores !! i) as [[ls ss]|] eqn:Hz.
  - intros Hs. apply lookup_zip_with_Some in Hz as (a & b & [= <- <-] & _ & Hb).
    exists ss. split; [by eapply list_elem_of_lookup_2|].
    apply list_elem_of_fmap in Hs as ([l s'] & -> & Hin). by apply elem_of_zip_r in Hin.
  - intros Hs. by apply elem_of_nil in Hs.
Qed.

(** The targets stay within the scores: every cell of the target matrix is
    0 or one of the scores of the batch.  So scores between 0 and 1 give
    targets between 0 and 1, as the binary cross entropy needs them. *)
Theorem vqa_targets_within_unit_interval rows size (labels : list (list Z))
    (scores : list (list Qc)) t :
  VQA.vqa_targets rows size labels scores = Some t →
  Forall (Forall (λ s, 0 ≤ s ∧ s ≤ 1)) scores →
  Forall (Forall (λ x, 0 ≤ x ∧ x ≤ 1)) t ∧
  ∀ i c x, entry t i c = Some x → x = 0 ∨ ∃ ss, ss ∈ scores ∧ x ∈ ss.
Proof.
  intros Ht Hscores.
  pose proof (vqa_targets_shape _ _ _ _ _ Ht) as [Hn Hrows].
  assert (∀ i c x, entry t i c = Some x → x = 0 ∨ ∃ ss, ss ∈ scores ∧ x ∈ ss) as Hcell.
  { intros i c x Hx.
    assert (i < rows ∧ c < size)%nat as [Hi Hc].
    { unfold entry in Hx. destruct (t !! i) as [r|] eqn:Hr; [|done]. simpl in Hx.
      split; [rewrite <-Hn; by eapply lookup_lt_Some|].
      rewrite Forall_lookup in Hrows. rewrite <-(Hrows _ _ Hr).
      by eapply lookup_lt_Some. }
    rewrite (vqa_targets_cells _ _ _ _ _ Ht) in Hx by done.
    destruct (VQA.last_score size c _) as [s|] eqn:Hs; simpl in Hx; simplify_eq.
    - right. apply last_score_elem in Hs. by eapply example_pairs_scores.
    - by left. }
  split; [|done].
  apply Forall_lookup. intros i r Hr. apply Forall_lookup. intros c x Hx.
  destruct (Hcell i c x) as [->|(ss & Hss & Hin)].
  { unfold entry. by rewrite Hr. }
  - split; [apply Qcle_refl|done].
  - rewrite Forall_forall in Hscores. specialize (Hscores ss Hss).
    rewrite Forall_forall in Hscores. by apply Hscores.
Qed.

Lemma vqa_targets_within_unit_interval_witness :
  (VQA.vqa_targets 1 2 VQA.sample_labels VQA.sample_scores
     = Some [[Q2Qc (1 # 2); 1]] ∧
   Forall (Forall (λ s, 0 ≤ s ∧ s ≤ 1)) VQA.sample_scores) ∧
  Forall (Forall (λ x, 0 ≤ x ∧ x ≤ 1)) [[Q2Qc (1 # 2); 1]] ∧
  ∀ i c x, entry [[Q2Qc (1 # 2); 1]] i c = Some x →
    x = 0 ∨ ∃ ss, ss ∈ VQA.sample_scores ∧ x ∈ ss.
Proof.
  assert (Forall (Forall (λ s, 0 ≤ s ∧ s ≤ 1)) VQA.sample_scores) as Hs.
  { unfold VQA.sample_scores. apply Forall_singleton.
    repeat (apply Forall_cons; split; [split; by vm_compute|]). apply Forall_nil_2. }
  split; [exact (conj eq_refl Hs)|].
  exact (vqa_targets_within_unit_interval 1 2 VQA.sample_labels VQA.sample_scores
           [[Q2Qc (1 # 2); 1]] eq_refl Hs).
Defined.

Lemma vqa_targets_built_iff_witness :
  is_Some (VQA.vqa_targets 1 2 VQA.sample_labels VQA.sample_scores) ∧
  ¬ is_Some (VQA.vqa_targets 1 2 [[2%Z]] [[1]]).
Proof.
  split.
  - apply (proj2 (vqa_targets_built_iff 1 2 VQA.sample_labels VQA.sample_scores)).
    intros [|i] ls ss Hz Hne; simpl in Hz; [|done]. injection Hz as <- <-.
    split; [lia|]. repeat (apply Forall_cons; split; [simpl; lia|]).
    apply Forall_nil_2.
  - intros Hsome.
    destruct (proj1 (vqa_targets_built_iff 1 2 [[2%Z]] [[1]]) Hsome 0%nat [2%Z] [1])
      as [_ Hrange]; [done|done|].
    apply Forall_cons in Hrange as [Hr _]. simpl in Hr. lia.
Defined.

(** ** Image-text contrastive: the two directions *)

Lemma scalar_add_comm a b : scalar_add a b = scalar_add b a.
Proof. destruct a, b; simpl; try done. by rewrite Qcplus_comm. Qed.

Section itc_symmetry.
Context {Batch Feats : Type}.
Variable infer_cls :
  Batch → option bool → option bool → option bool → option bool → option Feats.
Variable itc_head : Feats → Feats → list (list Qc) * list (list Qc).
Variable nll : list Qc → Z → Qc.

(** The contrastive loss weighs its two directions alike: a head that
    returns the two logit matrices in the other order gets the same loss,
    and raises on the same batches. *)
Theorem itc_loss_symmetric (batch : Batch) :
  ITC.itc_loss <$>
    ITC.compute_itc infer_cls (λ a b, ((itc_head a b).2, (itc_head a b).1)) nll batch
  = ITC.itc_loss <$> ITC.compute_itc infer_cls itc_head nll batch.
Proof.
  unfold ITC.compute_itc.
  destruct (infer_cls batch None None None (Some true)) as [fi|]; [|done]. simpl.
  destruct (infer_cls batch None None (Some true) None) as [ft|]; [|done]. simpl.
  destruct (itc_head fi ft) as [li lt]. simpl.
  destruct (decide (length li = length lt)) as [Heq|Hne].
  - rewrite <-Heq.
    destruct (cross_entropy nll (-100) li (ITC.arange (length li))) as [a|],
      (cross_entropy nll (-100) lt (ITC.arange (length li))) as [b|]; simpl; try done.
    by rewrite (scalar_add_comm b a).
  - assert (cross_entropy nll (-100) lt (ITC.arange (length li)) = None) as Hlt.
    { apply eq_None_not_Some. rewrite cross_entropy_is_Some, arange_length.
      intros [? _]. congruence. }
    assert (cross_entropy nll (-100) li (ITC.arange (length lt)) = None) as Hli.
    { apply eq_None_not_Some. rewrite cross_entropy_is_Some, arange_length.
      intros [? _]. congruence. }
    rewrite Hlt, Hli.
    destruct (cross_entropy nll (-100) li (ITC.arange (length li))),
      (cross_entropy nll (-100) lt (ITC.arange (length lt))); done.
Qed.
End itc_symmetry.

(** ** Image-text matching: a batch without one of its entries *)

(** A batch dictionary that lacks ["text"], ["image"] or ["false_image_0"]
    makes [compute_itm] raise before the encoder is called: the result does
    not depend on the encoder, and the store is left exactly as it was. *)
Theorem compute_itm_missing_entry_raises {Image : Type}
    (infer : nat → bool → bool → ITM.M (Image := Image) (gmap string (list (list Qc))))
    (itm_head : list (list Qc) → list (list Qc)) (nll : list Qc → Z → Qc)
    (perm : list nat) (batch : nat) (h : gmap nat (ITM.obj Image)) d :
  h !! batch = Some (ITM.ODict d) →
  d !! "text" = None ∨ d !! "image" = None ∨ d !! "false_image_0" = None →
  ITM.compute_itm infer itm_head nll perm batch h = (None, h).
Proof.
  intros Hd Hmiss. unfold ITM.compute_itm, mbind, ITM.M_bind.
  unfold ITM.bind at 1. pose proof (itm_batch_store perm batch h) as Hb.
  destruct (ITM.itm_batch perm batch h) as [[[labels batch']|] h1]; [|by subst].
  exfalso.
  destruct Hb as (d' & ? & ? & ? & ? & ? & ? & ? & ? & Hd' & [Ht _] & [Hi _] & [Hf _] & _).
  assert (d' = d) as -> by congruence.
  destruct Hmiss as [?|[?|?]]; congruence.
Qed.

Lemma compute_itm_missing_entry_raises_witness :
  let h : gmap nat (ITM.obj nat) :=
    <[3%nat := ITM.ODict (<["text" := 0%nat]> (<["image" := 1%nat]> ∅))]>
      ITM.sample_store in
  ITM.compute_itm ITM.marking_infer (λ x, x) ITC.sample_nll [1; 0]%nat 3 h = (None, h).
Proof.
  intros h.
  apply (compute_itm_missing_entry_raises ITM.marking_infer (λ x, x) ITC.sample_nll
           [1; 0]%nat 3 h (<["text" := 0%nat]> (<["image" := 1%nat]> ∅))).
  - unfold h. apply lookup_insert_eq.
  - right. right. reflexivity.
Defined.

(** ** Single-label classification *)

Section cls.
Context {Payload Feats : Type}.
Variable infer_cls :
  CLS.cls_batch Payload → option bool → option bool → option bool → option bool →
  option Feats.
Variable cls_head : Feats → list (list Qc).
Variable nll : list Qc → Z → Qc.

(** Once the encoder has answered, [compute_cls] raises when the head gives
    a number of logit rows other than the number of labels.  For one row of
    [classes] logits per label and labels among the classes, it returns the
    logits and the labels as they are, and its loss is the plain mean of the
    negative log-likelihoods of the examples. *)
Theorem cls_loss_mean_or_raises (cfg : CLS.config) (batch : CLS.cls_batch Payload)
    feats (classes : nat) :
  infer_cls batch (Some false) (Some false) (Some (CLS.language_only cfg))
    (Some (CLS.vision_only cfg)) = Some feats →
  (length (cls_head feats) ≠ length (CLS.cls_labels batch) →
   CLS.compute_cls infer_cls cls_head nll cfg batch = None) ∧
  (shape2 (length (CLS.cls_labels batch)) classes (cls_head feats) →
   Forall (λ y, 0 ≤ y < Z.of_nat classes)%Z (CLS.cls_labels batch) →
   CLS.cls_labels batch ≠ [] →
   CLS.compute_cls infer_cls cls_head nll cfg batch
   = Some {| CLS.cls_loss :=
               Num (sum_Qc ((λ p, nll p.1 p.2)
                              <$> zip (cls_head feats) (CLS.cls_labels batch))
                    / Qc_of_nat (length (CLS.cls_labels batch)));
             CLS.cls_logits := cls_head feats;
             CLS.cls_labels_out := CLS.cls_labels batch |}).
Proof.
  intros Hfeats. unfold CLS.compute_cls. rewrite Hfeats. cbn [mbind option_bind].
  split.
  - intros Hne.
    assert (cross_entropy nll (-100) (cls_head feats) (CLS.cls_labels batch) = None)
      as ->; [|done].
    apply eq_None_not_Some. rewrite cross_entropy_is_Some. by intros [? _].
  - intros [Hlen Hw] Hvalid Hne. rewrite cross_entropy_mean.
    + cbn [mbind option_bind]. by rewrite Hlen.
    + done.
    + eapply Forall_impl; [exact Hvalid|]. simpl. intros y Hy. lia.
    + apply (ce_valid_uniform _ classes); [done|].
      eapply Forall_impl; [exact Hvalid|]. simpl. intros y Hy. by right.
    + intros Hnil. rewrite Hnil in Hlen. simpl in Hlen.
      by destruct (CLS.cls_labels batch).
Qed.
End cls.

Lemma cls_loss_mean_or_raises_witness :
  let logits : list (list Qc) := [[0; 0; 1]; [1; 0; 0]] in
  (shape2 (length (CLS.cls_labels CLS.sample_batch)) 3 logits ∧
   Forall (λ y, 0 ≤ y < Z.of_nat 3)%Z (CLS.cls_labels CLS.sample_batch) ∧
   CLS.cls_labels CLS.sample_batch ≠ []) ∧
  CLS.compute_cls CLS.sample_infer_cls (λ x, x) ITC.sample_nll CLS.sample_cfg
    CLS.sample_batch
  = Some {| CLS.cls_loss :=
              Num (sum_Qc ((λ p, ITC.sample_nll p.1 p.2)
                             <$> zip logits (CLS.cls_labels CLS.sample_batch))
                   / Qc_of_nat (length (CLS.cls_labels CLS.sample_batch)));
            CLS.cls_logits := logits;
            CLS.cls_labels_out := CLS.cls_labels CLS.sample_batch |}.
Proof.
  intros logits.
  assert (shape2 (length (CLS.cls_labels CLS.sample_batch)) 3 logits) as H1.
  { split; [reflexivity|]. repeat constructor. }
  assert (Forall (λ y, 0 ≤ y < Z.of_nat 3)%Z (CLS.cls_labels CLS.sample_batch)) as H2.
  { repeat (apply Forall_cons; split; [simpl; lia|]). apply Forall_nil_2. }
  assert (CLS.cls_labels CLS.sample_batch ≠ []) as H3 by done.
  split; [exact (conj H1 (conj H2 H3))|].
  exact (proj2 (cls_loss_mean_or_raises CLS.sample_infer_cls (λ x, x) ITC.sample_nll
                  CLS.sample_cfg CLS.sample_batch logits 3 eq_refl) H1 H2 H3).
Defined.

(** ** Retrieval recall: a ranking that puts every match first *)

Lemma found_of_strict_best topk k ids (q : Z * list Qc) :
  Recall.topk_contract topk →
  (1 ≤ k ≤ length q.2)%nat → Recall.strict_best ids q → Recall.found topk k ids q.
Proof.
  intros Hc Hk (j & v & Hv & Hid & Hbest). apply found_spec.
  destruct (topk_Some topk k q.2 Hc) as (idx & Hidx & Hlen & _ & Hrange & Hdom); [lia|].
  exists idx, j. split; [done|]. split; [|done].
  destruct (decide (j ∈ idx)) as [|Hout]; [done|]. exfalso.
  destruct idx as [|j0 idx]; [simpl in Hlen; lia|].
  assert (j0 ≠ j) as Hne.
  { intros ->. apply Hout, list_elem_of_here. }
  destruct (lookup_lt_is_Some_2 q.2 j0) as [v0 Hv0].
  { apply Hrange, list_elem_of_here. }
  assert (v ≤ v0) as Hle.
  { apply (Hdom j0 j v0 v); [apply list_elem_of_here|done..]. }
  pose proof (Hbest j0 v0 Hne Hv0) as Hlt.
  by apply (Qclt_not_le _ _ Hlt).
Qed.

Lemma fraction_all n : (0 < n)%nat → Recall.fraction n n = Num 1.
Proof.
  intros Hn. unfold Recall.fraction, scalar_div.
  assert (Qc_of_nat n ≠ 0) as Hq by (rewrite Qc_of_nat_0; lia).
  rewrite decide_False by done. f_equal. unfold Qcdiv. by apply Qcmult_inv_r.
Qed.

Lemma recall_of_all topk k ids (queries : list (Z * list Qc)) :
  queries ≠ [] → Forall (Recall.found topk k ids) queries →
  Recall.recall_of topk k ids queries = Num 1.
Proof.
  intros Hne Hall. unfold Recall.recall_of. rewrite filter_all by done.
  apply fraction_all. destruct queries; [done|simpl; lia].
Qed.

(** A ranking that puts every match first has recall 1.  If every image
    scores one text of its own strictly above all other texts, the three
    image-to-text recalls are 1; if every text scores its own image strictly
    above all other images, the three text-to-image recalls are 1. *)
Theorem irtr_recall_one_when_matches_lead topk tiids gs gi iids scores
    ir1 ir5 ir10 tr1 tr5 tr10 :
  Recall.topk_contract topk →
  Recall.make_iids gi = Some iids →
  Recall.make_scores gs (length iids) = Some scores →
  Recall.compute_irtr_recall topk tiids gs gi
    = Some (ir1, ir5, ir10, tr1, tr5, tr10) →
  (Forall (Recall.strict_best tiids) (zip iids scores) →
   tr1 = Num 1 ∧ tr5 = Num 1 ∧ tr10 = Num 1) ∧
  (Forall (Recall.strict_best iids)
     (zip tiids (Recall.transpose (length tiids) scores)) →
   ir1 = Num 1 ∧ ir5 = Num 1 ∧ ir10 = Num 1).
Proof.
  intros Hc Hi Hs H.
  destruct (compute_irtr_recall_inv topk _ _ _ _ Hc H)
    as (iids' & scores' & M & T & Hi' & HM & Hs' & Hshape & HT & HM10 & HT10).
  assert (iids' = iids) as -> by congruence. subst M.
  assert (scores' = scores) as -> by congruence.
  rewrite (compute_irtr_recall_value topk _ _ _ iids scores (length iids) T) in H
    by done.
  injection H as <- <- <- <- <- <-.
  destruct (transpose_spec (length iids) T scores Hshape) as [[HtT HtM] _].
  destruct Hshape as [Hlen Hrows].
  assert (zip tiids (Recall.transpose T scores) ≠ []) as Hcols.
  { intros Hnil%(f_equal length). rewrite length_zip in Hnil. simpl in Hnil. lia. }
  assert (zip iids scores ≠ []) as Hr.
  { intros Hnil%(f_equal length). rewrite length_zip in Hnil. simpl in Hnil. lia. }
  rewrite HT. split.
  - intros Hbest.
    assert (∀ k, (1 ≤ k ≤ 10)%nat →
              Forall (Recall.found topk k tiids) (zip iids scores)) as Hfound.
    { intros k Hk. apply Forall_lookup. intros r [a row] Hz.
      apply found_of_strict_best; [done| |].
      - simpl. apply lookup_zip_with_Some in Hz as (a' & row' & [= <- <-] & _ & Hrow).
        rewrite Forall_lookup in Hrows. rewrite (Hrows _ _ Hrow). lia.
      - rewrite Forall_lookup in Hbest. by eapply Hbest. }
    repeat split; apply recall_of_all; try done; apply Hfound; lia.
  - intros Hbest.
    assert (∀ k, (1 ≤ k ≤ 10)%nat →
              Forall (Recall.found topk k iids)
                (zip tiids (Recall.transpose T scores))) as Hfound.
    { intros k Hk. apply Forall_lookup. intros j [a col] Hz.
      apply found_of_strict_best; [done| |].
      - simpl. apply lookup_zip_with_Some in Hz as (a' & col' & [= <- <-] & _ & Hcol).
        rewrite Forall_lookup in HtM. rewrite (HtM _ _ Hcol). lia.
      - rewrite Forall_lookup in Hbest. by eapply Hbest. }
    repeat split; apply recall_of_all; try done; apply Hfound; lia.
Qed.

Lemma sample_rows_strict_best :
  Forall (Recall.strict_best Recall.sample_tiids)
    (zip Recall.sample_tiids (Recall.sample_scores_row <$> seq 0 10)).
Proof.
  apply Forall_lookup. intros r [a row] Hz.
  apply lookup_zip_with_Some in Hz as (a' & row' & [= <- <-] & Ha & Hrow).
  rewrite list_lookup_fmap in Hrow.
  destruct (seq 0 10 !! r) as [r'|] eqn:Hr; [|done].
  apply lookup_seq in Hr as [-> Hlt]. simpl in Hrow. injection Hrow as <-.
  exists r, 1. split; [|split; [done|]].
  - cbn [snd]. unfold Recall.sample_scores_row.
    rewrite list_lookup_fmap, lookup_seq_lt by done.
    simpl. by rewrite decide_True.
  - intros j' v' Hne Hl. cbn [snd] in Hl. unfold Recall.sample_scores_row in Hl.
    rewrite list_lookup_fmap in Hl.
    destruct (seq 0 10 !! j') as [j''|] eqn:Hj; [|done].
    apply lookup_seq in Hj as [-> _]. simpl in Hl. injection Hl as <-.
    rewrite decide_False by done. reflexivity.
Qed.

Lemma irtr_recall_one_when_matches_lead_witness :
  (Recall.topk_contract Recall.sorted_topk ∧
   Recall.make_iids Recall.sample_gather_iids = Some Recall.sample_tiids ∧
   Recall.make_scores Recall.sample_gather_scores (length Recall.sample_tiids)
     = Some (Recall.sample_scores_row <$> seq 0 10) ∧
   Recall.compute_irtr_recall Recall.sorted_topk Recall.sample_tiids
     Recall.sample_gather_scores Recall.sample_gather_iids
     = Some (Num 1, Num 1, Num 1, Num 1, Num 1, Num 1) ∧
   Forall (Recall.strict_best Recall.sample_tiids)
     (zip Recall.sample_tiids (Recall.sample_scores_row <$> seq 0 10))) ∧
  Num 1 = Num 1 ∧ Num 1 = Num 1 ∧ Num 1 = Num 1.
Proof.
  split; [exact (conj sorted_topk_contract (conj eq_refl (conj eq_refl
                   (conj irtr_recall_sample sample_rows_strict_best))))|].
  exact (proj1 (irtr_recall_one_when_matches_lead Recall.sorted_topk
                  Recall.sample_tiids
                  Recall.sample_gather_scores Recall.sample_gather_iids
                  Recall.sample_tiids (Recall.sample_scores_row <$> seq 0 10)
                  (Num 1) (Num 1) (Num 1) (Num 1) (Num 1) (Num 1)
                  sorted_topk_contract eq_refl eq_refl irtr_recall_sample)
           sample_rows_strict_best).
Defined.

(** ** Masked image modelling: every patch removed *)

Lemma selected_all_ones (m : list Qc) : ∀ q : list Qc,
  Forall (λ x, x = 1) m → length q = length m → MIM.selected q m = q.
Proof.
  unfold MIM.selected.
  induction m as [|b m IH]; intros [|y q] Hm Hlen; try done.
  apply Forall_cons in Hm as [-> Hm]. simpl in Hlen. cbn [zip_with].
  rewrite filter_cons_True by done. rewrite fmap_cons, IH by (done || lia). done.
Qed.

(** When the mask removes every patch, the loss is the plain mean of the
    per-patch mean squared errors over all [n * l] patches. *)
Theorem mim_loss_all_patches_removed n l d (logits labels : list (list (list Qc))) :
  shape3 n l d logits → shape3 n l d labels → (0 < d)%nat → (0 < n * l)%nat →
  MIM.mim_loss logits labels (replicate n (replicate l 1))
  = Some (Num (sum_Qc (concat (MIM.patch_mses logits labels)) / Qc_of_nat (n * l))).
Proof.
  intros Hlog Hlab Hd Hnl.
  set (mask := replicate n (replicate l (1 : Qc))).
  assert (shape2 n l mask) as Hmask.
  { split; [apply length_replicate|]. apply Forall_replicate, length_replicate. }
  assert (Forall (λ x : Qc, x = 1) (concat mask)) as Hones.
  { apply Forall_concat, Forall_replicate, Forall_replicate. done. }
  assert (MIM.binary_mask mask) as Hbin.
  { apply Forall_replicate, Forall_replicate. by right. }
  assert (length (concat mask) = (n * l)%nat) as Hlen.
  { destruct Hmask as [Hn Hr]. by rewrite (concat_length_uniform l), Hn. }
  assert (1 ∈ concat mask) as Hin.
  { destruct (concat mask) as [|x rest] eqn:Hc; [simpl in Hlen; lia|].
    apply Forall_cons in Hones as [-> _]. apply list_elem_of_here. }
  destruct (mim_loss_value n l d logits labels mask) as [-> _]; try done.
  pose proof (patch_mses_shape _ _ _ _ _ Hlog Hlab) as Hqs.
  pose proof (concat_rows_length _ _ (shape2_rows _ _ _ _ Hqs Hmask)) as Hql.
  unfold MIM.masked_mean. rewrite selected_all_ones by done.
  by rewrite Hql, Hlen.
Qed.

Lemma mim_loss_all_patches_removed_witness :
  let logits : list (list (list Qc)) := [[[1; 1 + 1]; [0; 1]]] in
  let labels : list (list (list Qc)) := [[[0; 0]; [1; 1]]] in
  (shape3 1 2 2 logits ∧ shape3 1 2 2 labels ∧ (0 < 2)%nat ∧ (0 < 1 * 2)%nat) ∧
  MIM.mim_loss logits labels (replicate 1 (replicate 2 1))
  = Some (Num (sum_Qc (concat (MIM.patch_mses logits labels)) / Qc_of_nat (1 * 2))).
Proof.
  intros logits labels.
  assert (shape3 1 2 2 logits) as H1.
  { split; [reflexivity|]. repeat constructor. }
  assert (shape3 1 2 2 labels) as H2.
  { split; [reflexivity|]. repeat constructor. }
  assert (0 < 2)%nat as H3 by lia.
  assert (0 < 1 * 2)%nat as H4 by lia.
  split; [exact (conj H1 (conj H2 (conj H3 H4)))|].
  exact (mim_loss_all_patches_removed 1 2 2 logits labels H1 H2 H3 H4).
Defined.
